(** * GraphiT positional encodings: a shallow embedding of
      [transformer/position_encoding_test.py]

    The Python module defines a family of encoders sharing one caching
    [apply_to] protocol (class [PositionEncoding] and its subclasses
    [DiffusionEncoding], [PStepRWEncoding], [AdjEncoding], [FullEncoding]),
    the eigenvector encoder [LapEncoding] with an [apply_to] of its own, and
    the helper [edge_attr_one_hot].

    Conventions of the embedding:
    - a Python exception is a [Raise] in the [result] type; the mutable
      objects touched by [apply_to] (the files on disk, the attribute
      [dataset.pe_list]) are the fields of a [world] threaded through a
      state-and-exception monad, so that what an aborted call leaves behind
      is visible;
    - floating-point scalars are an abstract carrier [R] with the operations
      of class [FloatOps]; nothing is assumed about them, so every statement
      holds for IEEE arithmetic as well as for the exact rationals used in
      the examples;
    - dense and sparse matrices are lists of rows; 3-D tensors are lists of
      channels;
    - functions of torch, scipy, numpy and torch_geometric are modelled from
      their documented behaviour, each next to the place it is called. *)

From Stdlib Require Import ZArith QArith Lia.
From stdpp Require Import base option list strings gmap.

Set Default Proof Using "Type".

(** ** Exceptions and results *)

Inductive exn : Type :=
| IndexError
| RuntimeError
| AssertionError
| AttributeError
| TypeError
| UnpicklingError
| OSError.

Inductive result (A : Type) : Type :=
| Ok (a : A)
| Raise (e : exn).

Arguments Ok {A} a.
Arguments Raise {A} e.

Definition rbind {A B} (r : result A) (k : A -> result B) : result B :=
  match r with
  | Ok a => k a
  | Raise e => Raise e
  end.

Notation "'try' x := r 'in' k" := (rbind r (fun x => k))
  (at level 10, x name, r at level 100, k at level 200, only parsing).

(** [mapR f l] runs [f] on the elements of [l] from left to right and stops
    at the first exception. *)
Fixpoint mapR {A B} (f : A -> result B) (l : list A) : result (list B) :=
  match l with
  | [] => Ok []
  | a :: l' =>
      try b := f a in
      try bs := mapR f l' in
      Ok (b :: bs)
  end.

(** ** Scalars *)

(** The floating-point operations the module and its libraries apply to
    matrix entries.  [finv] and [finvsqrt] are the degree scalings of
    torch_geometric's [get_laplacian] ([1.0 / deg] and [deg.pow(-0.5)], each
    followed by [masked_fill_(... == inf, 0)]); [fofZ] is [.float()] on an
    integer tensor.  Conversions between float widths are not modelled. *)
Class FloatOps (R : Type) : Type := {
  f0 : R;
  f1 : R;
  fadd : R -> R -> R;
  fsub : R -> R -> R;
  fmul : R -> R -> R;
  fneg : R -> R;
  finv : R -> R;
  finvsqrt : R -> R;
  fofZ : Z -> R
}.

(** ** Tensors *)

Abbreviation matrix R := (list (list R)) (only parsing).

(** The encodings handled by [apply_to] are 2-D ([N, N]) or 3-D
    ([C, N, N]) tensors. *)
Inductive tensor (R : Type) : Type :=
| T2 (m : matrix R)
| T3 (t : list (matrix R)).

Arguments T2 {R} m.
Arguments T3 {R} t.

Definition has_shape2 {R} (m : matrix R) (r c : nat) : Prop :=
  length m = r /\ Forall (fun row => length row = c) m.

Definition has_shape3 {R} (t : list (matrix R)) (ch r c : nat) : Prop :=
  length t = ch /\ Forall (fun m => has_shape2 m r c) t.

(** [entry2 m i j] is [m[i][j]], [entry3 t c i j] is [t[c][i][j]]. *)
Definition entry2 {R} (m : matrix R) (i j : nat) : option R :=
  m !! i ≫= fun row => row !! j.

Definition entry3 {R} (t : list (matrix R)) (c i j : nat) : option R :=
  t !! c ≫= fun m => entry2 m i j.

Section ZeroDiagonal.
Context {R : Type} `{FloatOps R}.

(** [m.diagonal()[:] = 0] on a 2-D tensor: [m[i][i] = 0] for every
    [i < min(rows, cols)]. *)
Definition zero_diagonal (m : matrix R) : matrix R :=
  imap (fun i row => <[i := f0]> row) m.

(** [t.diagonal(dim1=1, dim2=2)[:] = 0] on a 3-D tensor: the diagonal of
    every channel. *)
Definition zero_diagonal_dims12 (t : list (matrix R)) : list (matrix R) :=
  zero_diagonal <$> t.

(** [t.diagonal()[:] = 0] on a 3-D tensor.  torch's defaults are [dim1=0],
    [dim2=1]: the view holds [t[i][i][k]] for [i < min(C, N)] and every [k],
    so row [i] of channel [i] is cleared. *)
Definition zero_diagonal_dims01 (t : list (matrix R)) : list (matrix R) :=
  imap (fun i ch => alter (fun row => (fun _ => f0) <$> row) i ch) t.

End ZeroDiagonal.

(** ** The caching protocol of [PositionEncoding] *)

(** A graph as the module reads it: [num_nodes], [edge_index] (a [2 x E]
    integer tensor, here the list of its [E] columns [(row, col)]) and the
    optional [edge_attr], a 1-D ([E]) or 2-D ([E x F]) tensor of
    categorical codes. *)
Inductive int_tensor : Type :=
| I1 (v : list Z)
| I2 (ncols : nat) (rows : list (list Z)).

(** A 2-D integer tensor has [ncols] entries in every row; the column count
    is kept apart because a graph without edges still has it ([0 x F]). *)
Definition int_tensor_wf (t : int_tensor) : Prop :=
  match t with
  | I1 _ => True
  | I2 ncols rows => Forall (fun row => length row = ncols) rows
  end.

Record graph : Type := Graph {
  num_nodes : nat;
  edge_index : list (nat * nat);
  edge_attr : option int_tensor
}.

Section Protocol.
Context {R : Type} `{FloatOps R}.

(** The content of a cache file.  [pickle_dump] is [pickle.dump] on a list
    of tensors.  [pickle_load] is what [pickle.load] does with a file: it
    returns the list of tensors the file holds, or [None] when the file
    holds a pickled [None], or raises on a file that does not unpickle.
    Files holding any other object are left out of [blob]. *)
Context {blob : Type}.
Variable pickle_dump : list (tensor R) -> blob.
Variable pickle_load : blob -> result (option (list (tensor R))).

(** [open(path, "wb")] on a path that is not a file: it creates the file, or
    it raises ([FileNotFoundError] for a missing directory,
    [PermissionError], ...: an [OSError]) and leaves the disk as it is.  What
    it does with a path is decided by the directories and permissions, which
    [apply_to] never changes. *)
Variable open_wb : string -> result unit.

(** What [apply_to] can touch: the files on disk, the attribute
    [dataset.pe_list] ([None] while it was never assigned), and, as ghost
    state, the number of [compute_pe] calls made so far. *)
Record world : Type := World {
  files : gmap string blob;
  pe_list : option (list (tensor R));
  compute_calls : nat
}.

Definition M (A : Type) : Type := world -> result A * world.

Definition ret {A} (a : A) : M A := fun w => (Ok a, w).

Definition bind {A B} (c : M A) (k : A -> M B) : M B :=
  fun w =>
    match c w with
    | (Ok a, w') => k a w'
    | (Raise e, w') => (Raise e, w')
    end.

Definition lift {A} (r : result A) : M A := fun w => (r, w).

Notation "'do' x <- c ; k" := (bind c (fun x => k))
  (at level 10, x name, c at level 100, k at level 200, only parsing).

(** An encoder instance: the attributes set by [PositionEncoding.__init__],
    the attribute [use_edge_attr] when the subclass defines it ([None] when
    [hasattr(self, "use_edge_attr")] is false), and the method [compute_pe]
    the subclass provides. *)
Record PositionEncoding : Type := Encoder {
  savepath : option string;
  zero_diag : bool;
  use_edge_attr : option bool;
  compute_pe : graph -> result (tensor R)
}.

(** [self.savepath + "." + split] *)
Definition cache_path (sp split : string) : string := sp +:+ "." +:+ split.

(** Lines 46-53: [None] without a savepath or without the file, otherwise
    whatever [pickle.load] makes of the file; a file that cannot be opened
    for reading counts among those that do not load. *)
Definition load (self : PositionEncoding) (split : string)
  : M (option (list (tensor R))) :=
  fun w =>
    match savepath self with
    | None => (Ok None, w)
    | Some sp =>
        match files w !! cache_path sp split with
        | None => (Ok None, w)
        | Some b => (pickle_load b, w)
        end
    end.

(** Lines 39-44: the file is written only when it does not exist, and an
    exception of [open] leaves [save] before anything is written.  Once the
    file is open [pickle.dump] writes the list; an I/O error in the middle of
    the writing is not modelled. *)
Definition save (self : PositionEncoding) (pos_enc : list (tensor R))
    (split : string) : M unit :=
  fun w =>
    match savepath self with
    | None => (Ok tt, w)
    | Some sp =>
        match files w !! cache_path sp split with
        | None =>
            match open_wb (cache_path sp split) with
            | Ok _ =>
                (Ok tt,
                 World (<[cache_path sp split := pickle_dump pos_enc]> (files w))
                       (pe_list w) (compute_calls w))
            | Raise e => (Raise e, w)
            end
        | Some _ => (Ok tt, w)
        end
    end.

(** [hasattr(self, "use_edge_attr") and self.use_edge_attr] *)
Definition edge_attr_branch (self : PositionEncoding) : bool :=
  match use_edge_attr self with
  | Some b => b
  | None => false
  end.

(** Lines 27-32: the zero-diagonal step on one encoding.  The clone keeps
    the tensor appended to [all_pe] (or held in the loaded list) intact.
    [diagonal(dim1=1, dim2=2)] on a 2-D tensor is an [IndexError]. *)
Definition mask (self : PositionEncoding) (pe : tensor R) : result (tensor R) :=
  if zero_diag self then
    if edge_attr_branch self then
      match pe with
      | T3 t => Ok (T3 (zero_diagonal_dims12 t))
      | T2 _ => Raise IndexError
      end
    else
      match pe with
      | T2 m => Ok (T2 (zero_diagonal m))
      | T3 t => Ok (T3 (zero_diagonal_dims01 t))
      end
  else Ok pe.

(** [self.compute_pe(g)], counted. *)
Definition call_compute_pe (self : PositionEncoding) (g : graph)
  : M (tensor R) :=
  fun w =>
    (compute_pe self g,
     World (files w) (pe_list w) (S (compute_calls w))).

(** [saved_pos_enc[i]] *)
Definition getitem (saved : list (tensor R)) (i : nat) : result (tensor R) :=
  match saved !! i with
  | Some pe => Ok pe
  | None => Raise IndexError
  end.

(** [dataset.pe_list = []] and [dataset.pe_list.append(pe)] *)
Definition reset_pe_list : M unit :=
  fun w => (Ok tt, World (files w) (Some []) (compute_calls w)).

Definition append_pe (pe : tensor R) : M unit :=
  fun w =>
    match pe_list w with
    | Some l => (Ok tt, World (files w) (Some (l ++ [pe])) (compute_calls w))
    | None => (Raise AttributeError, w)
    end.

(** The body of [for i, g in enumerate(dataset)]; [all_pe] is threaded
    through and returned. *)
Fixpoint apply_loop (self : PositionEncoding)
    (saved_pos_enc : option (list (tensor R)))
    (i : nat) (gs : list graph) (all_pe : list (tensor R))
  : M (list (tensor R)) :=
  match gs with
  | [] => ret all_pe
  | g :: gs' =>
      do step <-
        match saved_pos_enc with
        | None =>
            do pe <- call_compute_pe self g;
            ret (pe, all_pe ++ [pe])
        | Some saved =>
            do pe <- lift (getitem saved i);
            ret (pe, all_pe)
        end;
      do pe <- lift (mask self step.1);
      do _ <- append_pe pe;
      apply_loop self saved_pos_enc (S i) gs' step.2
  end.

(** Lines 17-37, [apply_to]: the returned dataset is the one whose
    [pe_list] is in the final world. *)
Definition apply_to (self : PositionEncoding) (dataset : list graph)
    (split : string) : M unit :=
  do saved_pos_enc <- load self split;
  do _ <- reset_pe_list;
  do all_pe <- apply_loop self saved_pos_enc 0 dataset [];
  save self all_pe split.

End Protocol.

(** ** Dense linear algebra over [R] *)

Section LinearAlgebra.
Context {R : Type} `{FloatOps R}.

Definition zeros (r c : nat) : matrix R := replicate r (replicate c f0).

Definition ones (r c : nat) : matrix R := replicate r (replicate c f1).

(** [sp.identity(n)] *)
Definition identity (n : nat) : matrix R :=
  (fun i => <[i := f1]> (replicate n f0)) <$> seq 0 n.

(** [beta * L] *)
Definition mscale (beta : R) (L : matrix R) : matrix R :=
  (fun row : list R => fmul beta <$> row) <$> L.

(** [A - B] *)
Definition msub (A B : matrix R) : matrix R :=
  zip_with (zip_with fsub) A B.

Definition vsum (v : list R) : R := foldl fadd f0 v.

(** Column [j] of [B]. *)
Definition column (B : matrix R) (j : nat) : list R :=
  (fun row : list R => default f0 (row !! j)) <$> B.

Definition ncols (B : matrix R) : nat :=
  match B with
  | [] => 0
  | row :: _ => length row
  end.

(** [A.dot(B)] *)
Definition mdot (A B : matrix R) : matrix R :=
  (fun row : list R =>
     (fun j => vsum (zip_with fmul row (column B j))) <$> seq 0 (ncols B))
    <$> A.

(** [m[r][c] += w] *)
Definition add_at (m : matrix R) (r c : nat) (w : R) : matrix R :=
  alter (alter (fun x => fadd x w) c) r m.

(** Summing the weights of a coordinate list into a dense matrix, as the
    COO-to-CSC conversion of scipy and [scatter_add] do with duplicates. *)
Definition accumulate (m : matrix R) (ei : list (nat * nat)) (ew : list R)
  : matrix R :=
  foldl (fun acc e => add_at acc e.1.1 e.1.2 e.2) m (zip ei ew).

(** [maybe_num_nodes(edge_index, None)]: [max(edge_index) + 1], or 0 for an
    empty edge list. *)
Definition infer_num_nodes (ei : list (nat * nat)) : nat :=
  foldr (fun e n => Nat.max (S (Nat.max e.1 e.2)) n) 0 ei.

(** torch_geometric [to_scipy_sparse_matrix(edge_index, edge_attr)] followed
    by [.tocsc()], read as the dense matrix it denotes.  The library asserts
    one weight per edge. *)
Definition to_scipy_sparse_matrix (ei : list (nat * nat)) (ew : list R)
  : result (matrix R) :=
  if decide (length ew = length ei) then
    let n := infer_num_nodes ei in
    Ok (accumulate (zeros n n) ei ew)
  else Raise AssertionError.

(** [deg = scatter_add(edge_weight, row, dim=0, dim_size=num_nodes)]; an
    index outside [0, num_nodes) is an error. *)
Definition scatter_add (ew : list R) (rows : list nat) (n : nat)
  : result (list R) :=
  if forallb (fun r => r <? n) rows then
    Ok (foldl (fun acc e => alter (fun x => fadd x e.2) e.1 acc)
              (replicate n f0) (zip rows ew))
  else Raise RuntimeError.

(** [v[idx]] for an index tensor [idx]. *)
Definition gather (v : list R) (idx : list nat) : result (list R) :=
  mapR (fun i => match v !! i with Some x => Ok x | None => Raise IndexError end) idx.

(** torch_geometric [get_laplacian(edge_index, edge_weight, normalization,
    num_nodes=num_nodes)]: self-loops are removed, the degree is the
    row-sum of the weights, and one loop [(i, i)] per node is appended, which
    carries the degree ([None]) or 1 (["sym"], ["rw"]). *)
Definition get_laplacian (ei : list (nat * nat)) (ew : option (list R))
    (normalization : option string) (n : nat)
  : result (list (nat * nat) * list R) :=
  if negb (bool_decide (normalization = None \/ normalization = Some "sym"
                        \/ normalization = Some "rw"))
  then Raise AssertionError
  else
    try kept :=
      match ew with
      | None => Ok ((fun e => (e, f1)) <$> filter (fun e => e.1 ≠ e.2) ei)
      | Some w =>
          if decide (length w = length ei)
          then Ok (filter (fun ew => ew.1.1 ≠ ew.1.2) (zip ei w))
          else Raise IndexError
      end in
    let ei' := fst <$> kept in
    let w := snd <$> kept in
    try deg := scatter_add w (fst <$> ei') n in
    let loops := (fun i => (i, i)) <$> seq 0 n in
    match normalization with
    | None => Ok (ei' ++ loops, (fneg <$> w) ++ deg)
    | Some kind =>
        if decide (kind = "sym") then
          let dis := finvsqrt <$> deg in
          try dr := gather dis (fst <$> ei') in
          try dc := gather dis (snd <$> ei') in
          let w' := zip_with fmul (zip_with fmul dr w) dc in
          Ok (ei' ++ loops, (fneg <$> w') ++ replicate n f1)
        else
          let dinv := finv <$> deg in
          try dr := gather dinv (fst <$> ei') in
          let w' := zip_with fmul dr w in
          Ok (ei' ++ loops, (fneg <$> w') ++ replicate n f1)
    end.

(** The Laplacian as the matrix both kernels start from (lines 87-90 and
    121-124). *)
Definition laplacian_matrix (ei : list (nat * nat)) (ew : option (list R))
    (normalization : option string) (n : nat) : result (matrix R) :=
  try l := get_laplacian ei ew normalization n in
  to_scipy_sparse_matrix l.1 l.2.

(** Whether a matrix has exactly [r] rows of [c] entries. *)
Definition shape_is (m : matrix R) (r c : nat) : bool :=
  bool_decide (length m = r) && forallb (fun row => length row =? c) m.

End LinearAlgebra.

(** ** One-hot expansion of edge attributes *)

(** [num_edge_features] is an [int] or a sequence of [int]. *)
Inductive edge_features : Type :=
| NefInt (n : Z)
| NefSeq (cards : list Z).

(** Python's [sum] on integers. *)
Definition sumZ (l : list Z) : Z := foldr Z.add 0%Z l.

(** [num_edge_features_true], as both constructors compute it. *)
Definition num_edge_features_true (nef : edge_features) : Z :=
  match nef with
  | NefInt n => n
  | NefSeq cards => sumZ cards
  end.

(** The indicator row of class [c] among [classes] classes. *)
Definition one_hot_row (classes : nat) (c : Z) : list Z :=
  (fun k => if decide (Z.of_nat k = c) then 1%Z else 0%Z) <$> seq 0 classes.

(** The class count [F.one_hot(x, num_classes)] settles on for the flattened
    entries [xs] of [x]: an empty tensor needs a positive [num_classes]; in a
    non-empty one every value must be non-negative and, unless
    [num_classes] is -1 (inferred as [max + 1]), smaller than
    [num_classes]. *)
Definition one_hot_classes (xs : list Z) (num_classes : Z) : result nat :=
  match xs with
  | [] =>
      if decide (num_classes <= 0)%Z then Raise RuntimeError
      else Ok (Z.to_nat num_classes)
  | x :: xs' =>
      let lo := foldr Z.min x xs' in
      let hi := foldr Z.max x xs' in
      if decide (lo < 0)%Z then Raise RuntimeError
      else if decide (num_classes = -1)%Z then Ok (Z.to_nat (hi + 1))
      else if decide (hi < num_classes)%Z then Ok (Z.to_nat num_classes)
      else Raise RuntimeError
  end.

(** A 2-D tensor together with its second dimension, which an empty tensor
    still has. *)
Record wide (A : Type) : Type := Wide {
  width : nat;
  wide_rows : list (list A)
}.

Arguments Wide {A} width wide_rows.
Arguments width {A} w.
Arguments wide_rows {A} w.

(** [F.one_hot] on a 1-D tensor: shape [[E, classes]]. *)
Definition one_hot_1d (v : list Z) (num_classes : Z) : result (wide Z) :=
  try classes := one_hot_classes v num_classes in
  Ok (Wide classes (one_hot_row classes <$> v)).

(** [F.one_hot] on a 2-D tensor: shape [[E, F, classes]]. *)
Definition one_hot_2d (m : list (list Z)) (num_classes : Z)
  : result (nat * list (list (list Z))) :=
  try classes := one_hot_classes (concat m) num_classes in
  Ok (classes, (fun row : list Z => one_hot_row classes <$> row) <$> m).

(** [edge_attr[:, col]] on a 2-D tensor. *)
Definition int_column (ncols : nat) (rows : list (list Z)) (col : nat)
  : result (list Z) :=
  if decide (col < ncols) then
    mapR (fun row : list Z =>
            match row !! col with Some x => Ok x | None => Raise IndexError end)
         rows
  else Raise IndexError.

(** [torch.cat(blocks, dim=1)] for 2-D blocks with the same number of rows;
    an empty list of blocks is an error. *)
Fixpoint cat_dim1 {A} (blocks : list (wide A)) : result (wide A) :=
  match blocks with
  | [] => Raise RuntimeError
  | [b] => Ok b
  | b :: bs =>
      try rest := cat_dim1 bs in
      if decide (length (wide_rows b) = length (wide_rows rest)) then
        Ok (Wide (width b + width rest) (zip_with app (wide_rows b) (wide_rows rest)))
      else Raise RuntimeError
  end.

(** The result of [edge_attr_one_hot] before [.float()]: a 2-D
    [[E, W]] tensor, or in integer mode on a 2-D [edge_attr] the 3-D
    [[E, F, n]] tensor. *)
Inductive one_hot_tensor (A : Type) : Type :=
| OH2 (t : wide A)
| OH3 (nfeat classes : nat) (t : list (list (list A))).

Arguments OH2 {A} t.
Arguments OH3 {A} nfeat classes t.

(** Lines 190-193: one block per entry of [num_edge_features], column
    [col] of [edge_attr] one-hot encoded as it is. *)
Fixpoint one_hot_columns (ea : int_tensor) (col : nat) (cards : list Z)
  : result (list (wide Z)) :=
  match cards with
  | [] => Ok []
  | card :: cards' =>
      try codes :=
        match ea with
        | I2 ncols rows => int_column ncols rows col
        | I1 _ => Raise IndexError
        end in
      try one_hot_feat := one_hot_1d codes card in
      try rest := one_hot_columns ea (S col) cards' in
      Ok (one_hot_feat :: rest)
  end.

(** [edge_attr_one_hot] up to the final [.float()]. *)
Definition edge_attr_one_hot_int (ea : option int_tensor)
    (num_edge_features : edge_features) : result (one_hot_tensor Z) :=
  match ea with
  | None => Raise TypeError
  | Some ea =>
      match num_edge_features with
      | NefInt n =>
          match ea with
          | I1 v =>
              try t := one_hot_1d ((fun x => x - 1)%Z <$> v) n in
              Ok (OH2 t)
          | I2 ncols rows =>
              try t :=
                one_hot_2d ((fun row : list Z => (fun x => x - 1)%Z <$> row) <$> rows)
                           n in
              Ok (OH3 ncols t.1 t.2)
          end
      | NefSeq cards =>
          try all_one_hot_feat := one_hot_columns ea 0 cards in
          try t := cat_dim1 all_one_hot_feat in
          Ok (OH2 t)
      end
  end.

Section OneHotFloat.
Context {R : Type} `{FloatOps R}.

(** [.float()] *)
Definition float_tensor (t : one_hot_tensor Z) : one_hot_tensor R :=
  match t with
  | OH2 w => OH2 (Wide (width w) ((fun row : list Z => fofZ <$> row) <$> wide_rows w))
  | OH3 nfeat classes t =>
      OH3 nfeat classes
          ((fun m : list (list Z) => (fun row : list Z => fofZ <$> row) <$> m) <$> t)
  end.

Definition edge_attr_one_hot (ea : option int_tensor)
    (num_edge_features : edge_features) : result (one_hot_tensor R) :=
  try t := edge_attr_one_hot_int ea num_edge_features in
  Ok (float_tensor t).

(** [edge_attr_list[:, i]], as the weight vector handed to
    [compute_pe_from_edge_weight].  On the 2-D result it is column [i].  On
    the 3-D result of integer mode it is the [[E, n]] slice of feature
    [i]; [to_scipy_sparse_matrix] flattens the weights and asserts one per
    edge, which makes the slice usable exactly when [n = 1]. *)
Definition weight_column (t : one_hot_tensor R) (i : nat) : result (list R) :=
  match t with
  | OH2 w =>
      if decide (i < width w) then
        mapR (fun row : list R =>
                match row !! i with Some x => Ok x | None => Raise IndexError end)
             (wide_rows w)
      else Raise IndexError
  | OH3 nfeat classes t =>
      if decide (i < nfeat) then
        if decide (classes = 1) then
          try slices :=
            mapR (fun m : list (list R) =>
                    match m !! i with Some r => Ok r | None => Raise IndexError end)
                 t in
          Ok (concat slices)
        else Raise AssertionError
      else Raise IndexError
  end.

End OneHotFloat.

(** ** The encoders *)

Section MultiChannel.
Context {R : Type} `{FloatOps R}.

(** [pe_tensors[i] = pe_i] for [pe_tensors] of shape [[C, n, n]]: the
    assigned matrix must have the shape of a channel.  (torch would also
    broadcast a [1 x 1] matrix; the kernels return a square matrix with a
    row per node at least, so that case is the case [n = 1].) *)
Definition setitem (pe_tensors : list (matrix R)) (i n : nat) (pe_i : tensor R)
  : result (list (matrix R)) :=
  match pe_i with
  | T2 m =>
      if shape_is m n n then Ok (<[i := m]> pe_tensors)
      else Raise RuntimeError
  | T3 _ => Raise RuntimeError
  end.

(** The loop [for i in range(self.num_edge_features_true)] of [compute_pe]. *)
Fixpoint fill_channels (from_edge_weight : list R -> result (tensor R))
    (edge_attr_list : one_hot_tensor R) (n : nat) (idx : list nat)
    (pe_tensors : list (matrix R)) : result (list (matrix R)) :=
  match idx with
  | [] => Ok pe_tensors
  | i :: idx' =>
      try w := weight_column edge_attr_list i in
      try pe_i := from_edge_weight w in
      try pe_tensors' := setitem pe_tensors i n pe_i in
      fill_channels from_edge_weight edge_attr_list n idx' pe_tensors'
  end.

(** [compute_pe], whose text is the same in [DiffusionEncoding] and
    [PStepRWEncoding]; [from_edge_weight] is the class's
    [compute_pe_from_edge_weight].  [torch.zeros] rejects a negative
    dimension. *)
Definition compute_pe_channels
    (from_edge_weight :
       list (nat * nat) -> option (list R) -> nat -> result (tensor R))
    (use_attr : bool) (num_edge_features : edge_features) (g : graph)
  : result (tensor R) :=
  if use_attr then
    try edge_attr_list := edge_attr_one_hot (edge_attr g) num_edge_features in
    let c := num_edge_features_true num_edge_features in
    if decide (c < 0)%Z then Raise RuntimeError
    else
      try pe_tensors :=
        fill_channels
          (fun w => from_edge_weight (edge_index g) (Some w) (num_nodes g))
          edge_attr_list (num_nodes g) (seq 0 (Z.to_nat c))
          (replicate (Z.to_nat c) (zeros (num_nodes g) (num_nodes g))) in
      Ok (T3 pe_tensors)
  else from_edge_weight (edge_index g) None (num_nodes g).

End MultiChannel.

Module DiffusionEncoding.
Section Defs.
Context {R : Type} `{FloatOps R}.

(** [scipy.sparse.linalg.expm] *)
Variable expm : matrix R -> matrix R.

Definition compute_pe_from_edge_weight (beta : R)
    (normalization : option string)
    (ei : list (nat * nat)) (ew : option (list R)) (n : nat)
  : result (tensor R) :=
  try L := laplacian_matrix ei ew normalization n in
  Ok (T2 (expm (mscale (fneg beta) L))).

Definition compute_pe (beta : R) (use_attr : bool)
    (normalization : option string) (num_edge_features : edge_features)
    (g : graph) : result (tensor R) :=
  compute_pe_channels (compute_pe_from_edge_weight beta normalization)
                      use_attr num_edge_features g.

(** [DiffusionEncoding(savepath, beta, use_edge_attr, normalization,
    zero_diag, num_edge_features)] *)
Definition make (savepath : option string) (beta : R) (use_attr : bool)
    (normalization : option string) (zero_diag : bool)
    (num_edge_features : edge_features) : PositionEncoding :=
  Encoder savepath zero_diag (Some use_attr)
          (compute_pe beta use_attr normalization num_edge_features).

End Defs.
End DiffusionEncoding.

Module PStepRWEncoding.
Section Defs.
Context {R : Type} `{FloatOps R}.

(** Lines 126-128: [k] rounds of [tmp = tmp.dot(L)]; the second component
    counts the products made. *)
Fixpoint power_loop (k : nat) (L tmp : matrix R) (dots : nat)
  : matrix R * nat :=
  match k with
  | O => (tmp, dots)
  | S k' => power_loop k' L (mdot tmp L) (S dots)
  end.

(** The base matrix [sp.identity(L.shape[0]) - self.beta * L]. *)
Definition base_matrix (beta : R) (L : matrix R) : matrix R :=
  msub (identity (length L)) (mscale beta L).

(** [compute_pe_from_edge_weight] with the number of matrix products it
    made; [range(self.p - 1)] is empty for [p <= 1]. *)
Definition compute_pe_from_edge_weight_counted (p : Z) (beta : R)
    (normalization : option string)
    (ei : list (nat * nat)) (ew : option (list R)) (n : nat)
  : result (tensor R * nat) :=
  try L0 := laplacian_matrix ei ew normalization n in
  let L := base_matrix beta L0 in
  let out := power_loop (Z.to_nat (p - 1)) L L 0 in
  Ok (T2 out.1, out.2).

Definition compute_pe_from_edge_weight (p : Z) (beta : R)
    (normalization : option string)
    (ei : list (nat * nat)) (ew : option (list R)) (n : nat)
  : result (tensor R) :=
  try out := compute_pe_from_edge_weight_counted p beta normalization ei ew n in
  Ok out.1.

Definition compute_pe (p : Z) (beta : R) (use_attr : bool)
    (normalization : option string) (num_edge_features : edge_features)
    (g : graph) : result (tensor R) :=
  compute_pe_channels (compute_pe_from_edge_weight p beta normalization)
                      use_attr num_edge_features g.

(** [PStepRWEncoding(savepath, p, beta, use_edge_attr, normalization,
    zero_diag, num_edge_features)] *)
Definition make (savepath : option string) (p : Z) (beta : R) (use_attr : bool)
    (normalization : option string) (zero_diag : bool)
    (num_edge_features : edge_features) : PositionEncoding :=
  Encoder savepath zero_diag (Some use_attr)
          (compute_pe p beta use_attr normalization num_edge_features).

End Defs.
End PStepRWEncoding.

Module AdjEncoding.
Section Defs.
Context {R : Type} `{FloatOps R}.

(** torch_geometric [to_dense_adj(edge_index)] without [batch] and
    [max_num_nodes]: a batch of one graph, shape [[1, m, m]] with
    [m = max(edge_index) + 1], entry [(r, c)] summing a one per edge
    [(r, c)].  (Releases before 2.0 reject an empty [edge_index] and store
    a one for a repeated edge.) *)
Definition to_dense_adj (ei : list (nat * nat)) : tensor R :=
  let m := infer_num_nodes ei in
  T3 [accumulate (zeros m m) ei (replicate (length ei) f1)].

Definition compute_pe (g : graph) : result (tensor R) :=
  Ok (to_dense_adj (edge_index g)).

(** [AdjEncoding(savepath, normalization, zero_diag)]; [normalization] is
    stored and never read. *)
Definition make (savepath : option string) (normalization : option string)
    (zero_diag : bool) : PositionEncoding :=
  Encoder savepath zero_diag None compute_pe.

End Defs.
End AdjEncoding.

Module FullEncoding.
Section Defs.
Context {R : Type} `{FloatOps R}.

(** [torch.ones((graph.num_nodes, graph.num_nodes))] *)
Definition compute_pe (g : graph) : result (tensor R) :=
  Ok (T2 (ones (num_nodes g) (num_nodes g))).

Definition make (savepath : option string) (zero_diag : bool)
  : PositionEncoding :=
  Encoder savepath zero_diag None compute_pe.

End Defs.
End FullEncoding.

(** Python's [l[start:stop]]: a negative bound counts from the end and every
    bound is clamped to the length. *)
Definition slice_bound (n : nat) (i : Z) : nat :=
  if decide (i < 0)%Z then Z.to_nat (Z.max 0 (i + Z.of_nat n))
  else Nat.min (Z.to_nat i) n.

Definition py_slice {A} (start stop : Z) (l : list A) : list A :=
  let a := slice_bound (length l) start in
  let b := slice_bound (length l) stop in
  take (b - a) (drop a l).

Module LapEncoding.
Section Defs.
Context {R : Type} `{FloatOps R}.

(** [np.linalg.eig] returns the eigenvalues and the matrix whose columns are
    the eigenvectors, both complex in general; [E] is the type of their
    entries, [argsort] is [EigVal.argsort()] and [real] is [np.real]. *)
Context {E : Type}.
Variable eig : matrix R -> list E * matrix E.
Variable argsort : list E -> list nat.
Variable real : E -> R.

(** Lines 165-168 when [edge_weight] is the integer tensor [edge_attr]:
    what [get_laplacian], [to_scipy_sparse_matrix(...).tocsc()] and
    [toarray()] make of it.  The libraries work on the integers as they are,
    keeping the integer type where they can and raising where they cannot
    (the in-place [deg.pow_(-0.5)] of the ["sym"] normalization); none of
    this is the module's own code and it is left as a parameter. *)
Variable laplacian_matrix_long :
  list (nat * nat) -> int_tensor -> option string -> nat -> result (matrix R).

(** Line 164: [graph.edge_attr if self.use_edge_attr else None], passed on
    as it is. *)
Definition edge_weight_of (use_attr : bool) (g : graph) : option int_tensor :=
  if use_attr then edge_attr g else None.

(** Lines 165-168: the Laplacian, as the dense matrix handed to
    [np.linalg.eig]. *)
Definition laplacian_of (use_attr : bool) (normalization : option string)
    (g : graph) : result (matrix R) :=
  match edge_weight_of use_attr g with
  | None => laplacian_matrix (edge_index g) None normalization (num_nodes g)
  | Some edge_attr =>
      laplacian_matrix_long (edge_index g) edge_attr normalization (num_nodes g)
  end.

(** [EigVec[:, idx]] *)
Definition take_columns {A} (m : matrix A) (idx : list nat)
  : result (matrix A) :=
  mapR (fun row : list A =>
          mapR (fun j => match row !! j with
                         | Some x => Ok x
                         | None => Raise IndexError
                         end) idx)
       m.

Definition compute_pe (dim : Z) (use_attr : bool)
    (normalization : option string) (g : graph) : result (tensor R) :=
  try L := laplacian_of use_attr normalization g in
  let EigVal := (eig L).1 in
  let EigVec := (eig L).2 in
  let idx := argsort EigVal in
  try sorted := take_columns EigVec idx in
  let EigVec' := (fun row : list E => real <$> row) <$> sorted in
  Ok (T2 ((fun row : list R => py_slice 1 (dim + 1) row) <$> EigVec')).

(** The attributes [LapEncoding.apply_to] assigns on the dataset. *)
Record lap_fields : Type := LapFields {
  lap_pe_list : list (tensor R);
  lap_pe_dim : Z
}.

Fixpoint apply_loop (dim : Z) (use_attr : bool)
    (normalization : option string) (gs : list graph)
    (acc : list (tensor R)) : result unit * list (tensor R) :=
  match gs with
  | [] => (Ok tt, acc)
  | g :: gs' =>
      match compute_pe dim use_attr normalization g with
      | Ok pe => apply_loop dim use_attr normalization gs' (acc ++ [pe])
      | Raise e => (Raise e, acc)
      end
  end.

Definition apply_to (dim : Z) (use_attr : bool)
    (normalization : option string) (dataset : list graph)
  : result unit * lap_fields :=
  let out := apply_loop dim use_attr normalization dataset [] in
  (out.1, LapFields out.2 dim).

End Defs.
End LapEncoding.

(** What the encoding needs of [np.linalg.eig] and [argsort] at the
    Laplacian [L] of a graph with [n] nodes: [n] eigenvalues, an [n x n]
    matrix of eigenvectors, and an order made of [n] indices below [n]. *)
Definition eig_contract {R E : Type}
    (eig : matrix R -> list E * matrix E) (argsort : list E -> list nat)
    (L : matrix R) (n : nat) : Prop :=
  length (eig L).1 = n
  /\ has_shape2 (eig L).2 n n
  /\ length (argsort (eig L).1) = n
  /\ Forall (fun j => j < n) (argsort (eig L).1).

(** ** Exact rational arithmetic, for running the encoders on examples *)

(** [x ** -0.5] with the infinite value at 0 masked to 0; exact on the
    squares of rationals, which is all the examples apply it to. *)
Definition Qinvsqrt (x : Q) : Q :=
  if decide (0 < Qnum x)%Z
  then Qred (Z.sqrt (Zpos (Qden x)) # Z.to_pos (Z.sqrt (Qnum x)))
  else 0%Q.

#[export] Instance Q_ops : FloatOps Q := {|
  f0 := 0%Q;
  f1 := 1%Q;
  fadd x y := Qred (x + y);
  fsub x y := Qred (x - y);
  fmul x y := Qred (x * y);
  fneg x := Qred (- x);
  finv x := Qred (/ x);
  finvsqrt := Qinvsqrt;
  fofZ := inject_Z
|}.

(** A stand-in for [np.linalg.eig], exact on diagonal matrices: the
    eigenvalues are the diagonal and the eigenvectors the unit vectors. *)
Definition diag_eig (m : matrix Q) : list Q * matrix Q :=
  (imap (fun i row => default 0%Q (row !! i)) m, identity (length m)).

(** [argsort] by insertion; stable, as numpy's is on short inputs. *)
Fixpoint insert_sorted (key : nat -> Q) (i : nat) (l : list nat) : list nat :=
  match l with
  | [] => [i]
  | j :: l' =>
      if Qle_bool (key j) (key i) then j :: insert_sorted key i l'
      else i :: j :: l'
  end.

Definition Q_argsort (v : list Q) : list nat :=
  foldl (fun acc i => insert_sorted (fun j => default 0%Q (v !! j)) i acc)
        [] (seq 0 (length v)).

(** A stand-in for the Laplacian on integer weights in the examples, none
    of which passes edge attributes to [LapEncoding]: it is never called. *)
Definition long_unused (ei : list (nat * nat)) (edge_attr : int_tensor)
    (normalization : option string) (n : nat) : result (list (list Q)) :=
  Raise RuntimeError.

(** Pickling, for the examples: the file holds the list itself. *)
Definition id_dump (l : list (tensor Q)) : list (tensor Q) := l.

Definition id_load (b : list (tensor Q))
  : result (option (list (tensor Q))) := Ok (Some b).

(** Two disks for the examples: one where every cache path can be created,
    one whose cache directory does not exist. *)
Definition open_ok (path : string) : result unit := Ok tt.

Definition open_fails (path : string) : result unit := Raise OSError.

(** The graphs used in the examples: the 3-node path of the specification,
    a 2-node graph with a self-loop, a 3-node graph whose last node is
    isolated, and two isolated nodes. *)
Definition path3 : graph :=
  Graph 3 [(0, 1); (1, 0); (1, 2); (2, 1)] (Some (I2 2 [[0; 1]; [0; 1]; [1; 0]; [1; 0]]%Z)).

Definition loop2 : graph := Graph 2 [(0, 1); (1, 0); (1, 1)] None.

Definition tail3 : graph := Graph 3 [(0, 1); (1, 0)] None.

Definition isolated2 : graph := Graph 2 [] None.

(** Worlds and encoders of the examples: an encoder that masks the
    all-ones encoding, a disk with nothing on it, and a disk whose cache file
    was written by some other configuration. *)
Definition full_masking : PositionEncoding (R := Q) :=
  FullEncoding.make (Some "pe") true.

Definition adj_masking : PositionEncoding (R := Q) :=
  AdjEncoding.make (Some "pe") None true.

Definition empty_world : world (R := Q) (blob := list (tensor Q)) :=
  World ∅ None 0.

Definition cached_blob : list (tensor Q) :=
  [T2 [[5; 5]; [5; 5]]; T2 [[7]]]%Q.

Definition cached_world : world (R := Q) (blob := list (tensor Q)) :=
  World {[ "pe.train" := cached_blob ]} None 0.

(** The world a first [apply_to] of [full_masking] on two 2-node graphs
    leaves behind. *)
Definition after_first_call : world (R := Q) (blob := list (tensor Q)) :=
  World {[ "pe.train" := [T2 [[1; 1]; [1; 1]]; T2 [[1; 1]; [1; 1]]]%Q ]}
        (Some [T2 [[0; 1]; [1; 0]]; T2 [[0; 1]; [1; 0]]]%Q) 2.

(** A disk whose cache file holds the unmasked adjacency encoding of
    [loop2]. *)
Definition adj_cached_world : world (R := Q) (blob := list (tensor Q)) :=
  World {[ "pe.train" := [T3 [[[0; 1]; [1; 1]]]]%Q ]} None 0.

(** ** What [edge_attr_one_hot] expects of the codes *)

(** The entries of [edge_attr], the number of its rows (edges) and of its
    columns (a 1-D tensor is one column). *)
Definition codes (ea : int_tensor) : list Z :=
  match ea with
  | I1 v => v
  | I2 _ rows => concat rows
  end.

Definition num_edges (ea : int_tensor) : nat :=
  match ea with
  | I1 v => length v
  | I2 _ rows => length rows
  end.

Definition num_columns (ea : int_tensor) : nat :=
  match ea with
  | I1 _ => 1
  | I2 ncols _ => ncols
  end.

(** The precondition of each mode.  With an integer [n] every code lies in
    [[1, n]]; with a sequence there is one cardinality per column and the
    codes of a column lie in [[0, cardinality)].  Cardinalities are positive
    and the sequence is not empty. *)
Definition codes_ok (ea : int_tensor) (nef : edge_features) : Prop :=
  match nef with
  | NefInt n =>
      (0 < n)%Z /\ int_tensor_wf ea
      /\ Forall (fun x => 1 <= x <= n)%Z (codes ea)
  | NefSeq cards =>
      match ea with
      | I1 _ => False
      | I2 ncols rows =>
          cards <> [] /\ length cards = ncols
          /\ Forall (fun card => 0 < card)%Z cards
          /\ Forall (fun row => Forall2 (fun x card => 0 <= x < card)%Z row cards)
                    rows
      end
  end.

(** A one-hot row: [w] entries that sum to [s]. *)
Definition coded_row (w : nat) (s : Z) (row : list Z) : Prop :=
  length row = w /\ sumZ row = s.

(** The sum of each output row, a row being all that belongs to one edge. *)
Definition row_sums (t : one_hot_tensor Z) : list Z :=
  match t with
  | OH2 w => sumZ <$> wide_rows w
  | OH3 _ _ t => (fun m : list (list Z) => sumZ (concat m)) <$> t
  end.

(** [row] is the indicator of class [c] among [w] classes: [w] entries, a
    1 at index [c] and a 0 at every other index. *)
Definition indicator (w : nat) (c : Z) (row : list Z) : Prop :=
  length row = w
  /\ forall k, k < w ->
       row !! k = Some (if decide (Z.of_nat k = c) then 1 else 0)%Z.

(** Which class the output marks for each code.  With an integer [n] the
    row of an edge (on a 2-D [edge_attr], the row of each of its features)
    is the indicator of [code - 1] among [n] classes.  With a sequence the
    row of an edge is as wide as the cardinalities add up to, and the block
    of feature [f], which starts where the cardinalities before it add up
    to, is the indicator of the code of that feature itself. *)
Definition marks_codes (ea : int_tensor) (nef : edge_features)
    (t : one_hot_tensor Z) : Prop :=
  match nef, ea, t with
  | NefInt n, I1 v, OH2 w =>
      width w = Z.to_nat n
      /\ Forall2 (fun x row => indicator (Z.to_nat n) (x - 1) row)
                 v (wide_rows w)
  | NefInt n, I2 ncols rows, OH3 nfeat classes t3 =>
      nfeat = ncols /\ classes = Z.to_nat n
      /\ Forall2 (Forall2 (fun x blk => indicator (Z.to_nat n) (x - 1) blk))
                 rows t3
  | NefSeq cards, I2 ncols rows, OH2 w =>
      Z.of_nat (width w) = sumZ cards
      /\ Forall2
           (fun row out =>
              length out = width w
              /\ forall f card x k,
                   cards !! f = Some card -> row !! f = Some x ->
                   k < Z.to_nat card ->
                   out !! (Z.to_nat (sumZ (take f cards)) + k)
                   = Some (if decide (Z.of_nat k = x) then 1 else 0)%Z)
           rows (wide_rows w)
  | _, _, _ => False
  end.

(** ** Well-formed inputs *)

(** The normalization modes [get_laplacian] accepts. *)
Definition valid_normalization (normalization : option string) : Prop :=
  normalization = None \/ normalization = Some "sym"
  \/ normalization = Some "rw".

(** Every endpoint of an edge is a node. *)
Definition edges_in_range (ei : list (nat * nat)) (n : nat) : Prop :=
  Forall (fun e => e.1 < n /\ e.2 < n) ei.

(** One weight per edge, when weights are given. *)
Definition weights_fit {R} (ew : option (list R)) (ei : list (nat * nat)) : Prop :=
  match ew with
  | None => True
  | Some w => length w = length ei
  end.

(** ** Multi-channel encodings, as the specification words them *)

(** [t] holds, channel by channel, the encoding built from the matching
    one-hot column of the edge attributes used as edge weights. *)
Definition channel_encodings {R} `{FloatOps R}
    (from_edge_weight :
       list (nat * nat) -> option (list R) -> nat -> result (tensor R))
    (g : graph) (num_edge_features : edge_features) (t : list (matrix R))
  : Prop :=
  exists edge_attr_list,
    edge_attr_one_hot (edge_attr g) num_edge_features = Ok edge_attr_list
    /\ forall i, i < length t ->
         exists w m,
           weight_column edge_attr_list i = Ok w
           /\ from_edge_weight (edge_index g) (Some w) (num_nodes g) = Ok (T2 m)
           /\ t !! i = Some m.

(** A stand-in for [scipy.sparse.linalg.expm] in the examples: the
    exponential series cut after its linear term, [I + M]. *)
Definition expm_order1 (m : matrix Q) : matrix Q :=
  msub (identity (length m)) (mscale (fneg f1) m).

(** A triangle whose edges carry two categorical features, the first among
    4 classes and the second among 6. *)
Definition triangle : graph :=
  Graph 3 [(0, 1); (1, 0); (1, 2); (2, 1); (0, 2); (2, 0)]
        (Some (I2 2 [[0; 5]; [0; 5]; [3; 0]; [3; 0]; [1; 2]; [1; 2]]%Z)).

(** ** Matrix powers, as the specification words them *)

Section Power.
Context {R : Type} `{FloatOps R}.

(** [M] raised to the power [n + 1] by [n] successive multiplications on the
    right: [M], [M.M], [(M.M).M], ... *)
Fixpoint power_succ (M : matrix R) (n : nat) : matrix R :=
  match n with
  | O => M
  | S n' => mdot (power_succ M n') M
  end.

End Power.

(** ** Traces of the [apply_to] loop *)

(** [runR f l]: what [f] returned on the elements of [l] before its first
    exception, and that exception if there was one. *)
Fixpoint runR {A B} (f : A -> result B) (l : list A) : list B * option exn :=
  match l with
  | [] => ([], None)
  | a :: l' =>
      match f a with
      | Ok b => let r := runR f l' in (b :: r.1, r.2)
      | Raise e => ([], Some e)
      end
  end.

Definition outcome {A} (a : A) (e : option exn) : result A :=
  match e with
  | None => Ok a
  | Some e => Raise e
  end.

Section Steps.
Context {R : Type} `{FloatOps R}.

(** One round of the loop on a cache miss: the computed encoding, kept for
    the cache, and its masked copy, appended to [pe_list]. *)
Definition miss_step (self : PositionEncoding) (g : graph)
  : result (tensor R * tensor R) :=
  try pe := compute_pe self g in
  try masked := mask self pe in
  Ok (pe, masked).

(** One round on a cache hit, for the graph at index [i]. *)
Definition hit_step (self : PositionEncoding) (saved : list (tensor R))
    (i : nat) : result (tensor R) :=
  try pe := getitem saved i in
  mask self pe.

End Steps.

(** ** Further configurations for the examples *)

(** The encoder the experiment builds when no encoding is asked for and
    [--zero-diag] is set, [FullEncoding(None, args.zero_diag)], and the
    all-ones encoder of [full_masking] with [zero_diag] unset. *)
Definition full_nocache : PositionEncoding (R := Q) :=
  FullEncoding.make None true.

Definition full_unmasked : PositionEncoding (R := Q) :=
  FullEncoding.make (Some "pe") false.

(** The world a first [apply_to] of [full_unmasked] on two 2-node graphs
    leaves behind. *)
Definition after_unmasked_call : world (R := Q) (blob := list (tensor Q)) :=
  World {[ "pe.train" := [T2 [[1; 1]; [1; 1]]; T2 [[1; 1]; [1; 1]]]%Q ]}
        (Some [T2 [[1; 1]; [1; 1]]; T2 [[1; 1]; [1; 1]]]%Q) 2.

(** The encoders of the module, as their constructors build them. *)
Inductive module_encoder {R : Type} `{FloatOps R}
    (expm : matrix R -> matrix R) : PositionEncoding -> Prop :=
| diffusion_encoder sp beta use_attr normalization zd nef :
    module_encoder expm
      (DiffusionEncoding.make expm sp beta use_attr normalization zd nef)
| pstep_encoder sp p beta use_attr normalization zd nef :
    module_encoder expm
      (PStepRWEncoding.make sp p beta use_attr normalization zd nef)
| adj_encoder sp normalization zd :
    module_encoder expm (AdjEncoding.make sp normalization zd)
| full_encoder sp zd :
    module_encoder expm (FullEncoding.make sp zd).

(** Two tensors of the same rank whose rows have, one by one, the same
    lengths. *)
Definition same_shape {R : Type} (pe pe' : tensor R) : Prop :=
  match pe, pe' with
  | T2 m, T2 m' => length <$> m = length <$> m'
  | T3 t, T3 t' =>
      (fun m : list (list R) => length <$> m) <$> t
      = (fun m : list (list R) => length <$> m) <$> t'
  | _, _ => False
  end.

(** A P-step encoder whose normalization [get_laplacian] rejects. *)
Definition pstep_bad_normalization : PositionEncoding (R := Q) :=
  PStepRWEncoding.make (Some "pe") 2 (1 # 2) false (Some "max") true (NefInt 1).


(** Pickling for the examples where a file can hold garbage: [None] is
    a file that does not unpickle. *)
Definition opt_dump (l : list (tensor Q)) : option (list (tensor Q)) := Some l.

Definition opt_load (b : option (list (tensor Q)))
  : result (option (list (tensor Q))) :=
  match b with
  | Some l => Ok (Some l)
  | None => Raise UnpicklingError
  end.

Definition garbage_world : world (R := Q) (blob := option (list (tensor Q))) :=
  World {[ "pe.train" := None ]} (Some [T2 [[9]]]%Q) 4.

(** What sequence mode makes of one row of [edge_attr]: the indicator rows
    of its codes, one block per cardinality, side by side. *)
Definition expand_row (cards : list Z) (row : list Z) : list Z :=
  concat (zip_with (fun card x => one_hot_row (Z.to_nat card) x) cards row).

(** ** The experiment script *)

(** Python's [l[:stop]] and [l[start:]]: the missing bound is the end it
    stands at. *)
Definition py_slice_to {A} (stop : Z) (l : list A) : list A :=
  py_slice 0 stop l.

Definition py_slice_from {A} (start : Z) (l : list A) : list A :=
  py_slice start (Z.of_nat (length l)) l.

(** Lines 298-299 and 353 of [main]: the encodings [GCKNEncoding.apply_to]
    returned for the training graphs followed by the validation and test
    graphs are dealt to the three datasets by position.  The result is the
    triple of [train_dset.lap_pe_list], [val_dset.lap_pe_list] and
    [test_dset.lap_pe_list]. *)
Definition split_pos_enc_values {A} (gckn_pos_enc_values : list A)
    (len_train len_val : nat) : list A * list A * list A :=
  (py_slice_to (Z.of_nat len_train) gckn_pos_enc_values,
   py_slice (Z.of_nat len_train) (Z.of_nat len_train + Z.of_nat len_val)
            gckn_pos_enc_values,
   py_slice_from (Z.of_nat len_train + Z.of_nat len_val) gckn_pos_enc_values).

Section BestEpoch.
Context {W : Type}.

(** The three variables the training loop of [main] keeps (lines 357-377);
    [best_weights] is [None] while the name was never assigned. *)
Record selection : Type := Selection {
  best_val_score : Q;
  best_epoch : nat;
  best_weights : option W
}.

(** Lines 374-377, [val_score] and [weights] being the validation score of
    the epoch and [copy.deepcopy(model.state_dict())] after it.  Scores are
    compared as rationals; a score that is not a number is not modelled. *)
Definition select_step (epoch : nat) (val_score : Q) (weights : W)
    (s : selection) : selection :=
  if Qlt_le_dec (best_val_score s) val_score
  then Selection val_score epoch (Some weights)
  else s.

(** [for epoch in range(args.epochs)], the epochs given by what they
    produce. *)
Fixpoint select_loop (epoch : nat) (epochs : list (Q * W)) (s : selection)
  : selection :=
  match epochs with
  | [] => s
  | (val_score, weights) :: epochs' =>
      select_loop (S epoch) epochs' (select_step epoch val_score weights s)
  end.

(** [best_val_score = 0], [best_epoch = 0] and the loop. *)
Definition select_best (epochs : list (Q * W)) : selection :=
  select_loop 0 epochs (Selection 0 0 None).

End BestEpoch.

Arguments selection W : clear implicits.

(** The 3-node path with one categorical code per edge, 1 on the edge 0-1
    and 2 on the edge 1-2. *)
Definition path3_coded : graph :=
  Graph 3 [(0, 1); (1, 0); (1, 2); (2, 1)] (Some (I1 [1; 1; 2; 2]%Z)).

(** Two runs agree when their results and the fields of their worlds do. *)
Ltac world_eq :=
  repeat match goal with
         | |- (_, _) = (_, _) => f_equal
         | |- World _ _ _ = World _ _ _ => f_equal
         | |- Some _ = Some _ => f_equal
         end;
  try done; try lia.

(** * Properties *)

(** ** Results and traces *)

Lemma mapR_length {A B} (f : A -> result B) l bs :
  mapR f l = Ok bs -> length bs = length l.
Proof.
  revert bs; induction l as [|a l IH]; intros bs; simpl.
  - by intros [= <-].
  - destruct (f a) as [b|e]; simpl; [|done].
    destruct (mapR f l) as [bs'|e]; simpl; [|done].
    intros [= <-]; simpl; f_equal; by apply IH.
Qed.

Lemma mapR_lookup {A B} (f : A -> result B) l bs i a :
  mapR f l = Ok bs -> l !! i = Some a ->
  exists b, bs !! i = Some b /\ f a = Ok b.
Proof.
  revert bs i; induction l as [|a' l IH]; intros bs i; simpl; [done|].
  destruct (f a') as [b|e] eqn:Hf; simpl; [|done].
  destruct (mapR f l) as [bs'|e]; simpl; [|done].
  intros [= <-]; destruct i as [|i]; simpl.
  - intros [= ->]; eauto.
  - intros Hi; by apply IH.
Qed.

Lemma mapR_ext {A B} (f g : A -> result B) l :
  (forall a, a ∈ l -> f a = g a) -> mapR f l = mapR g l.
Proof.
  induction l as [|a l IH]; intros Hfg; simpl; [done|].
  rewrite Hfg by left. rewrite IH; [done|].
  intros; apply Hfg; by right.
Qed.

Lemma mapR_fmap {A B C} (f : B -> result C) (g : A -> B) l :
  mapR f (g <$> l) = mapR (fun a => f (g a)) l.
Proof. induction l as [|a l IH]; csimpl; [done|]. by rewrite IH. Qed.

Lemma mapR_all_ok {A B} (f : A -> result B) (g : A -> B) l :
  (forall a, a ∈ l -> f a = Ok (g a)) -> mapR f l = Ok (g <$> l).
Proof.
  induction l as [|a l IH]; intros Hf; csimpl; [done|].
  rewrite Hf by left; csimpl. rewrite IH; [done|].
  intros; apply Hf; by right.
Qed.

Lemma runR_mapR {A B} (f : A -> result B) l bs :
  mapR f l = Ok bs <-> runR f l = (bs, None).
Proof.
  revert bs; induction l as [|a l IH]; intros bs; simpl.
  - split; by intros [= <-].
  - destruct (f a) as [b|e]; simpl; [|split; done].
    destruct (mapR f l) as [bs'|e] eqn:Hm; simpl.
    + pose proof (proj1 (IH bs') eq_refl) as ->; simpl.
      split; by intros [= <-].
    + split; [done|].
      destruct (runR f l) as [bs' o] eqn:Hr; simpl.
      intros [= <- ->]. by pose proof (proj2 (IH bs') eq_refl).
Qed.

(** What was returned before the exception is the run on a prefix. *)
Lemma runR_prefix {A B} (f : A -> result B) l :
  mapR f (take (length (runR f l).1) l) = Ok (runR f l).1
  /\ length (runR f l).1 <= length l.
Proof.
  induction l as [|a l [IH Hlen]]; simpl; [done|].
  destruct (f a) as [b|e] eqn:Hf; simpl; [|split; [done|lia]].
  rewrite Hf; simpl. rewrite IH; simpl. split; [done|lia].
Qed.

Lemma runR_length_ok {A B} (f : A -> result B) l bs :
  runR f l = (bs, None) -> length bs = length l.
Proof. intros Hr; apply runR_mapR in Hr. by eapply mapR_length. Qed.

(** Reading the cache index by index is reading its prefix. *)
Lemma mapR_getitem_take {A B} (f : A -> result B) (saved : list A) n i :
  i + n <= length saved ->
  mapR (fun j => match saved !! j with
                 | Some a => f a
                 | None => Raise IndexError
                 end) (seq i n)
  = mapR f (take n (drop i saved)).
Proof.
  revert i saved; induction n as [|n IH]; intros i saved Hn; simpl; [done|].
  destruct (saved !! i) as [a|] eqn:Hi.
  - rewrite (drop_S _ _ _ Hi); simpl.
    rewrite IH by lia. done.
  - apply lookup_ge_None in Hi; lia.
Qed.

(** ** The caching protocol *)

Section ProtocolFacts.
Context {R : Type} `{FloatOps R} {blob : Type}.
Variable pickle_dump : list (tensor R) -> blob.
Variable pickle_load : blob -> result (option (list (tensor R))).
Variable open_wb : string -> result unit.

#[local] Abbreviation run := (apply_to pickle_dump pickle_load open_wb).

(** The loop on a cache miss: it never touches the files, appends the
    masked encodings to [pe_list], returns the unmasked ones, and has
    called [compute_pe] once per graph reached. *)
Lemma apply_loop_miss (self : PositionEncoding) gs i all_pe w l_pe :
  pe_list w = Some l_pe ->
  apply_loop (blob := blob) self None i gs all_pe w =
  let r := runR (miss_step self) gs in
  (outcome (all_pe ++ r.1.*1) r.2,
   World (files w) (Some (l_pe ++ r.1.*2))
         (compute_calls w + length r.1 + match r.2 with Some _ => 1 | None => 0 end)).
Proof.
  revert i all_pe w l_pe.
  induction gs as [|g gs IH]; intros i all_pe w l_pe Hpe; simpl.
  - destruct w as [fs pl n]; simpl in *; subst.
    unfold ret; simpl. rewrite !app_nil_r. world_eq.
  - pose proof (IH (S i)) as IH'; clear IH.
    destruct (runR (miss_step self) gs) as [ps o]; simpl in IH'.
    unfold bind at 1 2, call_compute_pe, miss_step; simpl.
    destruct (compute_pe self g) as [pe|e]; simpl.
    + unfold bind at 1, lift; simpl.
      destruct (mask self pe) as [m|e]; simpl.
      * unfold bind at 1, append_pe; simpl. rewrite Hpe.
        rewrite (IH' _ _ (l_pe ++ [m])) by done; simpl.
        rewrite <- !app_assoc; simpl. world_eq.
      * rewrite app_nil_r, Hpe. world_eq.
    + rewrite app_nil_r, Hpe. world_eq.
Qed.

(** The loop on a cache hit: neither the files nor the call counter
    change, and [pe_list] grows by the masked cache entries. *)
Lemma apply_loop_hit (self : PositionEncoding) saved gs i all_pe w l_pe :
  pe_list w = Some l_pe ->
  apply_loop (blob := blob) self (Some saved) i gs all_pe w =
  let r := runR (hit_step self saved) (seq i (length gs)) in
  (outcome all_pe r.2,
   World (files w) (Some (l_pe ++ r.1)) (compute_calls w)).
Proof.
  revert i all_pe w l_pe.
  induction gs as [|g gs IH]; intros i all_pe w l_pe Hpe; simpl.
  - destruct w as [fs pl n]; simpl in *; subst.
    unfold ret; simpl. by rewrite app_nil_r.
  - pose proof (IH (S i)) as IH'; clear IH.
    destruct (runR (hit_step self saved) (seq (S i) (length gs)))
      as [ps o]; simpl in IH'.
    unfold bind at 1 2, lift, hit_step; simpl.
    destruct (getitem saved i) as [pe|e]; simpl.
    + unfold bind at 1; simpl.
      destruct (mask self pe) as [m|e]; simpl.
      * unfold bind at 1, append_pe; simpl. rewrite Hpe.
        rewrite (IH' _ _ (l_pe ++ [m])) by done; simpl.
        by rewrite <- !app_assoc.
      * destruct w as [fs pl n]; simpl in *; subst. by rewrite app_nil_r.
    + destruct w as [fs pl n]; simpl in *; subst. by rewrite app_nil_r.
Qed.

(** [apply_to] when the cache file is absent. *)
Lemma apply_to_miss_run (self : PositionEncoding) ds split w sp :
  savepath self = Some sp ->
  files w !! cache_path sp split = None ->
  run self ds split w =
  let r := runR (miss_step self) ds in
  match r.2 with
  | None =>
      match open_wb (cache_path sp split) with
      | Ok _ =>
          (Ok tt,
           World (<[cache_path sp split := pickle_dump r.1.*1]> (files w))
                 (Some r.1.*2) (compute_calls w + length ds))
      | Raise e =>
          (Raise e,
           World (files w) (Some r.1.*2) (compute_calls w + length ds))
      end
  | Some e =>
      (Raise e, World (files w) (Some r.1.*2) (compute_calls w + length r.1 + 1))
  end.
Proof.
  intros Hsp Hfile. unfold apply_to.
  unfold bind at 1, load; simpl. rewrite Hsp, Hfile.
  unfold bind at 1, reset_pe_list; simpl.
  unfold bind at 1.
  rewrite (apply_loop_miss self ds 0 [] _ []) by done; simpl.
  destruct (runR (miss_step self) ds) as [ps o] eqn:Hr; simpl.
  destruct o as [e|]; simpl; [done|].
  unfold save; simpl. rewrite Hsp, Hfile.
  rewrite (runR_length_ok _ _ _ Hr).
  destruct (open_wb (cache_path sp split)) as [[]|e]; world_eq.
Qed.

(** [apply_to] when the cache file is there: the file is not written, and
    what it holds decides between the hit loop, the miss loop (a pickled
    [None]) and the exception of [pickle.load]. *)
Lemma apply_to_hit_run (self : PositionEncoding) ds split w sp X :
  savepath self = Some sp ->
  files w !! cache_path sp split = Some X ->
  run self ds split w =
  match pickle_load X with
  | Raise e => (Raise e, w)
  | Ok None =>
      let r := runR (miss_step self) ds in
      (outcome tt r.2,
       World (files w) (Some r.1.*2)
             (compute_calls w + length r.1
              + match r.2 with Some _ => 1 | None => 0 end))
  | Ok (Some saved) =>
      let r := runR (hit_step self saved) (seq 0 (length ds)) in
      (outcome tt r.2, World (files w) (Some r.1) (compute_calls w))
  end.
Proof.
  intros Hsp Hfile. unfold apply_to.
  unfold bind at 1, load; simpl. rewrite Hsp, Hfile.
  destruct (pickle_load X) as [[saved|]|e]; [| |done].
  - unfold bind at 1, reset_pe_list; simpl.
    unfold bind at 1.
    rewrite (apply_loop_hit self saved ds 0 [] _ []) by done; simpl.
    destruct (runR (hit_step self saved) (seq 0 (length ds))) as [ps o]; simpl.
    destruct o as [e|]; simpl; [done|].
    unfold save; simpl. by rewrite Hsp, Hfile.
  - unfold bind at 1, reset_pe_list; simpl.
    unfold bind at 1.
    rewrite (apply_loop_miss self ds 0 [] _ []) by done; simpl.
    destruct (runR (miss_step self) ds) as [ps o]; simpl.
    destruct o as [e|]; simpl; [done|].
    unfold save; simpl. by rewrite Hsp, Hfile.
Qed.

(** Masking a prefix of the cache is what the hit loop does. *)
Lemma hit_steps_take (self : PositionEncoding) (saved : list (tensor R)) n :
  n <= length saved ->
  mapR (hit_step self saved) (seq 0 n) = mapR (mask self) (take n saved).
Proof.
  intros Hn. rewrite <- (mapR_getitem_take (mask self) saved n 0) by lia.
  apply mapR_ext; intros j _. unfold hit_step, getitem.
  by destruct (saved !! j).
Qed.

(** A hit loop that runs to the end has found an entry for every graph. *)
Lemma hit_steps_ok_length (self : PositionEncoding) (saved : list (tensor R)) n ms :
  mapR (hit_step self saved) (seq 0 n) = Ok ms -> n <= length saved.
Proof.
  intros Hm. destruct n as [|n]; [lia|].
  destruct (mapR_lookup _ _ _ n n Hm) as (b & _ & Hb).
  { apply lookup_seq; lia. }
  unfold hit_step, getitem in Hb.
  destruct (saved !! n) eqn:Hn; [|done].
  apply lookup_lt_Some in Hn; lia.
Qed.

(** The miss loop succeeds exactly when every encoding can be computed and
    masked. *)
Lemma miss_steps_split (self : PositionEncoding) gs ps :
  mapR (miss_step self) gs = Ok ps ->
  mapR (compute_pe self) gs = Ok ps.*1 /\ mapR (mask self) ps.*1 = Ok ps.*2.
Proof.
  revert ps; induction gs as [|g gs IH]; intros ps; simpl.
  - by intros [= <-].
  - unfold miss_step at 1.
    destruct (compute_pe self g) as [pe|e]; simpl; [|done].
    destruct (mask self pe) as [m|e] eqn:Hm; simpl; [|done].
    destruct (mapR (miss_step self) gs) as [ps'|e]; simpl; [|done].
    intros [= <-]; csimpl.
    destruct (IH ps' eq_refl) as [-> Hmask]; simpl.
    by rewrite Hm, Hmask.
Qed.

Lemma miss_steps_join (self : PositionEncoding) gs computed masked :
  mapR (compute_pe self) gs = Ok computed ->
  mapR (mask self) computed = Ok masked ->
  mapR (miss_step self) gs = Ok (zip computed masked).
Proof.
  revert computed masked; induction gs as [|g gs IH]; intros computed masked; simpl.
  - intros [= <-]; simpl. by intros [= <-].
  - unfold miss_step at 1.
    destruct (compute_pe self g) as [pe|e]; simpl; [|done].
    destruct (mapR (compute_pe self) gs) as [cs|e]; simpl; [|done].
    intros [= <-]; simpl.
    destruct (mask self pe) as [m|e]; simpl; [|done].
    destruct (mapR (mask self) cs) as [ms|e] eqn:Hms; simpl; [|done].
    intros [= <-]. by rewrite (IH cs ms eq_refl Hms).
Qed.

(** The zero-diagonal step reads the encoder's [zero_diag] and
    [use_edge_attr] only. *)
Lemma mask_same_config (self self' : PositionEncoding (R := R)) pe :
  zero_diag self' = zero_diag self ->
  use_edge_attr self' = use_edge_attr self ->
  mask self' pe = mask self pe.
Proof. intros Hz Hu. unfold mask, edge_attr_branch. by rewrite Hz, Hu. Qed.

(** C3. Cache no-overwrite: when the file [{savepath}.{split}] exists with
    content [X], a call of [apply_to], whatever the configuration of the
    encoder, leaves every file as it was (the cache file still holds [X]).
    When [X] is a pickled list, the call makes no call of [compute_pe]; it
    returns normally exactly when the list has an entry for every graph and
    the zero-diagonal step accepts the entries, and [pe_list] is then that
    step applied to the cached entries, in order; when it raises,
    [pe_list] holds that step applied to the cached entries of the graphs
    before the exception. *)
Theorem apply_to_keeps_existing_cache
    (self : PositionEncoding) ds split w sp X :
  savepath self = Some sp ->
  files w !! cache_path sp split = Some X ->
  let out := run self ds split w in
  files out.2 = files w
  /\ files out.2 !! cache_path sp split = Some X
  /\ forall cached,
       pickle_load X = Ok (Some cached) ->
       compute_calls out.2 = compute_calls w
       /\ (exists masked,
             pe_list out.2 = Some masked
             /\ length masked <= length ds
             /\ mapR (mask self) (take (length masked) cached) = Ok masked)
       /\ (out.1 = Ok tt <->
           length ds <= length cached /\
           exists masked,
             mapR (mask self) (take (length ds) cached) = Ok masked)
       /\ (forall masked,
             length ds <= length cached ->
             mapR (mask self) (take (length ds) cached) = Ok masked ->
             out = (Ok tt, World (files w) (Some masked) (compute_calls w))).
Proof.
  intros Hsp Hfile out. subst out.
  rewrite (apply_to_hit_run self ds split w sp X Hsp Hfile).
  destruct (pickle_load X) as [[saved|]|e] eqn:Hload; simpl.
  - destruct (runR (hit_step self saved) (seq 0 (length ds))) as [ms o] eqn:Hr.
    simpl. split; [done|]. split; [done|].
    intros cached [= <-]. split; [done|]. split; [|split; [split|]].
    + exists ms. split; [done|].
      destruct (runR_prefix (hit_step self saved) (seq 0 (length ds)))
        as [Hpre Hle].
      rewrite Hr in Hpre, Hle; simpl in Hpre, Hle.
      rewrite length_seq in Hle. split; [done|].
      rewrite take_seq, Nat.min_l in Hpre by done.
      rewrite <- hit_steps_take; [done|].
      by eapply hit_steps_ok_length.
    + intros Hok. destruct o as [e|]; [done|].
      apply runR_mapR in Hr.
      pose proof (hit_steps_ok_length _ _ _ _ Hr) as Hlen.
      split; [done|]. exists ms. by rewrite <- hit_steps_take.
    + intros (Hlen & masked & Hm).
      rewrite <- hit_steps_take in Hm by done.
      apply runR_mapR in Hm. rewrite Hm in Hr. by injection Hr as <- <-.
    + intros masked Hlen Hm.
      rewrite <- hit_steps_take in Hm by done.
      apply runR_mapR in Hm. rewrite Hm in Hr. by injection Hr as <- <-.
  - by repeat split.
  - by repeat split.
Qed.

(** C4. Cache round-trip: after a first [apply_to] that found no cache
    file and returned, a second [apply_to] on the same dataset and split by
    an encoder with the same configuration and savepath returns too, with
    the same [pe_list], and without a single call of [compute_pe]; the
    files are those the first call left. *)
Theorem apply_to_round_trip
    (self self' : PositionEncoding) ds split w0 w1 sp :
  (forall l, pickle_load (pickle_dump l) = Ok (Some l)) ->
  savepath self = Some sp ->
  savepath self' = Some sp ->
  zero_diag self' = zero_diag self ->
  use_edge_attr self' = use_edge_attr self ->
  files w0 !! cache_path sp split = None ->
  run self ds split w0 = (Ok tt, w1) ->
  exists w2,
    run self' ds split w1 = (Ok tt, w2)
    /\ pe_list w2 = pe_list w1
    /\ compute_calls w2 = compute_calls w1
    /\ files w2 = files w1.
Proof.
  intros Hrt Hsp Hsp' Hz Hu Hfile Hfirst.
  rewrite (apply_to_miss_run self ds split w0 sp Hsp Hfile) in Hfirst.
  destruct (runR (miss_step self) ds) as [ps o] eqn:Hr; simpl in Hfirst.
  destruct o as [e|]; [done|].
  destruct (open_wb (cache_path sp split)) as [[]|e]; [|done].
  injection Hfirst as <-.
  apply runR_mapR in Hr.
  destruct (miss_steps_split _ _ _ Hr) as [Hc Hm].
  pose proof (mapR_length _ _ _ Hc) as Hlen.
  rewrite (apply_to_hit_run self' ds split _ sp (pickle_dump ps.*1) Hsp')
    by (simpl; apply lookup_insert_eq).
  rewrite Hrt; simpl.
  assert (runR (hit_step self' ps.*1) (seq 0 (length ds)) = (ps.*2, None)) as ->.
  { apply runR_mapR. rewrite hit_steps_take by lia.
    rewrite <- Hlen, firstn_all.
    rewrite <- Hm. apply mapR_ext; intros pe _. by apply mask_same_config. }
  simpl. eexists; repeat split; done.
Qed.

End ProtocolFacts.

(** The round trip and the no-overwrite rule at work, with the cache file
    holding the list itself. *)
Lemma apply_to_keeps_existing_cache_witness :
  savepath full_masking = Some "pe"
  /\ files cached_world !! cache_path "pe" "train" = Some cached_blob
  /\ (let out :=
        apply_to id_dump id_load open_ok full_masking [isolated2] "train" cached_world in
      files out.2 = files cached_world
      /\ files out.2 !! cache_path "pe" "train" = Some cached_blob
      /\ forall cached,
           id_load cached_blob = Ok (Some cached) ->
           compute_calls out.2 = compute_calls cached_world
           /\ (exists masked,
                 pe_list out.2 = Some masked
                 /\ length masked <= length [isolated2]
                 /\ mapR (mask full_masking) (take (length masked) cached)
                    = Ok masked)
           /\ (out.1 = Ok tt <->
               length [isolated2] <= length cached /\
               exists masked,
                 mapR (mask full_masking) (take (length [isolated2]) cached)
                 = Ok masked)
           /\ (forall masked,
                 length [isolated2] <= length cached ->
                 mapR (mask full_masking) (take (length [isolated2]) cached)
                 = Ok masked ->
                 out = (Ok tt,
                        World (files cached_world) (Some masked)
                              (compute_calls cached_world)))).
Proof.
  split; [reflexivity|]. split; [reflexivity|].
  apply (apply_to_keeps_existing_cache id_dump id_load open_ok full_masking
           [isolated2] "train" cached_world "pe" cached_blob); reflexivity.
Defined.

(** What that call leaves: the file as it was, and the cached entry of the
    graph with its diagonal cleared. *)
Example apply_to_on_cached_world :
  apply_to id_dump id_load open_ok full_masking [isolated2] "train" cached_world
  = (Ok tt, World (files cached_world) (Some [T2 [[0; 5]; [5; 0]]]%Q) 0).
Proof. reflexivity. Qed.

Lemma apply_to_round_trip_witness :
  (forall l, id_load (id_dump l) = Ok (Some l))
  /\ savepath full_masking = Some "pe"
  /\ zero_diag full_masking = zero_diag full_masking
  /\ use_edge_attr full_masking = use_edge_attr full_masking
  /\ files empty_world !! cache_path "pe" "train" = None
  /\ apply_to id_dump id_load open_ok full_masking [isolated2; loop2] "train" empty_world
     = (Ok tt, after_first_call)
  /\ exists w2,
      apply_to id_dump id_load open_ok full_masking [isolated2; loop2] "train"
               after_first_call
      = (Ok tt, w2)
      /\ pe_list w2 = pe_list after_first_call
      /\ compute_calls w2 = compute_calls after_first_call
      /\ files w2 = files after_first_call.
Proof.
  split; [reflexivity|]. split; [reflexivity|]. split; [reflexivity|].
  split; [reflexivity|]. split; [reflexivity|]. split; [reflexivity|].
  apply (apply_to_round_trip id_dump id_load open_ok full_masking full_masking
           [isolated2; loop2] "train" empty_world after_first_call "pe");
    reflexivity.
Defined.

(** ** Zero-diagonal masking *)

Section MaskFacts.
Context {R : Type} `{FloatOps R}.

Lemma zero_diagonal_length (m : matrix R) :
  length (zero_diagonal m) = length m.
Proof. unfold zero_diagonal. by rewrite length_imap. Qed.

Lemma zero_diagonal_row (m : matrix R) i :
  zero_diagonal m !! i = (fun row => <[i := f0]> row) <$> m !! i.
Proof. unfold zero_diagonal. by rewrite list_lookup_imap. Qed.

Lemma zero_diagonal_shape (m : matrix R) r c :
  has_shape2 m r c -> has_shape2 (zero_diagonal m) r c.
Proof.
  intros [Hr Hc]. split; [by rewrite zero_diagonal_length|].
  apply Forall_lookup; intros i row Hi.
  rewrite zero_diagonal_row in Hi.
  destruct (m !! i) as [row'|] eqn:Hm; simplify_eq/=.
  rewrite length_insert. by eapply (proj1 (Forall_lookup _ _) Hc).
Qed.

(** Every diagonal entry of the masked matrix is zero ... *)
Lemma zero_diagonal_diag (m : matrix R) i x :
  entry2 (zero_diagonal m) i i = Some x -> x = f0.
Proof.
  unfold entry2. rewrite zero_diagonal_row.
  destruct (m !! i) as [row|]; simpl; [|done].
  intros Hx. destruct (decide (i < length row)) as [Hi|Hi].
  - rewrite list_lookup_insert_eq in Hx by done. by injection Hx.
  - rewrite lookup_ge_None_2 in Hx; [done|]. rewrite length_insert. lia.
Qed.

(** ... and every other entry is the one of the original. *)
Lemma zero_diagonal_off (m : matrix R) i j :
  i <> j -> entry2 (zero_diagonal m) i j = entry2 m i j.
Proof.
  intros Hij. unfold entry2. rewrite zero_diagonal_row.
  destruct (m !! i) as [row|]; simpl; [|done].
  by rewrite list_lookup_insert_ne.
Qed.

Lemma zero_diagonal_dims12_diag (t : list (matrix R)) c i x :
  entry3 (zero_diagonal_dims12 t) c i i = Some x -> x = f0.
Proof.
  unfold entry3, zero_diagonal_dims12. rewrite list_lookup_fmap.
  destruct (t !! c) as [m|]; simpl; [|done]. apply zero_diagonal_diag.
Qed.

Lemma zero_diagonal_dims12_off (t : list (matrix R)) c i j :
  i <> j -> entry3 (zero_diagonal_dims12 t) c i j = entry3 t c i j.
Proof.
  intros Hij. unfold entry3, zero_diagonal_dims12. rewrite list_lookup_fmap.
  destruct (t !! c) as [m|]; simpl; [|done]. by apply zero_diagonal_off.
Qed.

(** On a 3-D tensor the default [diagonal()] clears [t[i][i][:]]: a whole
    row of channel [i], and no entry [t[c][i][i]] with [c <> i]. *)
Lemma zero_diagonal_dims01_other (t : list (matrix R)) c i j :
  c <> i -> entry3 (zero_diagonal_dims01 t) c i j = entry3 t c i j.
Proof.
  intros Hci. unfold entry3, zero_diagonal_dims01. rewrite list_lookup_imap.
  destruct (t !! c) as [m|]; simpl; [|done].
  unfold entry2. by rewrite list_lookup_alter_ne.
Qed.

Lemma zero_diagonal_dims01_row (t : list (matrix R)) c j x :
  entry3 (zero_diagonal_dims01 t) c c j = Some x -> x = f0.
Proof.
  unfold entry3, zero_diagonal_dims01. rewrite list_lookup_imap.
  destruct (t !! c) as [m|]; simpl; [|done].
  unfold entry2. rewrite list_lookup_alter_eq.
  destruct (m !! c) as [row|]; simpl; [|done].
  rewrite list_lookup_fmap. destruct (row !! j); simpl; [|done].
  by intros [= <-].
Qed.

(** X11. What the zero-diagonal step of [apply_to] does when the rank of the
    encoding is the one its branch expects: with [zero_diag] unset the
    encoding is passed on as it is; with it set, a 2-D encoding of an
    encoder without the edge-attribute branch, and a 3-D encoding of an
    encoder with it, come out with every diagonal entry zero and every
    other entry unchanged. *)
Lemma mask_matching_rank (self : PositionEncoding (R := R)) :
  (zero_diag self = false -> forall pe, mask self pe = Ok pe)
  /\ (zero_diag self = true -> edge_attr_branch self = false ->
      forall m, exists m',
        mask self (T2 m) = Ok (T2 m')
        /\ (forall i x, entry2 m' i i = Some x -> x = f0)
        /\ (forall i j, i <> j -> entry2 m' i j = entry2 m i j))
  /\ (zero_diag self = true -> edge_attr_branch self = true ->
      forall t, exists t',
        mask self (T3 t) = Ok (T3 t')
        /\ (forall c i x, entry3 t' c i i = Some x -> x = f0)
        /\ (forall c i j, i <> j -> entry3 t' c i j = entry3 t c i j)).
Proof.
  unfold mask. repeat split.
  - by intros ->.
  - intros -> -> m. exists (zero_diagonal m). repeat split.
    + apply zero_diagonal_diag.
    + apply zero_diagonal_off.
  - intros -> -> t. exists (zero_diagonal_dims12 t). repeat split.
    + apply zero_diagonal_dims12_diag.
    + apply zero_diagonal_dims12_off.
Qed.

End MaskFacts.

(** ** Where [AdjEncoding] leaves the protocol *)

Section CacheContent.
Context {R : Type} `{FloatOps R} {blob : Type}.
Variable pickle_dump : list (tensor R) -> blob.
Variable pickle_load : blob -> result (option (list (tensor R))).
Variable open_wb : string -> result unit.

(** X7. On a cache miss where every encoding can be computed and masked,
    [compute_pe] is called once per graph and [pe_list] receives the masked
    copies.  When the cache path can be opened for writing, the file
    receives the encodings as [compute_pe] returned them; when [open]
    raises, [apply_to] raises that exception after the loop and no file is
    written. *)
Lemma apply_to_caches_unmasked (self : PositionEncoding) ds split w sp
    computed masked :
  savepath self = Some sp ->
  files w !! cache_path sp split = None ->
  mapR (compute_pe self) ds = Ok computed ->
  mapR (mask self) computed = Ok masked ->
  (open_wb (cache_path sp split) = Ok tt ->
   apply_to pickle_dump pickle_load open_wb self ds split w =
   (Ok tt,
    World (<[cache_path sp split := pickle_dump computed]> (files w))
          (Some masked) (compute_calls w + length ds)))
  /\ (forall e,
        open_wb (cache_path sp split) = Raise e ->
        apply_to pickle_dump pickle_load open_wb self ds split w =
        (Raise e,
         World (files w) (Some masked) (compute_calls w + length ds))).
Proof.
  intros Hsp Hfile Hc Hm.
  rewrite (apply_to_miss_run _ _ _ self ds split w sp Hsp Hfile).
  pose proof (miss_steps_join _ _ _ _ Hc Hm) as Hr.
  apply runR_mapR in Hr. rewrite Hr; simpl.
  pose proof (mapR_length _ _ _ Hc). pose proof (mapR_length _ _ _ Hm).
  rewrite fst_zip, snd_zip by lia.
  split; [by intros ->|]. by intros e ->.
Qed.

(** Without a savepath nothing is read or written. *)
Lemma apply_to_without_savepath (self : PositionEncoding) ds split w :
  savepath self = None ->
  files (apply_to pickle_dump pickle_load open_wb self ds split w).2 = files w.
Proof.
  intros Hsp. unfold apply_to.
  unfold bind at 1, load; simpl. rewrite Hsp.
  unfold bind at 1, reset_pe_list; simpl.
  unfold bind at 1.
  rewrite (apply_loop_miss self ds 0 [] _ []) by done; simpl.
  destruct (runR (miss_step self) ds) as [ps o]; simpl.
  destruct o as [e|]; simpl; [done|].
  unfold save; simpl. by rewrite Hsp.
Qed.

End CacheContent.

(** The default [diagonal()] on the [[1, m, m]] tensor of [AdjEncoding]
    leaves every diagonal entry but the first as it was. *)
Lemma adj_mask_keeps_diagonal {R : Type} `{FloatOps R}
    sp normalization (g : graph) :
  exists t',
    mask (AdjEncoding.make sp normalization true)
         (AdjEncoding.to_dense_adj (edge_index g)) = Ok (T3 t')
    /\ forall i, 0 < i ->
         entry3 t' 0 i i
         = entry2 (accumulate (zeros (infer_num_nodes (edge_index g))
                                     (infer_num_nodes (edge_index g)))
                              (edge_index g)
                              (replicate (length (edge_index g)) f1)) i i.
Proof.
  eexists; split; [reflexivity|].
  intros i Hi. rewrite zero_diagonal_dims01_other by lia. done.
Qed.

(** C1 (the code departs from the claim for [AdjEncoding]).  The cache
    file of [adj_cached_world] holds the unmasked adjacency encoding
    [[[[0, 1], [1, 1]]]] of the 2-node graph with edges 0-1, 1-0 and the loop
    1-1, as a first [apply_to] writes it.  A cache load by the adjacency
    encoder with [zero_diag=True] returns, leaves the file alone and runs
    the masking step afresh, but the entry it puts in [pe_list] is
    [[[[0, 0], [1, 1]]]]: row 0 is cleared and the diagonal entry of node 1
    is still 1. *)
Theorem adj_cache_load_diagonal_unmasked :
  apply_to id_dump id_load open_ok adj_masking [loop2] "train" empty_world
  = (Ok tt, World (files adj_cached_world) (Some [T3 [[[0; 0]; [1; 1]]]]%Q) 1)
  /\ apply_to id_dump id_load open_ok adj_masking [loop2] "train" adj_cached_world
     = (Ok tt, World (files adj_cached_world) (Some [T3 [[[0; 0]; [1; 1]]]]%Q) 0)
  /\ files adj_cached_world !! "pe.train" = Some [T3 [[[0; 1]; [1; 1]]]]%Q
  /\ entry3 [[[0; 0]; [1; 1]]]%Q 0 1 1 = Some 1%Q.
Proof. repeat split; reflexivity. Qed.

(** C2 (the code departs from the claim for [AdjEncoding]).  For the 2-node
    graph with edges 0-1, 1-0 and the loop 1-1, [AdjEncoding.compute_pe]
    returns the 3-D tensor [[[[0, 1], [1, 1]]]]; the encoder has no
    [use_edge_attr], so the zero-diagonal step takes [pe.diagonal()] with
    torch's default dimensions 0 and 1 and yields [[[[0, 0], [1, 1]]]]: the
    off-diagonal entry (0, 1) is cleared and the diagonal entry (1, 1)
    keeps its 1. *)
Theorem adj_mask_clears_row_not_diagonal :
  AdjEncoding.compute_pe (R := Q) loop2 = Ok (T3 [[[0; 1]; [1; 1]]]%Q)
  /\ use_edge_attr adj_masking = None
  /\ zero_diag adj_masking = true
  /\ mask adj_masking (T3 [[[0; 1]; [1; 1]]]%Q) = Ok (T3 [[[0; 0]; [1; 1]]]%Q)
  /\ entry3 [[[0; 0]; [1; 1]]]%Q 0 1 1 = Some 1%Q
  /\ entry3 [[[0; 0]; [1; 1]]]%Q 0 0 1 = Some 0%Q.
Proof. repeat split; reflexivity. Qed.

(** [AdjEncoding] never reads its [normalization]. *)
Lemma adj_ignores_normalization {R : Type} `{FloatOps R}
    sp (n1 n2 : option string) zd :
  AdjEncoding.make (R := R) sp n1 zd = AdjEncoding.make sp n2 zd.
Proof. reflexivity. Qed.

(** C8 (the code departs from the claim).  For the graph with 3 nodes and
    the edges 0-1 and 1-0, node 2 being isolated, [AdjEncoding.compute_pe]
    returns the 3-D tensor [[[[0, 1], [1, 0]]]] of shape [[1, 2, 2]]: a batch
    of one matrix whose side is the largest node index plus one, not a
    [[3, 3]] matrix.  The value does not depend on [normalization]. *)
Theorem adj_compute_pe_batched_shape :
  num_nodes tail3 = 3
  /\ compute_pe (AdjEncoding.make (R := Q) None None false) tail3
     = Ok (T3 [[[0; 1]; [1; 0]]]%Q)
  /\ compute_pe (AdjEncoding.make (R := Q) None (Some "sym") false) tail3
     = Ok (T3 [[[0; 1]; [1; 0]]]%Q)
  /\ compute_pe (AdjEncoding.make (R := Q) None (Some "rw") false) tail3
     = Ok (T3 [[[0; 1]; [1; 0]]]%Q).
Proof. repeat split; reflexivity. Qed.

(** ** P-step random walk kernel *)

Section PStepFacts.
Context {R : Type} `{FloatOps R}.

Lemma power_loop_spec (k : nat) (L tmp : matrix R) (dots : nat) :
  PStepRWEncoding.power_loop (S k) L tmp dots
  = (mdot (PStepRWEncoding.power_loop k L tmp dots).1 L,
     S (PStepRWEncoding.power_loop k L tmp dots).2).
Proof.
  revert tmp dots; induction k as [|k IH]; intros tmp dots; [done|].
  change (PStepRWEncoding.power_loop (S (S k)) L tmp dots)
    with (PStepRWEncoding.power_loop (S k) L (mdot tmp L) (S dots)).
  by rewrite IH.
Qed.

Lemma power_loop_power (k : nat) (L : matrix R) :
  PStepRWEncoding.power_loop k L L 0 = (power_succ L k, k).
Proof.
  induction k as [|k IH]; [done|].
  rewrite power_loop_spec, IH. done.
Qed.

(** C5. P-step encoding of order [p = 1]: the result is the base matrix
    [I - beta * L] itself and no matrix product is made; it fails only when
    the Laplacian cannot be built. *)
Theorem pstep_order_one (beta : R) normalization ei ew n :
  PStepRWEncoding.compute_pe_from_edge_weight_counted 1 beta normalization ei ew n
  = (try L := laplacian_matrix ei ew normalization n in
     Ok (T2 (msub (identity (length L)) (mscale beta L)), 0))
  /\ PStepRWEncoding.compute_pe_from_edge_weight 1 beta normalization ei ew n
     = (try L := laplacian_matrix ei ew normalization n in
        Ok (T2 (msub (identity (length L)) (mscale beta L)))).
Proof.
  unfold PStepRWEncoding.compute_pe_from_edge_weight,
    PStepRWEncoding.compute_pe_from_edge_weight_counted.
  split; by destruct (laplacian_matrix ei ew normalization n).
Qed.

(** C6. P-step encoding of order [k + 1], for [k >= 1]: it is the encoding
    of order [k] multiplied on the right by [M = I - beta * L]; the encoding
    of order [k] is [M] raised to the power [k] and takes [k - 1] products,
    that of order [k + 1] takes [k].  When the Laplacian cannot be built
    both orders fail alike. *)
Theorem pstep_order_succ (k : Z) (beta : R) normalization ei ew n :
  (1 <= k)%Z ->
  (forall L, laplacian_matrix ei ew normalization n = Ok L ->
     let M := msub (identity (length L)) (mscale beta L) in
     exists pe_k,
       PStepRWEncoding.compute_pe_from_edge_weight_counted
         k beta normalization ei ew n
       = Ok (T2 pe_k, Z.to_nat (k - 1))
       /\ pe_k = power_succ M (Z.to_nat (k - 1))
       /\ PStepRWEncoding.compute_pe_from_edge_weight_counted
            (k + 1) beta normalization ei ew n
          = Ok (T2 (mdot pe_k M), Z.to_nat k)
       /\ PStepRWEncoding.compute_pe_from_edge_weight
            k beta normalization ei ew n = Ok (T2 pe_k)
       /\ PStepRWEncoding.compute_pe_from_edge_weight
            (k + 1) beta normalization ei ew n = Ok (T2 (mdot pe_k M)))
  /\ (forall e, laplacian_matrix ei ew normalization n = Raise e ->
       PStepRWEncoding.compute_pe_from_edge_weight k beta normalization ei ew n
       = Raise e
       /\ PStepRWEncoding.compute_pe_from_edge_weight
            (k + 1) beta normalization ei ew n = Raise e).
Proof.
  intros Hk.
  unfold PStepRWEncoding.compute_pe_from_edge_weight,
    PStepRWEncoding.compute_pe_from_edge_weight_counted,
    PStepRWEncoding.base_matrix.
  split.
  - intros L ->; simpl.
    set (M := msub (identity (length L)) (mscale beta L)).
    replace (Z.to_nat (k + 1 - 1)) with (S (Z.to_nat (k - 1))) by lia.
    rewrite power_loop_spec, !power_loop_power; simpl.
    exists (power_succ M (Z.to_nat (k - 1))).
    replace (Z.to_nat k) with (S (Z.to_nat (k - 1))) by lia.
    repeat split.
  - by intros e ->.
Qed.

End PStepFacts.

Lemma pstep_order_succ_witness :
  (1 <= 2)%Z
  /\ (forall L, laplacian_matrix (R := Q) (edge_index path3) None None 3 = Ok L ->
       let M := msub (identity (length L)) (mscale (1 # 2) L) in
       exists pe_k,
         PStepRWEncoding.compute_pe_from_edge_weight_counted
           2 (1 # 2) None (edge_index path3) None 3
         = Ok (T2 pe_k, Z.to_nat (2 - 1))
         /\ pe_k = power_succ M (Z.to_nat (2 - 1))
         /\ PStepRWEncoding.compute_pe_from_edge_weight_counted
              (2 + 1) (1 # 2) None (edge_index path3) None 3
            = Ok (T2 (mdot pe_k M), Z.to_nat 2)
         /\ PStepRWEncoding.compute_pe_from_edge_weight
              2 (1 # 2) None (edge_index path3) None 3 = Ok (T2 pe_k)
         /\ PStepRWEncoding.compute_pe_from_edge_weight
              (2 + 1) (1 # 2) None (edge_index path3) None 3
            = Ok (T2 (mdot pe_k M)))
  /\ (forall e, laplacian_matrix (R := Q) (edge_index path3) None None 3 = Raise e ->
       PStepRWEncoding.compute_pe_from_edge_weight
         2 (1 # 2) None (edge_index path3) None 3 = Raise e
       /\ PStepRWEncoding.compute_pe_from_edge_weight
            (2 + 1) (1 # 2) None (edge_index path3) None 3 = Raise e).
Proof.
  split; [lia|].
  apply (pstep_order_succ 2 (1 # 2) None (edge_index path3) None 3); lia.
Defined.

(** The specification's 3-node path, [beta = 1/2]: the Laplacian, the
    encoding of order 1 and the encoding of order 2. *)
Example pstep_path3 :
  laplacian_matrix (R := Q) (edge_index path3) None None 3
  = Ok [[1; -1; 0]; [-1; 2; -1]; [0; -1; 1]]%Q
  /\ PStepRWEncoding.compute_pe_from_edge_weight_counted
       1 (1 # 2) None (edge_index path3) None 3
     = Ok (T2 [[1 # 2; 1 # 2; 0]; [1 # 2; 0; 1 # 2]; [0; 1 # 2; 1 # 2]]%Q, 0)
  /\ PStepRWEncoding.compute_pe_from_edge_weight_counted
       2 (1 # 2) None (edge_index path3) None 3
     = Ok (T2 [[1 # 2; 1 # 4; 1 # 4]; [1 # 4; 1 # 2; 1 # 4];
               [1 # 4; 1 # 4; 1 # 2]]%Q, 1).
Proof. repeat split; reflexivity. Qed.

(** ** One-hot expansion *)

Lemma sumZ_app (l1 l2 : list Z) : sumZ (l1 ++ l2) = (sumZ l1 + sumZ l2)%Z.
Proof. induction l1 as [|x l1 IH]; simpl; [done|]. rewrite IH. lia. Qed.

Lemma sumZ_concat_ones (m : list (list Z)) :
  Forall (fun row => sumZ row = 1%Z) m ->
  sumZ (concat m) = Z.of_nat (length m).
Proof.
  induction 1 as [|row m Hrow _ IH]; simpl; [done|].
  rewrite sumZ_app, Hrow, IH. lia.
Qed.

Lemma sumZ_nonneg (l : list Z) :
  Forall (fun x => 0 <= x)%Z l -> (0 <= sumZ l)%Z.
Proof. induction 1; simpl; lia. Qed.

Lemma one_hot_row_length classes c : length (one_hot_row classes c) = classes.
Proof. unfold one_hot_row. by rewrite length_fmap, length_seq. Qed.

(** The indicator of [c] over the indices [s, s + k) sums to 1 when [c] is
    among them. *)
Lemma indicator_sum (s k : nat) (c : Z) :
  sumZ ((fun j => if decide (Z.of_nat j = c) then 1 else 0)%Z <$> seq s k)
  = if decide (Z.of_nat s <= c < Z.of_nat (s + k))%Z then 1%Z else 0%Z.
Proof.
  revert s; induction k as [|k IH]; intros s; csimpl.
  - case_decide; [lia|done].
  - rewrite IH. repeat case_decide; lia.
Qed.

Lemma one_hot_row_sum classes c :
  (0 <= c < Z.of_nat classes)%Z -> sumZ (one_hot_row classes c) = 1%Z.
Proof.
  intros Hc. unfold one_hot_row. rewrite indicator_sum.
  case_decide; [done|lia].
Qed.

Lemma foldr_min_le (x : Z) xs y :
  y ∈ x :: xs -> (foldr Z.min x xs <= y)%Z.
Proof.
  induction xs as [|z xs IH]; simpl.
  - intros ->%list_elem_of_singleton. lia.
  - rewrite !elem_of_cons. intros [Hy|[Hy|Hy]].
    + assert (foldr Z.min x xs <= y)%Z by (apply IH; subst; left). lia.
    + lia.
    + assert (foldr Z.min x xs <= y)%Z by (apply IH; by right). lia.
Qed.

Lemma foldr_min_ge (x : Z) xs a :
  Forall (fun y => a <= y)%Z (x :: xs) -> (a <= foldr Z.min x xs)%Z.
Proof.
  intros [Hx Hxs]%Forall_cons. induction Hxs; simpl; lia.
Qed.

Lemma foldr_max_lt (x : Z) xs a :
  Forall (fun y => y < a)%Z (x :: xs) -> (foldr Z.max x xs < a)%Z.
Proof.
  intros [Hx Hxs]%Forall_cons. induction Hxs; simpl; lia.
Qed.

(** With a positive class count and every value in range, [F.one_hot]
    settles on that count. *)
Lemma one_hot_classes_ok (xs : list Z) (n : Z) :
  (0 < n)%Z -> Forall (fun x => 0 <= x < n)%Z xs ->
  one_hot_classes xs n = Ok (Z.to_nat n).
Proof.
  intros Hn Hxs. unfold one_hot_classes. destruct xs as [|x xs].
  - case_decide; [lia|done].
  - assert (0 <= foldr Z.min x xs)%Z.
    { apply foldr_min_ge. eapply Forall_impl; [done|]. simpl; lia. }
    assert (foldr Z.max x xs < n)%Z.
    { apply foldr_max_lt. eapply Forall_impl; [done|]. simpl; lia. }
    repeat case_decide; done || lia.
Qed.

(** A negative value makes [F.one_hot] fail. *)
Lemma one_hot_classes_negative (xs : list Z) (n x : Z) :
  x ∈ xs -> (x < 0)%Z -> one_hot_classes xs n = Raise RuntimeError.
Proof.
  intros Hx Hneg. unfold one_hot_classes. destruct xs as [|y ys].
  - by apply elem_of_nil in Hx.
  - pose proof (foldr_min_le y ys x Hx). case_decide; [done|lia].
Qed.

Lemma one_hot_rows_coded (v : list Z) (n : Z) :
  Forall (fun x => 0 <= x < n)%Z v ->
  Forall (coded_row (Z.to_nat n) 1) (one_hot_row (Z.to_nat n) <$> v).
Proof.
  intros Hv. apply Forall_fmap. eapply Forall_impl; [done|].
  intros x Hx; simpl in Hx; split.
  - apply one_hot_row_length.
  - apply one_hot_row_sum. lia.
Qed.

Lemma one_hot_1d_ok (v : list Z) (n : Z) :
  (0 < n)%Z -> Forall (fun x => 0 <= x < n)%Z v ->
  one_hot_1d v n = Ok (Wide (Z.to_nat n) (one_hot_row (Z.to_nat n) <$> v)).
Proof.
  intros Hn Hv. unfold one_hot_1d. by rewrite one_hot_classes_ok.
Qed.

Lemma int_column_ok (ncols : nat) (rows : list (list Z)) (col : nat) :
  col < ncols ->
  Forall (fun row => is_Some (row !! col)) rows ->
  int_column ncols rows col = Ok ((fun row => default 0%Z (row !! col)) <$> rows).
Proof.
  intros Hcol Hrows. unfold int_column. case_decide; [|lia].
  apply mapR_all_ok. intros row Hrow.
  destruct (proj1 (Forall_forall _ _) Hrows row Hrow) as [x ->]. done.
Qed.

(** The blocks of sequence mode: one per cardinality, as wide as the
    cardinality, with one row per edge. *)
Lemma one_hot_columns_ok (ncols : nat) (rows : list (list Z)) cards col :
  col + length cards <= ncols ->
  (forall k card, cards !! k = Some card ->
     (0 < card)%Z /\
     Forall (fun row => exists x, row !! (col + k) = Some x /\ (0 <= x < card)%Z)
            rows) ->
  exists blocks,
    one_hot_columns (I2 ncols rows) col cards = Ok blocks
    /\ length blocks = length cards
    /\ sumZ ((fun b => Z.of_nat (width b)) <$> blocks) = sumZ cards
    /\ Forall (fun b => length (wide_rows b) = length rows
                        /\ Forall (coded_row (width b) 1) (wide_rows b))
              blocks.
Proof.
  revert col; induction cards as [|card cards IH]; intros col Hcol Hcodes.
  - exists []. by repeat split.
  - simpl in Hcol. destruct (Hcodes 0 card eq_refl) as [Hcard Hrows].
    rewrite Nat.add_0_r in Hrows.
    destruct (IH (S col)) as (blocks & Hblocks & Hlen & Hsum & Hall).
    { lia. }
    { intros k card' Hk. destruct (Hcodes (S k) card' Hk) as [? Hr].
      split; [done|]. by replace (S col + k) with (col + S k) by lia. }
    simpl. rewrite int_column_ok; simpl.
    + rewrite one_hot_1d_ok; simpl.
      * rewrite Hblocks; simpl. eexists; split; [done|].
        repeat split; csimpl.
        -- by rewrite Hlen.
        -- rewrite Hsum. lia.
        -- constructor; [|done]. simpl. split.
           ++ by rewrite !length_fmap.
           ++ apply one_hot_rows_coded. apply Forall_fmap.
              eapply Forall_impl; [exact Hrows|].
              intros row (x & Hrow & Hx). simpl. by rewrite Hrow.
      * done.
      * apply Forall_fmap. eapply Forall_impl; [exact Hrows|].
        intros row (x & Hrow & Hx). simpl. by rewrite Hrow.
    + lia.
    + eapply Forall_impl; [exact Hrows|]. intros row (x & -> & _). done.
Qed.

(** Concatenating the blocks along dimension 1: a row of the result is
    made of one row of each block. *)
Lemma cat_dim1_ok (blocks : list (wide Z)) (E : nat) :
  blocks <> [] ->
  Forall (fun b => length (wide_rows b) = E
                   /\ Forall (coded_row (width b) 1) (wide_rows b)) blocks ->
  exists t,
    cat_dim1 blocks = Ok t
    /\ Z.of_nat (width t) = sumZ ((fun b => Z.of_nat (width b)) <$> blocks)
    /\ length (wide_rows t) = E
    /\ Forall (coded_row (width t) (Z.of_nat (length blocks))) (wide_rows t).
Proof.
  induction blocks as [|b blocks IH]; [done|]. intros _ Hall.
  apply Forall_cons in Hall as [[Hb Hrows] Hall].
  destruct blocks as [|b' blocks].
  - exists b. simpl. repeat split; [lia|done|done].
  - destruct IH as (t & Ht & Hw & Hlen & Hcoded); [done|done|].
    change (cat_dim1 (b :: b' :: blocks))
      with (try rest := cat_dim1 (b' :: blocks) in
            if decide (length (wide_rows b) = length (wide_rows rest)) then
              Ok (Wide (width b + width rest)
                       (zip_with app (wide_rows b) (wide_rows rest)))
            else Raise RuntimeError).
    rewrite Ht; simpl. case_decide; [|lia].
    eexists; split; [done|]. simpl. repeat split.
    + simpl in Hw. lia.
    + rewrite length_zip_with. lia.
    + apply Forall_lookup. intros i row Hi.
      apply lookup_zip_with_Some in Hi as (r1 & r2 & -> & H1 & H2).
      destruct (proj1 (Forall_lookup _ _) Hrows _ _ H1) as [Hl1 Hs1].
      destruct (proj1 (Forall_lookup _ _) Hcoded _ _ H2) as [Hl2 Hs2].
      split.
      * rewrite length_app. lia.
      * rewrite sumZ_app, Hs1, Hs2. simpl length. lia.
Qed.

Lemma concat_fmap_fmap {A B} (f : A -> B) (m : list (list A)) :
  concat ((fun row : list A => f <$> row) <$> m) = f <$> concat m.
Proof.
  induction m as [|row m IH]; csimpl; [done|]. by rewrite IH, fmap_app.
Qed.

Lemma elem_of_concat {A} (x : A) (m : list (list A)) row :
  row ∈ m -> x ∈ row -> x ∈ concat m.
Proof.
  induction m as [|r m IH]; simpl; [by intros ?%elem_of_nil|].
  rewrite elem_of_cons, elem_of_app. intros [->|Hrow] Hx; [by left|].
  right. by apply IH.
Qed.

Lemma foldr_max_ge (x : Z) xs y :
  y ∈ x :: xs -> (y <= foldr Z.max x xs)%Z.
Proof.
  induction xs as [|z xs IH]; simpl.
  - intros ->%list_elem_of_singleton. lia.
  - rewrite !elem_of_cons. intros [Hy|[Hy|Hy]].
    + assert (y <= foldr Z.max x xs)%Z by (apply IH; subst; left). lia.
    + lia.
    + assert (y <= foldr Z.max x xs)%Z by (apply IH; by right). lia.
Qed.

(** A value at or above a given class count makes [F.one_hot] fail. *)
Lemma one_hot_classes_above (xs : list Z) (n x : Z) :
  x ∈ xs -> n <> (-1)%Z -> (n <= x)%Z ->
  one_hot_classes xs n = Raise RuntimeError.
Proof.
  intros Hx Hn Hle. unfold one_hot_classes. destruct xs as [|y ys].
  - by apply elem_of_nil in Hx.
  - pose proof (foldr_max_ge y ys x Hx). repeat case_decide; done || lia.
Qed.

(** [F.one_hot] raises nothing but [RuntimeError]. *)
Lemma one_hot_classes_raise (xs : list Z) (n : Z) e :
  one_hot_classes xs n = Raise e -> e = RuntimeError.
Proof.
  unfold one_hot_classes. destruct xs as [|y ys]; repeat case_decide;
    by intros [= <-].
Qed.

(** The blocks of sequence mode and their concatenation, on the columns
    from [col] on. *)
Lemma one_hot_columns_blocks (ncols : nat) (rows : list (list Z)) cards col :
  cards <> [] ->
  col + length cards <= ncols ->
  Forall (fun card => 0 < card)%Z cards ->
  Forall (fun row => Forall2 (fun x card => 0 <= x < card)%Z (drop col row) cards)
         rows ->
  exists blocks,
    one_hot_columns (I2 ncols rows) col cards = Ok blocks
    /\ cat_dim1 blocks
       = Ok (Wide (Z.to_nat (sumZ cards))
                  ((fun row => expand_row cards (drop col row)) <$> rows)).
Proof.
  revert col; induction cards as [|card cards IH]; intros col Hne Hcol Hpos Hrows;
    [done|].
  simpl in Hcol. apply Forall_cons in Hpos as [Hcard Hpos].
  assert (Forall (fun row =>
                    exists x, row !! col = Some x /\ (0 <= x < card)%Z
                              /\ Forall2 (fun x card => 0 <= x < card)%Z
                                         (drop (S col) row) cards
                              /\ drop col row = x :: drop (S col) row) rows)
    as Hrows'.
  { eapply Forall_impl; [exact Hrows|]. intros row Hrow; simpl in Hrow.
    apply Forall2_cons_inv_r in Hrow as (x & rest & Hx & Hrest & Hd).
    assert (row !! col = Some x) as Hlook.
    { pose proof (lookup_drop row col 0) as Hl.
      rewrite Hd, Nat.add_0_r in Hl. by simpl in Hl. }
    pose proof (drop_S _ _ _ Hlook) as Hd'.
    assert (rest = drop (S col) row) as -> by congruence.
    by exists x. }
  simpl. rewrite int_column_ok; simpl.
  2: { lia. }
  2: { eapply Forall_impl; [exact Hrows'|]. intros row (x & -> & _). done. }
  rewrite one_hot_1d_ok; simpl.
  2: { done. }
  2: { apply Forall_fmap. eapply Forall_impl; [exact Hrows'|].
       intros row (x & Hx & Hr & _). simpl. by rewrite Hx. }
  destruct cards as [|card' cards'].
  - simpl. eexists; split; [done|]. simpl. do 2 f_equal; [f_equal; lia|].
    rewrite <- list_fmap_compose. apply Forall_fmap_ext.
    eapply Forall_impl; [exact Hrows'|].
    intros row (x & Hx & _ & _ & Hd). simpl. rewrite Hx, Hd.
    unfold expand_row; simpl. by rewrite app_nil_r.
  - destruct (IH (S col)) as (blocks & Hb & Hcat).
    { done. }
    { simpl in *; lia. }
    { done. }
    { eapply Forall_impl; [exact Hrows'|]. by intros row (x & _ & _ & Hr & _). }
    rewrite Hb; simpl. eexists; split; [done|].
    destruct blocks as [|b' blocks']; [done|].
    set (b := Wide (Z.to_nat card) _).
    change (cat_dim1 (b :: b' :: blocks'))
      with (try rest := cat_dim1 (b' :: blocks') in
            if decide (length (wide_rows b) = length (wide_rows rest)) then
              Ok (Wide (width b + width rest)
                       (zip_with app (wide_rows b) (wide_rows rest)))
            else Raise RuntimeError).
    rewrite Hcat; simpl. rewrite !length_fmap.
    case_decide; [|done]. do 2 f_equal.
    + assert (0 <= sumZ (card' :: cards'))%Z.
      { apply sumZ_nonneg. eapply Forall_impl; [exact Hpos|]. simpl; lia. }
      unfold sumZ in *; simpl in *. lia.
    + rewrite <- list_fmap_compose.
      rewrite zip_with_fmap_l, zip_with_fmap_r, zip_with_diag.
      apply Forall_fmap_ext.
      eapply Forall_impl; [exact Hrows'|].
      intros row (x & Hx & _ & _ & Hd). simpl. rewrite Hx, Hd. done.
Qed.

(** A code outside its range in some column makes the blocks fail. *)
Lemma one_hot_columns_outside (ncols : nat) (rows : list (list Z)) cards col
    k card row x :
  Forall (fun row => length row = ncols) rows ->
  col + length cards <= ncols ->
  cards !! k = Some card ->
  row ∈ rows ->
  row !! (col + k) = Some x ->
  (x < 0 \/ (card <> -1 /\ card <= x))%Z ->
  one_hot_columns (I2 ncols rows) col cards = Raise RuntimeError.
Proof.
  intros Hwf. revert col k.
  induction cards as [|c0 cards IH]; intros col k Hcol Hk Hrow Hx Hbad; [done|].
  simpl in Hcol. simpl. rewrite int_column_ok; simpl.
  2: { lia. }
  2: { eapply Forall_impl; [exact Hwf|]. intros r Hr; simpl in Hr.
       apply lookup_lt_is_Some_2. lia. }
  unfold one_hot_1d.
  destruct (one_hot_classes _ c0) as [classes|e] eqn:Hclasses; simpl.
  - destruct k as [|k]; simpl in Hk.
    + injection Hk as ->. rewrite Nat.add_0_r in Hx.
      assert (x ∈ (fun row : list Z => default 0%Z (row !! col)) <$> rows)
        as Hin.
      { apply list_elem_of_fmap. exists row. by rewrite Hx. }
      destruct Hbad as [Hneg|[Hne Hle]].
      * by rewrite (one_hot_classes_negative _ _ x Hin Hneg) in Hclasses.
      * by rewrite (one_hot_classes_above _ _ x Hin Hne Hle) in Hclasses.
    + rewrite (IH (S col) k); [done|lia|done|done| |done].
      by replace (S col + k) with (col + S k) by lia.
  - by rewrite (one_hot_classes_raise _ _ _ Hclasses).
Qed.

(** [one_hot_row] is the indicator it is meant to be. *)
Lemma one_hot_row_indicator (classes : nat) (c : Z) :
  indicator classes c (one_hot_row classes c).
Proof.
  split; [apply one_hot_row_length|].
  intros k Hk. unfold one_hot_row. rewrite list_lookup_fmap.
  by rewrite lookup_seq_lt.
Qed.

Lemma expand_row_cons card cards x row :
  expand_row (card :: cards) (x :: row)
  = one_hot_row (Z.to_nat card) x ++ expand_row cards row.
Proof. done. Qed.

Lemma expand_row_length cards row :
  Forall (fun card => 0 < card)%Z cards ->
  length row = length cards ->
  length (expand_row cards row) = Z.to_nat (sumZ cards).
Proof.
  intros Hpos. revert row.
  induction Hpos as [|card cards Hcard Hpos IH]; intros [|x row] Hlen;
    simplify_eq/=; [done|].
  rewrite expand_row_cons, length_app, one_hot_row_length, (IH row) by done.
  assert (0 <= sumZ cards)%Z.
  { apply sumZ_nonneg. eapply Forall_impl; [exact Hpos|]. simpl; lia. }
  unfold sumZ in *; simpl. lia.
Qed.

(** In the expansion of a row, the block of column [f] starts where the
    cardinalities before it add up to, and marks the code of the column. *)
Lemma expand_row_entry cards row f card x k :
  Forall (fun card => 0 < card)%Z cards ->
  length row = length cards ->
  cards !! f = Some card ->
  row !! f = Some x ->
  k < Z.to_nat card ->
  expand_row cards row !! (Z.to_nat (sumZ (take f cards)) + k)
  = Some (if decide (Z.of_nat k = x) then 1 else 0)%Z.
Proof.
  intros Hpos. revert row f.
  induction Hpos as [|c0 cards Hc0 Hpos IH]; intros [|x0 row] f Hlen Hf Hx Hk;
    simplify_eq/=.
  rewrite expand_row_cons. destruct f as [|f]; simplify_eq/=.
  - rewrite lookup_app_l by (rewrite one_hot_row_length; lia).
    by apply one_hot_row_indicator.
  - assert (0 <= sumZ (take f cards))%Z.
    { apply sumZ_nonneg, Forall_take.
      eapply Forall_impl; [exact Hpos|]. simpl; lia. }
    rewrite lookup_app_r by (rewrite one_hot_row_length; unfold sumZ in *; lia).
    rewrite one_hot_row_length.
    replace (Z.to_nat (c0 + sumZ (take f cards)) + k - Z.to_nat c0)
      with (Z.to_nat (sumZ (take f cards)) + k) by lia.
    by apply IH.
Qed.

(** Integer mode marks the class [code - 1] in every row. *)
Lemma one_hot_rows_indicator (n : nat) (v : list Z) :
  Forall2 (fun x row => indicator n (x - 1) row) v
          (one_hot_row n <$> ((fun x => x - 1)%Z <$> v)).
Proof.
  induction v as [|x v IH]; csimpl; constructor; [|done].
  apply one_hot_row_indicator.
Qed.

Section OneHotFacts.
Context {R : Type} `{FloatOps R}.

(** C10. The two modes of [edge_attr_one_hot].  Under the precondition of
    the mode ([codes_ok]: codes in [[1, n]] for an integer [n], codes of
    each column in [[0, cardinality)] for a sequence) the call returns, with
    one row per edge.  Integer mode encodes [edge_attr - 1]: the class it
    marks for a code is [code - 1] among [n]; sequence mode encodes the codes
    as they are: in the block of each column the class it marks is the code
    itself ([marks_codes]).  Every row sums to the number of edge-feature
    columns.  In integer mode a code of 0, or any code below 1, makes it
    fail, and so does a code above [n]; sequence mode takes the code 0 as
    the first class and fails on a code that is negative or not below the
    cardinality of its column. *)
Theorem edge_attr_one_hot_codes (ea : int_tensor) (nef : edge_features) :
  (codes_ok ea nef ->
   exists t,
     edge_attr_one_hot_int (Some ea) nef = Ok t
     /\ edge_attr_one_hot (R := R) (Some ea) nef = Ok (float_tensor t)
     /\ length (row_sums t) = num_edges ea
     /\ Forall (fun s => s = Z.of_nat (num_columns ea)) (row_sums t)
     /\ marks_codes ea nef t)
  /\ (forall n x,
        nef = NefInt n -> x ∈ codes ea -> (x <= 0)%Z ->
        edge_attr_one_hot (R := R) (Some ea) nef = Raise RuntimeError)
  /\ (forall n x,
        nef = NefInt n -> n <> (-1)%Z -> x ∈ codes ea -> (n < x)%Z ->
        edge_attr_one_hot (R := R) (Some ea) nef = Raise RuntimeError)
  /\ (forall ncols rows cards k card row x,
        ea = I2 ncols rows -> nef = NefSeq cards ->
        int_tensor_wf ea -> length cards <= ncols ->
        cards !! k = Some card -> row ∈ rows -> row !! k = Some x ->
        (x < 0 \/ (card <> -1 /\ card <= x))%Z ->
        edge_attr_one_hot (R := R) (Some ea) nef = Raise RuntimeError).
Proof.
  split; [|split; [|split]].
  - intros Hok.
    assert (forall t, edge_attr_one_hot_int (Some ea) nef = Ok t ->
                      edge_attr_one_hot (R := R) (Some ea) nef
                      = Ok (float_tensor t)) as Hfloat.
    { intros t Ht. unfold edge_attr_one_hot. by rewrite Ht. }
    destruct nef as [n|cards]; simpl in Hok.
    + destruct Hok as (Hn & Hwf & Hcodes).
      destruct ea as [v|ncols rows]; simpl in *.
      * assert (Forall (fun x => 0 <= x < n)%Z ((fun x => x - 1)%Z <$> v)) as Hv.
        { apply Forall_fmap. eapply Forall_impl; [done|]. simpl; lia. }
        eexists; split; [|split; [apply Hfloat|split; [|split]]].
        -- by rewrite one_hot_1d_ok.
        -- by rewrite one_hot_1d_ok.
        -- simpl. by rewrite !length_fmap.
        -- simpl. apply Forall_fmap.
           eapply Forall_impl; [by apply one_hot_rows_coded|].
           intros row [_ Hs]; simpl. by rewrite Hs.
        -- simpl. split; [done|]. apply one_hot_rows_indicator.
      * set (m := (fun row : list Z => (fun x => x - 1)%Z <$> row) <$> rows).
        assert (Forall (fun x => 0 <= x < n)%Z (concat m)) as Hm.
        { subst m. rewrite concat_fmap_fmap. apply Forall_fmap.
          eapply Forall_impl; [done|]. simpl; lia. }
        assert (one_hot_2d m n
                = Ok (Z.to_nat n,
                      (fun row : list Z => one_hot_row (Z.to_nat n) <$> row) <$> m))
          as H2d.
        { unfold one_hot_2d. by rewrite one_hot_classes_ok. }
        assert (edge_attr_one_hot_int (Some (I2 ncols rows)) (NefInt n)
                = Ok (OH3 ncols (Z.to_nat n)
                       ((fun row : list Z => one_hot_row (Z.to_nat n) <$> row)
                          <$> m)))
          as Hint.
        { unfold edge_attr_one_hot_int. fold m. by rewrite H2d. }
        eexists; split; [|split; [apply Hfloat|split; [|split]]].
        -- exact Hint.
        -- exact Hint.
        -- simpl. subst m. by rewrite !length_fmap.
        -- simpl. subst m. rewrite <- !list_fmap_compose.
           apply Forall_fmap, Forall_forall. intros row Hrow; simpl.
           rewrite sumZ_concat_ones.
           ++ rewrite !length_fmap.
              by rewrite (proj1 (Forall_forall _ _) Hwf row Hrow).
           ++ eapply Forall_impl.
              ** apply one_hot_rows_coded, Forall_fmap.
                 assert (Forall (fun x => 1 <= x <= n)%Z row) as Hr.
                 { apply Forall_forall; intros x Hx.
                   apply (proj1 (Forall_forall _ _) Hcodes).
                   by apply (elem_of_concat x rows row). }
                 eapply Forall_impl; [exact Hr|]. simpl; lia.
              ** by intros r [_ Hs].
        -- simpl. split; [done|]. split; [done|]. subst m.
           rewrite <- list_fmap_compose. apply Forall2_fmap_r.
           apply Forall_Forall2_diag, Forall_forall. intros row _; simpl.
           apply one_hot_rows_indicator.
    + destruct ea as [v|ncols rows]; [done|].
      destruct Hok as (Hne & Hlen & Hpos & Hrows).
      destruct (one_hot_columns_ok ncols rows cards 0)
        as (blocks & Hblocks & Hblen & Hbsum & Hball).
      { lia. }
      { intros k card Hk. split.
        - by apply (proj1 (Forall_lookup _ _) Hpos k).
        - eapply Forall_impl; [exact Hrows|]. intros row Hrow; simpl.
          destruct (Forall2_lookup_r _ _ _ _ _ Hrow Hk) as (x & Hx & Hb).
          eauto. }
      destruct (cat_dim1_ok blocks (length rows)) as (t & Ht & Hw & Htl & Htc).
      { intros ->. by destruct cards. }
      { done. }
      destruct (one_hot_columns_blocks ncols rows cards 0)
        as (blocks' & Hblocks' & Ht'); [done|lia|done|done|].
      assert (t = Wide (Z.to_nat (sumZ cards)) (expand_row cards <$> rows))
        as Hexplicit.
      { rewrite Hblocks in Hblocks'. injection Hblocks' as <-.
        rewrite Ht in Ht'. by injection Ht' as ->. }
      exists (OH2 t). split; [|split; [apply Hfloat|split; [|split]]].
      * simpl. by rewrite Hblocks; simpl; rewrite Ht.
      * simpl. by rewrite Hblocks; simpl; rewrite Ht.
      * simpl. by rewrite length_fmap.
      * simpl. apply Forall_fmap.
        eapply Forall_impl; [exact Htc|].
        intros row [_ Hs]; simpl. rewrite Hs. congruence.
      * rewrite Hexplicit. simpl.
        assert (0 <= sumZ cards)%Z as Hsum.
        { apply sumZ_nonneg. eapply Forall_impl; [exact Hpos|]. simpl; lia. }
        split; [lia|]. apply Forall2_fmap_r.
        apply Forall_Forall2_diag.
        eapply Forall_impl; [exact Hrows|]. intros row Hrow; simpl in *.
        pose proof (Forall2_length _ _ _ Hrow) as Hrl.
        split; [by apply expand_row_length|].
        intros f card x k Hf Hx Hk.
        by apply (expand_row_entry cards row f card x k).
  - intros n x -> Hx Hneg. unfold edge_attr_one_hot; simpl.
    destruct ea as [v|ncols rows]; simpl in *.
    + unfold one_hot_1d.
      rewrite (one_hot_classes_negative _ n (x - 1)); [done| |lia].
      apply list_elem_of_fmap. eauto.
    + unfold one_hot_2d.
      rewrite (one_hot_classes_negative _ n (x - 1)); [done| |lia].
      rewrite concat_fmap_fmap. apply list_elem_of_fmap. eauto.
  - intros n x -> Hn Hx Hlt. unfold edge_attr_one_hot; simpl.
    destruct ea as [v|ncols rows]; simpl in *.
    + unfold one_hot_1d.
      rewrite (one_hot_classes_above _ n (x - 1)); [done| |done|lia].
      apply list_elem_of_fmap. eauto.
    + unfold one_hot_2d.
      rewrite (one_hot_classes_above _ n (x - 1)); [done| |done|lia].
      rewrite concat_fmap_fmap. apply list_elem_of_fmap. eauto.
  - intros ncols rows cards k card row x -> -> Hwf Hlen Hk Hrow Hx Hbad.
    unfold edge_attr_one_hot; simpl.
    by rewrite (one_hot_columns_outside ncols rows cards 0 k card row x).
Qed.

End OneHotFacts.

(** Both modes on small inputs: the edge attributes of [path3] under the
    cardinalities [[2, 2]], where the code 0 is a class, and a 1-D
    [edge_attr] under [num_edge_features = 3], once with a code 0 and once
    with a code 4. *)
Lemma edge_attr_one_hot_codes_witness :
  codes_ok (I2 2 [[0; 1]; [0; 1]; [1; 0]; [1; 0]]%Z) (NefSeq [2; 2]%Z)
  /\ (exists t,
        edge_attr_one_hot_int (edge_attr path3) (NefSeq [2; 2]%Z) = Ok t
        /\ edge_attr_one_hot (R := Q) (edge_attr path3) (NefSeq [2; 2]%Z)
           = Ok (float_tensor t)
        /\ length (row_sums t) = 4
        /\ Forall (fun s => s = 2%Z) (row_sums t)
        /\ marks_codes (I2 2 [[0; 1]; [0; 1]; [1; 0]; [1; 0]]%Z)
                       (NefSeq [2; 2]%Z) t)
  /\ edge_attr_one_hot (R := Q) (Some (I1 [1; 0; 2]%Z)) (NefInt 3)
     = Raise RuntimeError
  /\ edge_attr_one_hot (R := Q) (Some (I1 [1; 4; 2]%Z)) (NefInt 3)
     = Raise RuntimeError.
Proof.
  assert (codes_ok (I2 2 [[0; 1]; [0; 1]; [1; 0]; [1; 0]]%Z) (NefSeq [2; 2]%Z))
    as Hok.
  { simpl. split; [done|]. split; [reflexivity|].
    split; repeat constructor; lia. }
  split; [exact Hok|]. split; [|split].
  - exact (proj1 (edge_attr_one_hot_codes (R := Q)
                    (I2 2 [[0; 1]; [0; 1]; [1; 0]; [1; 0]]%Z)
                    (NefSeq [2; 2]%Z)) Hok).
  - apply (proj1 (proj2 (edge_attr_one_hot_codes (R := Q) (I1 [1; 0; 2]%Z)
                           (NefInt 3)))
             3%Z 0%Z); [reflexivity| |lia].
    simpl. apply elem_of_cons; right; apply elem_of_cons; by left.
  - apply (proj1 (proj2 (proj2 (edge_attr_one_hot_codes (R := Q)
                                  (I1 [1; 4; 2]%Z) (NefInt 3))))
             3%Z 4%Z); [reflexivity|lia| |lia].
    simpl. apply elem_of_cons; right; apply elem_of_cons; by left.
Defined.

Example edge_attr_one_hot_path3 :
  edge_attr_one_hot (R := Q) (edge_attr path3) (NefSeq [2; 2]%Z)
  = Ok (OH2 (Wide 4 [[1; 0; 0; 1]; [1; 0; 0; 1]; [0; 1; 1; 0]; [0; 1; 1; 0]]%Q))
  /\ edge_attr_one_hot (R := Q) (Some (I1 [1; 3; 2]%Z)) (NefInt 3)
     = Ok (OH2 (Wide 3 [[1; 0; 0]; [0; 0; 1]; [0; 1; 0]]%Q)).
Proof. split; reflexivity. Qed.

(** ** Shapes *)

Section ShapeFacts.
Context {R : Type} `{FloatOps R}.

Lemma shape_is_true (m : matrix R) r c :
  has_shape2 m r c -> shape_is m r c = true.
Proof.
  intros [Hr Hc]. unfold shape_is.
  apply andb_true_iff; split; [by apply bool_decide_eq_true|].
  apply forallb_forall. intros row Hrow%list_elem_of_In.
  apply Nat.eqb_eq. by apply (proj1 (Forall_forall _ _) Hc).
Qed.

Lemma shape_is_shape (m : matrix R) r c :
  shape_is m r c = true -> has_shape2 m r c.
Proof.
  unfold shape_is. intros [Hr Hc]%andb_true_iff. split.
  - by apply bool_decide_eq_true in Hr.
  - apply Forall_forall. intros row Hrow%list_elem_of_In.
    apply Nat.eqb_eq. by apply (proj1 (forallb_forall _ _) Hc).
Qed.

Lemma zeros_shape r c : has_shape2 (zeros (R := R) r c) r c.
Proof.
  unfold zeros. split; [by rewrite length_replicate|].
  apply Forall_replicate. by rewrite length_replicate.
Qed.

Lemma ones_shape r c : has_shape2 (ones (R := R) r c) r c.
Proof.
  unfold ones. split; [by rewrite length_replicate|].
  apply Forall_replicate. by rewrite length_replicate.
Qed.

Lemma identity_shape n : has_shape2 (identity (R := R) n) n n.
Proof.
  unfold identity. split; [by rewrite length_fmap, length_seq|].
  apply Forall_fmap, Forall_forall. intros i _; simpl.
  by rewrite length_insert, length_replicate.
Qed.

Lemma mscale_shape (beta : R) (L : matrix R) r c :
  has_shape2 L r c -> has_shape2 (mscale beta L) r c.
Proof.
  intros [Hr Hc]. unfold mscale. split; [by rewrite length_fmap|].
  apply Forall_fmap. eapply Forall_impl; [done|].
  intros row Hrow; simpl. by rewrite length_fmap.
Qed.

Lemma msub_shape (A B : matrix R) r c :
  has_shape2 A r c -> has_shape2 B r c -> has_shape2 (msub A B) r c.
Proof.
  intros [Ha Hac] [Hb Hbc]. unfold msub. split.
  - rewrite length_zip_with. lia.
  - apply Forall_lookup. intros i row Hi.
    apply lookup_zip_with_Some in Hi as (ra & rb & -> & H1 & H2).
    rewrite length_zip_with.
    rewrite (proj1 (Forall_lookup _ _) Hac _ _ H1).
    rewrite (proj1 (Forall_lookup _ _) Hbc _ _ H2). lia.
Qed.

Lemma ncols_shape (B : matrix R) n : has_shape2 B n n -> ncols B = n.
Proof.
  intros [Hr Hc]. destruct B as [|row B]; simpl in *; [done|].
  by apply Forall_cons in Hc as [-> _].
Qed.

Lemma mdot_shape (A B : matrix R) n :
  has_shape2 A n n -> has_shape2 B n n -> has_shape2 (mdot A B) n n.
Proof.
  intros [Ha _] HB. unfold mdot. split; [by rewrite length_fmap|].
  apply Forall_fmap, Forall_forall. intros row _; simpl.
  by rewrite length_fmap, length_seq, (ncols_shape B n).
Qed.

Lemma power_loop_shape (k : nat) (L tmp : matrix R) dots n :
  has_shape2 L n n -> has_shape2 tmp n n ->
  has_shape2 (PStepRWEncoding.power_loop k L tmp dots).1 n n.
Proof.
  intros HL. revert tmp dots; induction k as [|k IH]; intros tmp dots Ht; simpl.
  - done.
  - apply IH. by apply mdot_shape.
Qed.

Lemma add_at_shape (m : matrix R) i j w r c :
  has_shape2 m r c -> has_shape2 (add_at m i j w) r c.
Proof.
  intros [Hr Hc]. unfold add_at. split; [by rewrite length_alter|].
  apply Forall_lookup. intros k row Hk.
  destruct (decide (k = i)) as [->|Hne].
  - rewrite list_lookup_alter_eq in Hk.
    destruct (m !! i) as [row'|] eqn:Hm; simplify_eq/=.
    rewrite length_alter. by apply (proj1 (Forall_lookup _ _) Hc _ _ Hm).
  - rewrite list_lookup_alter_ne in Hk by done.
    by apply (proj1 (Forall_lookup _ _) Hc _ _ Hk).
Qed.

Lemma accumulate_shape (m : matrix R) ei ew r c :
  has_shape2 m r c -> has_shape2 (accumulate m ei ew) r c.
Proof.
  unfold accumulate. generalize (zip ei ew) as l.
  intros l; revert m; induction l as [|e l IH]; intros m Hm; simpl; [done|].
  apply IH. by apply add_at_shape.
Qed.

(** The node count inferred from an edge list. *)
Lemma infer_num_nodes_le (ei : list (nat * nat)) n :
  Forall (fun e => e.1 < n /\ e.2 < n) ei -> infer_num_nodes ei <= n.
Proof. induction 1 as [|e ei [? ?] _ IH]; simpl; lia. Qed.

Lemma infer_num_nodes_ge (ei : list (nat * nat)) e :
  e ∈ ei -> S (Nat.max e.1 e.2) <= infer_num_nodes ei.
Proof.
  induction ei as [|e' ei IH]; simpl; [by intros ?%elem_of_nil|].
  rewrite elem_of_cons. intros [->|He]; [lia|].
  specialize (IH He). lia.
Qed.

(** With a loop on every node the inferred count is the node count. *)
Lemma infer_num_nodes_loops (ei : list (nat * nat)) n :
  Forall (fun e => e.1 < n /\ e.2 < n) ei ->
  infer_num_nodes (ei ++ ((fun i => (i, i)) <$> seq 0 n)) = n.
Proof.
  intros Hei. apply Nat.le_antisymm.
  - apply infer_num_nodes_le, Forall_app; split; [done|].
    apply Forall_fmap, Forall_forall. intros i Hi%elem_of_seq; simpl. lia.
  - destruct n as [|n]; [lia|].
    pose proof (infer_num_nodes_ge
                  (ei ++ ((fun i => (i, i)) <$> seq 0 (S n))) (n, n)) as Hge.
    cbn [fst snd] in Hge. rewrite Nat.max_id in Hge. apply Hge.
    apply elem_of_app; right. apply list_elem_of_fmap.
    exists n; split; [done|]. apply elem_of_seq. lia.
Qed.

End ShapeFacts.

(** ** The Laplacian of a well-formed graph *)

Section LaplacianFacts.
Context {R : Type} `{FloatOps R}.

Lemma gather_ok {A} (v : list A) (idx : list nat) :
  Forall (fun i => i < length v) idx ->
  exists r, gather v idx = Ok r /\ length r = length idx.
Proof.
  unfold gather. induction 1 as [|i idx Hi _ (r & Hr & Hlen)]; simpl.
  - by exists [].
  - destruct (lookup_lt_is_Some_2 v i Hi) as [x ->]; simpl.
    rewrite Hr; simpl. exists (x :: r). by rewrite <- Hlen.
Qed.

Lemma scatter_add_ok (ew : list R) (rows : list nat) n :
  Forall (fun r => r < n) rows ->
  exists deg, scatter_add ew rows n = Ok deg /\ length deg = n.
Proof.
  intros Hrows. unfold scatter_add.
  assert (forallb (fun r => r <? n) rows = true) as ->.
  { apply forallb_forall. intros r Hr%list_elem_of_In.
    apply Nat.ltb_lt. by apply (proj1 (Forall_forall _ _) Hrows). }
  eexists; split; [done|].
  generalize (zip rows ew) as l.
  assert (length (replicate n (f0 (R := R))) = n) as Hlen
    by apply length_replicate.
  revert Hlen. generalize (replicate n (f0 (R := R))) as acc.
  intros acc Hacc l; revert acc Hacc.
  induction l as [|e l IH]; intros acc Hacc; simpl; [done|].
  apply IH. by rewrite length_alter.
Qed.

(** On a well-formed graph [get_laplacian] returns the edges it kept
    followed by one loop per node, with as many weights. *)
Lemma get_laplacian_ok (ei : list (nat * nat)) (ew : option (list R))
    normalization n :
  valid_normalization normalization ->
  edges_in_range ei n ->
  weights_fit ew ei ->
  exists ei' w',
    get_laplacian ei ew normalization n
    = Ok (ei' ++ ((fun i => (i, i)) <$> seq 0 n), w')
    /\ edges_in_range ei' n
    /\ length w' = length (ei' ++ ((fun i => (i, i)) <$> seq 0 n)).
Proof.
  intros Hnorm Hei Hfit. unfold get_laplacian.
  rewrite (bool_decide_eq_true_2 _ Hnorm); simpl.
  set (kept := match ew with
               | None => Ok ((fun e => (e, f1)) <$> filter (fun e => e.1 ≠ e.2) ei)
               | Some w =>
                   if decide (length w = length ei)
                   then Ok (filter (fun ew => ew.1.1 ≠ ew.1.2) (zip ei w))
                   else Raise IndexError
               end).
  assert (exists l, kept = Ok l /\ edges_in_range (fst <$> l) n)
    as (l & -> & Hl).
  { subst kept. destruct ew as [w|]; simpl in Hfit.
    - case_decide; [|done]. eexists; split; [done|].
      apply Forall_fmap, Forall_forall. intros [e x] He; simpl.
      apply list_elem_of_filter in He as [_ He].
      apply elem_of_zip_l in He.
      by apply (proj1 (Forall_forall _ _) Hei).
    - eexists; split; [done|].
      rewrite <- list_fmap_compose.
      apply Forall_fmap, Forall_forall. intros e He; simpl.
      apply list_elem_of_filter in He as [_ He].
      by apply (proj1 (Forall_forall _ _) Hei). }
  simpl.
  destruct (scatter_add_ok (snd <$> l) (fst <$> (fst <$> l)) n)
    as (deg & -> & Hdeg); simpl.
  { apply Forall_fmap. eapply Forall_impl; [exact Hl|]. by intros e [? ?]. }
  assert (length (seq 0 n) = n) as Hseq by apply length_seq.
  destruct Hnorm as [-> | [-> | ->]].
  - eexists _, _; split; [done|]. split; [done|].
    by rewrite !length_app, !length_fmap, Hdeg, Hseq.
  - case_decide; [|done].
    destruct (gather_ok (finvsqrt <$> deg) (fst <$> (fst <$> l)))
      as (dr & -> & Hdr); simpl.
    { rewrite length_fmap, Hdeg. apply Forall_fmap.
      eapply Forall_impl; [exact Hl|]. by intros e [? ?]. }
    destruct (gather_ok (finvsqrt <$> deg) (snd <$> (fst <$> l)))
      as (dc & -> & Hdc); simpl.
    { rewrite length_fmap, Hdeg. apply Forall_fmap.
      eapply Forall_impl; [exact Hl|]. by intros e [? ?]. }
    eexists _, _; split; [done|]. split; [done|].
    rewrite !length_app, !length_fmap, !length_zip_with, !length_fmap.
    rewrite length_replicate, Hdr, Hdc, !length_fmap, Hseq. lia.
  - case_decide; [done|].
    destruct (gather_ok (finv <$> deg) (fst <$> (fst <$> l)))
      as (dr & -> & Hdr); simpl.
    { rewrite length_fmap, Hdeg. apply Forall_fmap.
      eapply Forall_impl; [exact Hl|]. by intros e [? ?]. }
    eexists _, _; split; [done|]. split; [done|].
    rewrite !length_app, !length_fmap, !length_zip_with, !length_fmap.
    rewrite length_replicate, Hdr, !length_fmap, Hseq. lia.
Qed.

(** The Laplacian of a graph with [n] nodes is an [n x n] matrix. *)
Lemma laplacian_matrix_shape (ei : list (nat * nat)) (ew : option (list R))
    normalization n :
  valid_normalization normalization ->
  edges_in_range ei n ->
  weights_fit ew ei ->
  exists L, laplacian_matrix ei ew normalization n = Ok L /\ has_shape2 L n n.
Proof.
  intros Hnorm Hei Hfit. unfold laplacian_matrix.
  destruct (get_laplacian_ok ei ew normalization n Hnorm Hei Hfit)
    as (ei' & w' & -> & Hei' & Hlen); simpl.
  unfold to_scipy_sparse_matrix. case_decide; [|done].
  eexists; split; [done|].
  rewrite infer_num_nodes_loops by done.
  apply accumulate_shape, zeros_shape.
Qed.

End LaplacianFacts.

(** ** The eigenvector encoding *)

Lemma mapR_lookup_inv {A B} (f : A -> result B) l bs i b :
  mapR f l = Ok bs -> bs !! i = Some b ->
  exists a, l !! i = Some a /\ f a = Ok b.
Proof.
  revert bs i; induction l as [|a' l IH]; intros bs i; simpl.
  - by intros [= <-].
  - destruct (f a') as [b'|e] eqn:Hf; simpl; [|done].
    destruct (mapR f l) as [bs'|e]; simpl; [|done].
    intros [= <-]; destruct i as [|i]; simpl.
    + intros [= ->]; eauto.
    + intros Hi. by apply (IH bs' i eq_refl).
Qed.

(** [row[1:dim+1]] keeps at most [dim] entries, and one fewer than there
    are. *)
Lemma py_slice_from_1_length {A} (row : list A) (dim : Z) :
  (0 <= dim)%Z ->
  length (py_slice 1 (dim + 1) row)
  = Nat.min (Z.to_nat dim) (length row - 1).
Proof.
  intros Hdim. unfold py_slice, slice_bound.
  repeat case_decide; try lia.
  rewrite length_take, length_drop.
  generalize (length row). intros n. lia.
Qed.

Lemma py_slice_from_1_lookup {A} (row : list A) (dim : Z) j x :
  py_slice 1 (dim + 1) row !! j = Some x -> row !! (S j) = Some x.
Proof.
  unfold py_slice. intros Hj. apply lookup_take_Some in Hj as [Hj _].
  rewrite lookup_drop in Hj.
  destruct row as [|a row]; [by rewrite lookup_nil in Hj|].
  assert (slice_bound (length (a :: row)) 1 = 1) as Hone
    by (unfold slice_bound; case_decide; simpl; lia).
  by rewrite Hone in Hj.
Qed.

Section LapFacts.
Context {R : Type} `{FloatOps R} {E : Type}.
Variable eig : matrix R -> list E * matrix E.
Variable argsort : list E -> list nat.
Variable real : E -> R.
Variable laplacian_matrix_long :
  list (nat * nat) -> int_tensor -> option string -> nat -> result (matrix R).

Lemma take_columns_ok (m : matrix E) (idx : list nat) r c :
  has_shape2 m r c ->
  Forall (fun j => j < c) idx ->
  exists s,
    LapEncoding.take_columns m idx = Ok s
    /\ has_shape2 s r (length idx)
    /\ forall i j y, entry2 s i j = Some y ->
         exists k, idx !! j = Some k /\ entry2 m i k = Some y.
Proof.
  intros [Hr Hc] Hidx. unfold LapEncoding.take_columns.
  assert (forall row, row ∈ m ->
            exists s, gather row idx = Ok s /\ length s = length idx) as Hrow.
  { intros row Hrow. apply gather_ok.
    by rewrite (proj1 (Forall_forall _ _) Hc row Hrow). }
  assert (exists s, mapR (fun row => gather row idx) m = Ok s) as [s Hs].
  { clear Hr Hc. induction m as [|row m IH]; simpl; [by eexists|].
    destruct (Hrow row) as (s1 & -> & _); [by left|]; simpl.
    destruct IH as [s2 ->]; [|by eexists].
    intros row' Hrow'. apply Hrow. by right. }
  exists s. split; [exact Hs|]. split; [split|].
  - rewrite <- Hr. by eapply mapR_length.
  - apply Forall_lookup. intros i srow Hi.
    destruct (mapR_lookup_inv _ _ _ _ _ Hs Hi) as (row & Hrow' & Hg).
    destruct (Hrow row) as (s' & Hs' & Hlen).
    { by eapply list_elem_of_lookup_2. }
    congruence.
  - intros i j y. unfold entry2.
    destruct (s !! i) as [srow|] eqn:Hi; simpl; [|done].
    intros Hj.
    destruct (mapR_lookup_inv _ _ _ _ _ Hs Hi) as (row & -> & Hg); simpl.
    destruct (mapR_lookup_inv _ _ _ _ _ Hg Hj) as (k & Hk & Hy).
    exists k. split; [done|]. by destruct (row !! k); simplify_eq.
Qed.

(** C9, as the code has it.  On a well-formed graph to which no edge
    weights are passed ([use_edge_attr] is false, or the graph has no
    [edge_attr]), with a valid normalization and [dim >= 0],
    [np.linalg.eig] and [argsort] doing at the Laplacian what
    [eig_contract] says, [compute_pe] never fails: it returns the
    [[N, min(dim, N - 1)]] matrix ([N = num_nodes]) whose column [j] is the
    real part of the eigenvector at position [j + 2] of the argsort order.
    So the matrix is [[N, dim]] when [dim + 1 <= N], and when [dim + 1 > N]
    no error is raised and the matrix has [N - 1] columns. *)
Theorem lap_compute_pe_truncates (dim : Z) (use_attr : bool)
    normalization (g : graph) :
  valid_normalization normalization ->
  edges_in_range (edge_index g) (num_nodes g) ->
  LapEncoding.edge_weight_of use_attr g = None ->
  (0 <= dim)%Z ->
  (forall L,
     laplacian_matrix (edge_index g) None normalization (num_nodes g) = Ok L ->
     eig_contract eig argsort L (num_nodes g)) ->
  exists L pe,
    laplacian_matrix (edge_index g) None normalization (num_nodes g) = Ok L
    /\ has_shape2 L (num_nodes g) (num_nodes g)
    /\ LapEncoding.compute_pe eig argsort real laplacian_matrix_long
         dim use_attr normalization g
       = Ok (T2 pe)
    /\ has_shape2 pe (num_nodes g) (Nat.min (Z.to_nat dim) (num_nodes g - 1))
    /\ ((dim + 1 <= Z.of_nat (num_nodes g))%Z ->
        has_shape2 pe (num_nodes g) (Z.to_nat dim))
    /\ ((Z.of_nat (num_nodes g) < dim + 1)%Z ->
        has_shape2 pe (num_nodes g) (num_nodes g - 1))
    /\ forall i j x, entry2 pe i j = Some x ->
         exists k y,
           argsort (eig L).1 !! (S j) = Some k
           /\ entry2 (eig L).2 i k = Some y /\ x = real y.
Proof.
  intros Hnorm Hei Hew Hdim Heig.
  destruct (laplacian_matrix_shape _ None normalization _ Hnorm Hei I)
    as (L & HL & Hshape).
  destruct (Heig L HL) as (Hval & Hvec & Hidx & Hrange).
  destruct (take_columns_ok (eig L).2 (argsort (eig L).1) _ _ Hvec Hrange)
    as (s & Hs & [Hsr Hsc] & Hentries).
  assert (has_shape2
            ((fun row : list R => py_slice 1 (dim + 1) row)
               <$> ((fun row : list E => real <$> row) <$> s))
            (num_nodes g) (Nat.min (Z.to_nat dim) (num_nodes g - 1))) as Hpe.
  { split; [by rewrite !length_fmap|].
    rewrite <- list_fmap_compose. apply Forall_fmap.
    eapply Forall_impl; [exact Hsc|]. intros row Hrow; simpl.
    rewrite py_slice_from_1_length by done.
    by rewrite length_fmap, Hrow, Hidx. }
  exists L. eexists. split; [done|]. split; [done|]. split.
  { unfold LapEncoding.compute_pe, LapEncoding.laplacian_of.
    rewrite Hew, HL; simpl. by rewrite Hs. }
  split; [exact Hpe|]. split; [|split].
  - intros Hle.
    assert (Nat.min (Z.to_nat dim) (num_nodes g - 1) = Z.to_nat dim) as Hmin
      by lia.
    by rewrite Hmin in Hpe.
  - intros Hgt.
    assert (Nat.min (Z.to_nat dim) (num_nodes g - 1) = num_nodes g - 1) as Hmin
      by lia.
    by rewrite Hmin in Hpe.
  - intros i j x. unfold entry2. rewrite !list_lookup_fmap.
    destruct (s !! i) as [srow|] eqn:Hi; simpl; [|done].
    intros Hx%py_slice_from_1_lookup. rewrite list_lookup_fmap in Hx.
    destruct (srow !! S j) as [y|] eqn:Hy; simplify_eq/=.
    destruct (Hentries i (S j) y) as (k & Hk & Hm).
    { unfold entry2. by rewrite Hi. }
    exists k, y. done.
Qed.

(** [LapEncoding.apply_to] stores the encodings in order and stops at the
    first exception of [compute_pe]. *)
Lemma lap_apply_to_run (dim : Z) (use_attr : bool) normalization ds :
  LapEncoding.apply_to eig argsort real laplacian_matrix_long dim use_attr normalization ds
  = let r := runR (LapEncoding.compute_pe eig argsort real laplacian_matrix_long dim use_attr
                                          normalization) ds in
    (outcome tt r.2, LapEncoding.LapFields r.1 dim).
Proof.
  unfold LapEncoding.apply_to.
  assert (forall acc,
            LapEncoding.apply_loop eig argsort real laplacian_matrix_long dim use_attr normalization
                                   ds acc
            = let r := runR (LapEncoding.compute_pe eig argsort real laplacian_matrix_long dim
                                                    use_attr normalization) ds in
              (outcome tt r.2, acc ++ r.1)) as Hloop.
  { induction ds as [|g ds IH]; intros acc; simpl.
    - by rewrite app_nil_r.
    - destruct (LapEncoding.compute_pe eig argsort real laplacian_matrix_long dim use_attr
                                       normalization g) as [pe|e]; simpl.
      + rewrite IH; simpl. by rewrite <- app_assoc.
      + by rewrite app_nil_r. }
  by rewrite Hloop.
Qed.

End LapFacts.

(** C9 as claimed does not hold: with [dim = 5] on a graph of 2 nodes
    ([dim + 1 > num_nodes]) [compute_pe] raises nothing.  The graph has no
    edge, its Laplacian is the zero matrix, whose eigenvectors are the unit
    vectors; the slice [EigVec[:, 1:6]] keeps the one column there is after
    the first. *)
Lemma lap_compute_pe_no_error :
  (Z.of_nat (num_nodes isolated2) < 5 + 1)%Z
  /\ laplacian_matrix (R := Q) (edge_index isolated2) None None 2
     = Ok [[0; 0]; [0; 0]]%Q
  /\ LapEncoding.compute_pe diag_eig Q_argsort (fun x : Q => x) long_unused
       5 false None isolated2
     = Ok (T2 [[0]; [1]]%Q)
  /\ ~ (exists e,
          LapEncoding.compute_pe diag_eig Q_argsort (fun x : Q => x) long_unused
            5 false None isolated2
          = Raise e).
Proof.
  split; [simpl; lia|]. split; [reflexivity|]. split; [reflexivity|].
  intros [e He]. vm_compute in He. discriminate He.
Qed.

Lemma lap_compute_pe_truncates_witness :
  valid_normalization None
  /\ edges_in_range (edge_index isolated2) (num_nodes isolated2)
  /\ LapEncoding.edge_weight_of false isolated2 = None
  /\ (0 <= 5)%Z
  /\ (forall L,
        laplacian_matrix (R := Q) (edge_index isolated2) None None
                         (num_nodes isolated2) = Ok L ->
        eig_contract diag_eig Q_argsort L (num_nodes isolated2))
  /\ exists L pe,
      laplacian_matrix (R := Q) (edge_index isolated2) None None
                       (num_nodes isolated2) = Ok L
      /\ has_shape2 L (num_nodes isolated2) (num_nodes isolated2)
      /\ LapEncoding.compute_pe diag_eig Q_argsort (fun x : Q => x) long_unused
           5 false None isolated2
         = Ok (T2 pe)
      /\ has_shape2 pe (num_nodes isolated2)
                    (Nat.min (Z.to_nat 5) (num_nodes isolated2 - 1))
      /\ ((5 + 1 <= Z.of_nat (num_nodes isolated2))%Z ->
          has_shape2 pe (num_nodes isolated2) (Z.to_nat 5))
      /\ ((Z.of_nat (num_nodes isolated2) < 5 + 1)%Z ->
          has_shape2 pe (num_nodes isolated2) (num_nodes isolated2 - 1))
      /\ forall i j x, entry2 pe i j = Some x ->
           exists k y,
             Q_argsort (diag_eig L).1 !! (S j) = Some k
             /\ entry2 (diag_eig L).2 i k = Some y /\ x = y.
Proof.
  assert (forall L,
            laplacian_matrix (R := Q) (edge_index isolated2) None None
                             (num_nodes isolated2) = Ok L ->
            eig_contract diag_eig Q_argsort L (num_nodes isolated2)) as Heig.
  { intros L HL. vm_compute in HL. injection HL as <-.
    split; [reflexivity|]. split; [split; [reflexivity|repeat constructor]|].
    split; [reflexivity|]. vm_compute. repeat constructor. }
  split; [by left|]. split; [constructor|]. split; [reflexivity|].
  split; [lia|]. split; [exact Heig|].
  apply (lap_compute_pe_truncates diag_eig Q_argsort (fun x : Q => x) long_unused
           5 false None isolated2);
    [by left|constructor|reflexivity|lia|exact Heig].
Defined.

(** The eigenvalue contract holds of the stand-ins at that Laplacian. *)
Example isolated2_eig :
  length (diag_eig [[0; 0]; [0; 0]]%Q).1 = 2
  /\ has_shape2 (diag_eig [[0; 0]; [0; 0]]%Q).2 2 2
  /\ Q_argsort (diag_eig [[0; 0]; [0; 0]]%Q).1 = [0; 1].
Proof.
  split; [reflexivity|]. split; [|reflexivity].
  split; [reflexivity|]. repeat constructor.
Qed.

(** ** Multi-channel encodings *)

Section ChannelFacts.
Context {R : Type} `{FloatOps R}.

(** Sequence mode on well-formed codes: a 2-D tensor with one row per edge,
    as wide as the cardinalities add up to. *)
Lemma edge_attr_one_hot_seq_shape (ncols : nat) (rows : list (list Z)) cards :
  codes_ok (I2 ncols rows) (NefSeq cards) ->
  exists t,
    edge_attr_one_hot (R := R) (Some (I2 ncols rows)) (NefSeq cards)
    = Ok (float_tensor (OH2 t))
    /\ Z.of_nat (width t) = sumZ cards
    /\ length (wide_rows t) = length rows
    /\ Forall (fun row => length row = width t) (wide_rows t).
Proof.
  intros (Hne & Hlen & Hpos & Hrows).
  destruct (one_hot_columns_ok ncols rows cards 0)
    as (blocks & Hblocks & Hblen & Hbsum & Hball).
  { lia. }
  { intros k card Hk. split.
    - by apply (proj1 (Forall_lookup _ _) Hpos k).
    - eapply Forall_impl; [exact Hrows|]. intros row Hrow; simpl.
      destruct (Forall2_lookup_r _ _ _ _ _ Hrow Hk) as (x & Hx & Hb).
      eauto. }
  destruct (cat_dim1_ok blocks (length rows)) as (t & Ht & Hw & Htl & Htc).
  { intros ->. by destruct cards. }
  { done. }
  exists t. unfold edge_attr_one_hot; simpl.
  rewrite Hblocks; simpl. rewrite Ht; simpl.
  split; [done|]. split; [congruence|]. split; [done|].
  eapply Forall_impl; [exact Htc|]. by intros row [? _].
Qed.

Lemma weight_column_ok (t : wide Z) (i : nat) :
  i < width t ->
  Forall (fun row => length row = width t) (wide_rows t) ->
  exists w,
    weight_column (R := R) (float_tensor (OH2 t)) i = Ok w
    /\ length w = length (wide_rows t).
Proof.
  intros Hi Hrows. simpl. case_decide; [|lia].
  rewrite mapR_fmap.
  assert (forall l : list (list Z),
            Forall (fun row => length row = width t) l ->
            exists w,
              mapR (fun a : list Z =>
                      match (fofZ <$> a) !! i with
                      | Some x => Ok x
                      | None => Raise IndexError
                      end) l = Ok w
              /\ length w = length l) as Hgen.
  { induction 1 as [|row l Hrow _ (w & Hw & Hlen)]; simpl; [by exists []|].
    rewrite list_lookup_fmap.
    destruct (lookup_lt_is_Some_2 row i) as [x ->]; [lia|]; simpl.
    rewrite Hw; simpl. eexists; split; [done|]. simpl. by rewrite Hlen. }
  by apply Hgen.
Qed.

(** The channel loop: when every column gives an [n x n] encoding, every
    index of the loop receives its encoding and the other channels are left
    alone. *)
Lemma fill_channels_ok
    (from_edge_weight : list R -> result (tensor R))
    (edge_attr_list : one_hot_tensor R) (n : nat) (idx : list nat)
    (pe_tensors : list (matrix R)) :
  NoDup idx ->
  Forall (fun i => i < length pe_tensors) idx ->
  Forall (fun i => exists w m,
            weight_column edge_attr_list i = Ok w
            /\ from_edge_weight w = Ok (T2 m) /\ has_shape2 m n n) idx ->
  exists t,
    fill_channels from_edge_weight edge_attr_list n idx pe_tensors = Ok t
    /\ length t = length pe_tensors
    /\ (forall i, i ∈ idx ->
          exists w m,
            weight_column edge_attr_list i = Ok w
            /\ from_edge_weight w = Ok (T2 m) /\ has_shape2 m n n
            /\ t !! i = Some m)
    /\ (forall i, i ∉ idx -> t !! i = pe_tensors !! i).
Proof.
  revert pe_tensors.
  induction idx as [|i idx IH]; intros pe_tensors Hnd Hlt Hcols; simpl.
  - exists pe_tensors. split; [done|]. split; [done|]. split; [|done].
    by intros i ?%elem_of_nil.
  - apply NoDup_cons in Hnd as [Hi Hnd].
    apply Forall_cons in Hlt as [Hilt Hlt].
    apply Forall_cons in Hcols as [(w & m & Hw & Hm & Hshape) Hcols].
    rewrite Hw; simpl. rewrite Hm; simpl.
    rewrite (shape_is_true _ _ _ Hshape); simpl.
    destruct (IH (<[i := m]> pe_tensors)) as (t & Ht & Hlen & Hin & Hout).
    { done. }
    { by rewrite length_insert. }
    { done. }
    exists t. split; [done|]. rewrite length_insert in Hlen.
    split; [done|]. split.
    + intros j [->|Hj]%elem_of_cons; [|by apply Hin].
      exists w, m. split; [done|]. split; [done|]. split; [done|].
      rewrite (Hout i Hi). by apply list_lookup_insert_eq.
    + intros j Hj%not_elem_of_cons. destruct Hj as [Hne Hj].
      rewrite (Hout j Hj). by apply list_lookup_insert_ne.
Qed.

(** [compute_pe] with [use_edge_attr] and a sequence of cardinalities, for
    any kernel that turns a weight per edge into an [N x N] matrix. *)
Lemma compute_pe_channels_ok
    (from_edge_weight :
       list (nat * nat) -> option (list R) -> nat -> result (tensor R))
    (g : graph) ncols rows cards :
  (forall w, length w = length (edge_index g) ->
     exists m,
       from_edge_weight (edge_index g) (Some w) (num_nodes g) = Ok (T2 m)
       /\ has_shape2 m (num_nodes g) (num_nodes g)) ->
  edge_attr g = Some (I2 ncols rows) ->
  length rows = length (edge_index g) ->
  codes_ok (I2 ncols rows) (NefSeq cards) ->
  exists t,
    compute_pe_channels from_edge_weight true (NefSeq cards) g = Ok (T3 t)
    /\ has_shape3 t (Z.to_nat (sumZ cards)) (num_nodes g) (num_nodes g)
    /\ channel_encodings from_edge_weight g (NefSeq cards) t.
Proof.
  intros Hkernel Hea Hlen Hcodes.
  destruct (edge_attr_one_hot_seq_shape ncols rows cards Hcodes)
    as (t0 & Hoh & Hw & Hrows & Hwide).
  assert (Z.to_nat (sumZ cards) = width t0) as HC by lia.
  unfold compute_pe_channels. rewrite Hea, Hoh.
  cbn [rbind num_edge_features_true].
  case_decide; [lia|]. rewrite HC.
  destruct (fill_channels_ok
              (fun w => from_edge_weight (edge_index g) (Some w) (num_nodes g))
              (float_tensor (OH2 t0)) (num_nodes g) (seq 0 (width t0))
              (replicate (width t0) (zeros (num_nodes g) (num_nodes g))))
    as (t & Ht & Htlen & Hin & _).
  { apply NoDup_seq. }
  { rewrite length_replicate. apply Forall_forall.
    intros i Hi%elem_of_seq. lia. }
  { apply Forall_forall. intros i Hi%elem_of_seq.
    destruct (weight_column_ok t0 i) as (w & Hwc & Hwl); [lia|done|].
    destruct (Hkernel w) as (m & Hm & Hshape); [congruence|].
    by exists w, m. }
  rewrite length_replicate in Htlen.
  rewrite Ht; simpl. exists t. split; [done|]. split; [split; [done|]|].
  - apply Forall_lookup. intros i m Hi.
    destruct (Hin i) as (w & m' & _ & _ & Hshape & Hm').
    { apply elem_of_seq. apply lookup_lt_Some in Hi. lia. }
    congruence.
  - exists (float_tensor (OH2 t0)). split; [by rewrite Hea|].
    intros i Hi. destruct (Hin i) as (w & m & Hwc & Hm & _ & Hti).
    { apply elem_of_seq. lia. }
    by exists w, m.
Qed.

(** The P-step kernel of a well-formed graph is an [N x N] matrix. *)
Lemma pstep_from_edge_weight_shape (p : Z) (beta : R) normalization ei ew n :
  valid_normalization normalization ->
  edges_in_range ei n ->
  weights_fit ew ei ->
  exists m,
    PStepRWEncoding.compute_pe_from_edge_weight p beta normalization ei ew n
    = Ok (T2 m)
    /\ has_shape2 m n n.
Proof.
  intros Hnorm Hei Hfit.
  destruct (laplacian_matrix_shape ei ew normalization n Hnorm Hei Hfit)
    as (L & HL & Hshape).
  unfold PStepRWEncoding.compute_pe_from_edge_weight,
    PStepRWEncoding.compute_pe_from_edge_weight_counted.
  rewrite HL; simpl. eexists; split; [done|].
  assert (has_shape2 (PStepRWEncoding.base_matrix beta L) n n) as HM.
  { unfold PStepRWEncoding.base_matrix. apply msub_shape.
    - rewrite (proj1 Hshape). apply identity_shape.
    - by apply mscale_shape. }
  by apply power_loop_shape.
Qed.

(** So is the diffusion kernel, [expm] keeping the shape of its argument. *)
Lemma diffusion_from_edge_weight_shape (expm : matrix R -> matrix R)
    (beta : R) normalization ei ew n :
  (forall m k, has_shape2 m k k -> has_shape2 (expm m) k k) ->
  valid_normalization normalization ->
  edges_in_range ei n ->
  weights_fit ew ei ->
  exists m,
    DiffusionEncoding.compute_pe_from_edge_weight expm beta normalization ei ew n
    = Ok (T2 m)
    /\ has_shape2 m n n.
Proof.
  intros Hexpm Hnorm Hei Hfit.
  destruct (laplacian_matrix_shape ei ew normalization n Hnorm Hei Hfit)
    as (L & HL & Hshape).
  unfold DiffusionEncoding.compute_pe_from_edge_weight.
  rewrite HL; simpl. eexists; split; [done|].
  by apply Hexpm, mscale_shape.
Qed.

(** C7. Multi-channel encodings: for a well-formed graph whose edge
    attributes are an [E x F] tensor of codes within the [F] cardinalities
    given, and an encoder (Diffusion or P-step) with [use_edge_attr=True],
    [compute_pe] returns a tensor of shape [[C, N, N]], [C] the sum of the
    cardinalities, whose channel [i] is the encoding built with column [i]
    of the one-hot expansion as edge weights. *)
Theorem compute_pe_channel_count (expm : matrix R -> matrix R)
    (p : Z) (beta : R) normalization (g : graph) ncols rows cards :
  (forall m k, has_shape2 m k k -> has_shape2 (expm m) k k) ->
  valid_normalization normalization ->
  edges_in_range (edge_index g) (num_nodes g) ->
  edge_attr g = Some (I2 ncols rows) ->
  length rows = length (edge_index g) ->
  codes_ok (I2 ncols rows) (NefSeq cards) ->
  (exists t,
     compute_pe (DiffusionEncoding.make expm None beta true normalization
                                        false (NefSeq cards)) g
     = Ok (T3 t)
     /\ has_shape3 t (Z.to_nat (sumZ cards)) (num_nodes g) (num_nodes g)
     /\ channel_encodings
          (DiffusionEncoding.compute_pe_from_edge_weight expm beta normalization)
          g (NefSeq cards) t)
  /\ (exists t,
       compute_pe (PStepRWEncoding.make None p beta true normalization
                                        false (NefSeq cards)) g
       = Ok (T3 t)
       /\ has_shape3 t (Z.to_nat (sumZ cards)) (num_nodes g) (num_nodes g)
       /\ channel_encodings
            (PStepRWEncoding.compute_pe_from_edge_weight p beta normalization)
            g (NefSeq cards) t).
Proof.
  intros Hexpm Hnorm Hei Hea Hlen Hcodes. split.
  - apply (compute_pe_channels_ok _ g ncols rows cards); try done.
    intros w Hw. by apply diffusion_from_edge_weight_shape.
  - apply (compute_pe_channels_ok _ g ncols rows cards); try done.
    intros w Hw. by apply pstep_from_edge_weight_shape.
Qed.

End ChannelFacts.

Lemma expm_order1_shape (m : matrix Q) k :
  has_shape2 m k k -> has_shape2 (expm_order1 m) k k.
Proof.
  intros Hm. unfold expm_order1. apply msub_shape.
  - rewrite (proj1 Hm). apply identity_shape.
  - by apply mscale_shape.
Qed.

(** The cardinalities [[4, 6]] of the specification's example, on
    [triangle]. *)
Lemma compute_pe_channel_count_witness :
  (forall m k, has_shape2 m k k -> has_shape2 (expm_order1 m) k k)
  /\ valid_normalization None
  /\ edges_in_range (edge_index triangle) (num_nodes triangle)
  /\ edge_attr triangle
     = Some (I2 2 [[0; 5]; [0; 5]; [3; 0]; [3; 0]; [1; 2]; [1; 2]]%Z)
  /\ length [[0; 5]; [0; 5]; [3; 0]; [3; 0]; [1; 2]; [1; 2]]%Z
     = length (edge_index triangle)
  /\ codes_ok (I2 2 [[0; 5]; [0; 5]; [3; 0]; [3; 0]; [1; 2]; [1; 2]]%Z)
              (NefSeq [4; 6]%Z)
  /\ (exists t,
        compute_pe (DiffusionEncoding.make expm_order1 None (1 # 2) true None
                                           false (NefSeq [4; 6]%Z)) triangle
        = Ok (T3 t)
        /\ has_shape3 t (Z.to_nat (sumZ [4; 6]%Z))
                      (num_nodes triangle) (num_nodes triangle)
        /\ channel_encodings
             (DiffusionEncoding.compute_pe_from_edge_weight
                expm_order1 (1 # 2) None)
             triangle (NefSeq [4; 6]%Z) t)
  /\ (exists t,
        compute_pe (PStepRWEncoding.make None 2 (1 # 2) true None
                                         false (NefSeq [4; 6]%Z)) triangle
        = Ok (T3 t)
        /\ has_shape3 t (Z.to_nat (sumZ [4; 6]%Z))
                      (num_nodes triangle) (num_nodes triangle)
        /\ channel_encodings
             (PStepRWEncoding.compute_pe_from_edge_weight 2 (1 # 2) None)
             triangle (NefSeq [4; 6]%Z) t).
Proof.
  assert (codes_ok (I2 2 [[0; 5]; [0; 5]; [3; 0]; [3; 0]; [1; 2]; [1; 2]]%Z)
                   (NefSeq [4; 6]%Z)) as Hcodes.
  { simpl. split; [done|]. split; [reflexivity|].
    split; repeat constructor; lia. }
  assert (edges_in_range (edge_index triangle) (num_nodes triangle)) as Hrange.
  { unfold edges_in_range; simpl. repeat constructor; simpl; lia. }
  split; [exact expm_order1_shape|]. split; [by left|].
  split; [exact Hrange|]. split; [reflexivity|]. split; [reflexivity|].
  split; [exact Hcodes|].
  apply (compute_pe_channel_count expm_order1 2 (1 # 2) None triangle 2
           [[0; 5]; [0; 5]; [3; 0]; [3; 0]; [1; 2]; [1; 2]]%Z [4; 6]%Z
           expm_order1_shape (or_introl eq_refl) Hrange eq_refl eq_refl Hcodes).
Defined.

Example triangle_ten_channels :
  exists t,
    PStepRWEncoding.compute_pe (R := Q) 2 (1 # 2) true None (NefSeq [4; 6]%Z)
                               triangle
    = Ok (T3 t)
    /\ length t = 10
    /\ t !! 0 = Some [[1 # 2; 1 # 2; 0]; [1 # 2; 1 # 2; 0]; [0; 0; 1]]%Q
    /\ num_edge_features_true (NefSeq [4; 6]%Z) = 10%Z.
Proof. eexists. split; [vm_compute; reflexivity|]. by repeat split. Qed.

(** ** The shape of the adjacency encoding *)

(** X20. [AdjEncoding.compute_pe] returns, for every graph, a batch of one square
    matrix whose side is inferred from the edges. *)
Lemma adj_compute_pe_shape {R : Type} `{FloatOps R} (g : graph) :
  exists a,
    AdjEncoding.compute_pe (R := R) g = Ok (T3 [a])
    /\ has_shape2 a (infer_num_nodes (edge_index g))
                  (infer_num_nodes (edge_index g))
    /\ (edges_in_range (edge_index g) (num_nodes g) ->
        infer_num_nodes (edge_index g) <= num_nodes g).
Proof.
  eexists. split; [reflexivity|]. split.
  - apply accumulate_shape, zeros_shape.
  - apply infer_num_nodes_le.
Qed.

(** * Further properties of the module *)

(** ** More on the caching protocol *)

Lemma runR_app {A B} (f : A -> result B) l1 l2 bs :
  mapR f l1 = Ok bs ->
  runR f (l1 ++ l2) = (bs ++ (runR f l2).1, (runR f l2).2).
Proof.
  revert bs; induction l1 as [|a l1 IH]; intros bs; simpl.
  - intros [= <-]. by destruct (runR f l2).
  - destruct (f a) as [b|e]; simpl; [|done].
    destruct (mapR f l1) as [bs'|e]; simpl; [|done].
    intros [= <-]. by rewrite (IH bs' eq_refl).
Qed.

(** For one savepath, different splits have different cache files. *)
Lemma cache_path_inj (sp split split' : string) :
  cache_path sp split = cache_path sp split' -> split = split'.
Proof.
  unfold cache_path. intros Heq.
  apply (inj (String.append sp)) in Heq.
  by apply (inj (String.append ".")) in Heq.
Qed.

Section ProtocolMore.
Context {R : Type} `{FloatOps R} {blob : Type}.
Variable pickle_dump : list (tensor R) -> blob.
Variable pickle_load : blob -> result (option (list (tensor R))).
Variable open_wb : string -> result unit.

#[local] Abbreviation run := (apply_to pickle_dump pickle_load open_wb).

(** [apply_to] of an encoder without savepath. *)
Lemma apply_to_nocache_run (self : PositionEncoding) ds split w :
  savepath self = None ->
  run self ds split w =
  let r := runR (miss_step self) ds in
  (outcome tt r.2,
   World (files w) (Some r.1.*2)
         (compute_calls w + length r.1
          + match r.2 with Some _ => 1 | None => 0 end)).
Proof.
  intros Hsp. unfold apply_to.
  unfold bind at 1, load; simpl. rewrite Hsp.
  unfold bind at 1, reset_pe_list; simpl.
  unfold bind at 1.
  rewrite (apply_loop_miss self ds 0 [] _ []) by done; simpl.
  destruct (runR (miss_step self) ds) as [ps o]; simpl.
  destruct o as [e|]; simpl; [done|].
  unfold save; simpl. by rewrite Hsp.
Qed.

(** X1. A call that raises has written nothing: an exception of [compute_pe]
    or of the zero-diagonal step comes before [save], and [save] itself
    raises only where [open] does, before anything is written; so no
    partial cache is left. *)
Theorem apply_to_failure_keeps_files (self : PositionEncoding) ds split w e :
  (run self ds split w).1 = Raise e ->
  files (run self ds split w).2 = files w.
Proof.
  destruct (savepath self) as [sp|] eqn:Hsp.
  - destruct (files w !! cache_path sp split) as [X|] eqn:Hfile.
    + rewrite (apply_to_hit_run _ _ _ self ds split w sp X Hsp Hfile).
      by destruct (pickle_load X) as [[saved|]|e'].
    + rewrite (apply_to_miss_run _ _ _ self ds split w sp Hsp Hfile).
      destruct (runR (miss_step self) ds) as [ps [e'|]]; simpl; [done|].
      by destruct (open_wb (cache_path sp split)) as [[]|e'].
  - intros _. by apply apply_to_without_savepath.
Qed.

(** X2. Without a savepath [apply_to] never reads or writes a file and computes
    every encoding on every call. *)
Theorem apply_to_without_cache (self : PositionEncoding) ds split w
    computed masked :
  savepath self = None ->
  mapR (compute_pe self) ds = Ok computed ->
  mapR (mask self) computed = Ok masked ->
  run self ds split w
  = (Ok tt, World (files w) (Some masked) (compute_calls w + length ds)).
Proof.
  intros Hsp Hc Hm. rewrite (apply_to_nocache_run self ds split w Hsp).
  pose proof (miss_steps_join _ _ _ _ Hc Hm) as Hr.
  apply runR_mapR in Hr. rewrite Hr; simpl.
  pose proof (mapR_length _ _ _ Hc). pose proof (mapR_length _ _ _ Hm).
  rewrite snd_zip, length_zip by lia. world_eq.
Qed.

(** X3. A call touches at most the cache file of its own split: the caches of
    the other splits of the same savepath keep their content, or their
    absence. *)
Theorem apply_to_other_splits_untouched
    (self : PositionEncoding) ds split split' w sp :
  savepath self = Some sp ->
  split' <> split ->
  files (run self ds split w).2 !! cache_path sp split'
  = files w !! cache_path sp split'.
Proof.
  intros Hsp Hne.
  destruct (files w !! cache_path sp split) as [X|] eqn:Hfile.
  - rewrite (apply_to_hit_run _ _ _ self ds split w sp X Hsp Hfile).
    by destruct (pickle_load X) as [[saved|]|e'].
  - rewrite (apply_to_miss_run _ _ _ self ds split w sp Hsp Hfile).
    destruct (runR (miss_step self) ds) as [ps [e'|]]; simpl; [done|].
    destruct (open_wb (cache_path sp split)) as [[]|e']; simpl; [|done].
    apply lookup_insert_ne. intros Heq. by apply cache_path_inj in Heq.
Qed.

(** X4. A cache with fewer entries than the dataset has graphs: the entries
    there are are used, then [saved_pos_enc[i]] raises [IndexError]; nothing
    is recomputed and the file stays as it is. *)
Theorem apply_to_short_cache (self : PositionEncoding) ds split w sp X
    cached masked :
  savepath self = Some sp ->
  files w !! cache_path sp split = Some X ->
  pickle_load X = Ok (Some cached) ->
  length cached < length ds ->
  mapR (mask self) cached = Ok masked ->
  run self ds split w
  = (Raise IndexError, World (files w) (Some masked) (compute_calls w)).
Proof.
  intros Hsp Hfile Hload Hlen Hm.
  rewrite (apply_to_hit_run _ _ _ self ds split w sp X Hsp Hfile), Hload.
  replace (length ds)
    with (length cached + S (length ds - S (length cached))) by lia.
  rewrite seq_app.
  assert (hit_step self cached (length cached) = Raise IndexError) as Hend.
  { unfold hit_step, getitem.
    by rewrite (lookup_ge_None_2 cached (length cached)) by lia. }
  rewrite (runR_app _ _ _ masked).
  - simpl. rewrite Hend; simpl. by rewrite app_nil_r.
  - rewrite hit_steps_take by lia. by rewrite firstn_all.
Qed.

(** X5. A call that returns has put exactly one encoding per graph in
    [pe_list], whichever path it took. *)
Theorem apply_to_pe_list_aligned (self : PositionEncoding) ds split w w' :
  run self ds split w = (Ok tt, w') ->
  exists l, pe_list w' = Some l /\ length l = length ds.
Proof.
  assert (forall (ps : list (tensor R * tensor R)) o,
            runR (miss_step self) ds = (ps, o) -> o = None ->
            length ps.*2 = length ds) as Hmiss.
  { intros ps o Hr ->. rewrite length_fmap. by eapply runR_length_ok. }
  destruct (savepath self) as [sp|] eqn:Hsp.
  - destruct (files w !! cache_path sp split) as [X|] eqn:Hfile.
    + rewrite (apply_to_hit_run _ _ _ self ds split w sp X Hsp Hfile).
      destruct (pickle_load X) as [[saved|]|e']; simpl; [| |done].
      * destruct (runR (hit_step self saved) (seq 0 (length ds)))
          as [ms [e'|]] eqn:Hr; simpl; [done|].
        intros [= <-]; simpl. eexists; split; [done|].
        apply runR_length_ok in Hr. by rewrite length_seq in Hr.
      * destruct (runR (miss_step self) ds) as [ps [e'|]] eqn:Hr; simpl;
          [done|].
        intros [= <-]; simpl. eexists; split; [done|]. by eapply Hmiss.
    + rewrite (apply_to_miss_run _ _ _ self ds split w sp Hsp Hfile).
      destruct (runR (miss_step self) ds) as [ps [e'|]] eqn:Hr; simpl; [done|].
      destruct (open_wb (cache_path sp split)) as [[]|e']; [|done].
      intros [= <-]; simpl. eexists; split; [done|]. by eapply Hmiss.
  - rewrite (apply_to_nocache_run self ds split w Hsp).
    destruct (runR (miss_step self) ds) as [ps [e'|]] eqn:Hr; simpl; [done|].
    intros [= <-]; simpl. eexists; split; [done|]. by eapply Hmiss.
Qed.

(** X6. The cache is transparent to the masking configuration: after a first
    call by [self] that wrote the cache, a call by an encoder [self'] that
    computes the same encodings, whatever [zero_diag] it has, returns the
    [pe_list] a call of [self'] without any cache would have returned, and
    computes nothing. *)
Theorem apply_to_cache_transparent
    (self self' : PositionEncoding) ds split w0 w1 w1' sp :
  (forall l, pickle_load (pickle_dump l) = Ok (Some l)) ->
  savepath self = Some sp ->
  savepath self' = Some sp ->
  compute_pe self' = compute_pe self ->
  files w0 !! cache_path sp split = None ->
  run self ds split w0 = (Ok tt, w1) ->
  run self' ds split w0 = (Ok tt, w1') ->
  exists w2,
    run self' ds split w1 = (Ok tt, w2)
    /\ pe_list w2 = pe_list w1'
    /\ files w2 = files w1
    /\ compute_calls w2 = compute_calls w1.
Proof.
  intros Hrt Hsp Hsp' Hcomp Hfile Hfirst Hfresh.
  rewrite (apply_to_miss_run _ _ _ self ds split w0 sp Hsp Hfile) in Hfirst.
  destruct (runR (miss_step self) ds) as [ps o] eqn:Hr; simpl in Hfirst.
  destruct o as [e|]; [done|].
  destruct (open_wb (cache_path sp split)) as [[]|e] eqn:Hopen; [|done].
  injection Hfirst as <-.
  apply runR_mapR in Hr. destruct (miss_steps_split _ _ _ Hr) as [Hc _].
  rewrite (apply_to_miss_run _ _ _ self' ds split w0 sp Hsp' Hfile) in Hfresh.
  destruct (runR (miss_step self') ds) as [ps' o'] eqn:Hr'; simpl in Hfresh.
  destruct o' as [e|]; [done|]. rewrite Hopen in Hfresh.
  injection Hfresh as <-.
  apply runR_mapR in Hr'. destruct (miss_steps_split _ _ _ Hr') as [Hc' Hm'].
  rewrite Hcomp, Hc in Hc'. injection Hc' as Hfst.
  pose proof (mapR_length _ _ _ Hc) as Hlen.
  rewrite (apply_to_hit_run _ _ _ self' ds split _ sp (pickle_dump ps.*1) Hsp')
    by (simpl; apply lookup_insert_eq).
  rewrite Hrt; simpl.
  assert (runR (hit_step self' ps.*1) (seq 0 (length ds)) = (ps'.*2, None))
    as ->.
  { apply runR_mapR. rewrite hit_steps_take by lia.
    rewrite <- Hlen, firstn_all. by rewrite Hfst. }
  simpl. eexists; repeat split; done.
Qed.

End ProtocolMore.

(** A third graph on the two-entry cache of [cached_world]: the call
    raises and the disk is as it was. *)
Lemma apply_to_failure_keeps_files_witness :
  (apply_to id_dump id_load open_ok full_masking [isolated2; loop2; tail3] "train"
            cached_world).1 = Raise IndexError
  /\ files (apply_to id_dump id_load open_ok full_masking [isolated2; loop2; tail3]
                     "train" cached_world).2
     = files cached_world.
Proof.
  split; [reflexivity|].
  apply (apply_to_failure_keeps_files id_dump id_load open_ok full_masking
           [isolated2; loop2; tail3] "train" cached_world IndexError).
  reflexivity.
Defined.

Lemma apply_to_without_cache_witness :
  savepath full_nocache = None
  /\ mapR (compute_pe full_nocache) [isolated2]
     = Ok [T2 [[1; 1]; [1; 1]]]%Q
  /\ mapR (mask full_nocache) [T2 [[1; 1]; [1; 1]]]%Q
     = Ok [T2 [[0; 1]; [1; 0]]]%Q
  /\ apply_to id_dump id_load open_ok full_nocache [isolated2] "train" cached_world
     = (Ok tt,
        World (files cached_world) (Some [T2 [[0; 1]; [1; 0]]]%Q)
              (compute_calls cached_world + length [isolated2])).
Proof.
  split; [reflexivity|]. split; [reflexivity|]. split; [reflexivity|].
  apply (apply_to_without_cache id_dump id_load open_ok full_nocache [isolated2]
           "train" cached_world [T2 [[1; 1]; [1; 1]]]%Q
           [T2 [[0; 1]; [1; 0]]]%Q); reflexivity.
Defined.

Lemma apply_to_other_splits_untouched_witness :
  savepath full_masking = Some "pe"
  /\ "train" <> "val"
  /\ files (apply_to id_dump id_load open_ok full_masking [isolated2] "val"
                     cached_world).2 !! cache_path "pe" "train"
     = files cached_world !! cache_path "pe" "train".
Proof.
  split; [reflexivity|]. split; [discriminate|].
  apply (apply_to_other_splits_untouched id_dump id_load open_ok full_masking
           [isolated2] "val" "train" cached_world "pe");
    [reflexivity|discriminate].
Defined.

Lemma apply_to_short_cache_witness :
  savepath full_masking = Some "pe"
  /\ files cached_world !! cache_path "pe" "train" = Some cached_blob
  /\ id_load cached_blob = Ok (Some cached_blob)
  /\ length cached_blob < length [isolated2; loop2; tail3]
  /\ mapR (mask full_masking) cached_blob
     = Ok [T2 [[0; 5]; [5; 0]]; T2 [[0]]]%Q
  /\ apply_to id_dump id_load open_ok full_masking [isolated2; loop2; tail3] "train"
              cached_world
     = (Raise IndexError,
        World (files cached_world) (Some [T2 [[0; 5]; [5; 0]]; T2 [[0]]]%Q)
              (compute_calls cached_world)).
Proof.
  split; [reflexivity|]. split; [reflexivity|]. split; [reflexivity|].
  split; [simpl; lia|]. split; [reflexivity|].
  apply (apply_to_short_cache id_dump id_load open_ok full_masking
           [isolated2; loop2; tail3] "train" cached_world "pe" cached_blob
           cached_blob [T2 [[0; 5]; [5; 0]]; T2 [[0]]]%Q);
    [reflexivity|reflexivity|reflexivity|simpl; lia|reflexivity].
Defined.

Lemma apply_to_pe_list_aligned_witness :
  apply_to id_dump id_load open_ok full_masking [isolated2; loop2] "train" empty_world
  = (Ok tt, after_first_call)
  /\ exists l,
      pe_list after_first_call = Some l
      /\ length l = length [isolated2; loop2].
Proof.
  split; [reflexivity|].
  apply (apply_to_pe_list_aligned id_dump id_load open_ok full_masking
           [isolated2; loop2] "train" empty_world after_first_call).
  reflexivity.
Defined.

(** A cache written with [zero_diag] set serves an encoder with it unset:
    the second call returns the unmasked encodings a fresh run would have
    returned. *)
Lemma apply_to_cache_transparent_witness :
  (forall l, id_load (id_dump l) = Ok (Some l))
  /\ savepath full_masking = Some "pe"
  /\ savepath full_unmasked = Some "pe"
  /\ compute_pe full_unmasked = compute_pe full_masking
  /\ files empty_world !! cache_path "pe" "train" = None
  /\ apply_to id_dump id_load open_ok full_masking [isolated2; loop2] "train"
              empty_world
     = (Ok tt, after_first_call)
  /\ apply_to id_dump id_load open_ok full_unmasked [isolated2; loop2] "train"
              empty_world
     = (Ok tt, after_unmasked_call)
  /\ exists w2,
      apply_to id_dump id_load open_ok full_unmasked [isolated2; loop2] "train"
               after_first_call
      = (Ok tt, w2)
      /\ pe_list w2 = pe_list after_unmasked_call
      /\ files w2 = files after_first_call
      /\ compute_calls w2 = compute_calls after_first_call.
Proof.
  split; [reflexivity|]. split; [reflexivity|]. split; [reflexivity|].
  split; [reflexivity|]. split; [reflexivity|]. split; [reflexivity|].
  split; [reflexivity|].
  apply (apply_to_cache_transparent id_dump id_load open_ok full_masking full_unmasked
           [isolated2; loop2] "train" empty_world after_first_call
           after_unmasked_call "pe");
    reflexivity.
Defined.

(** ** The zero-diagonal step, continued *)

Lemma runR_raise {A B} (f : A -> result B) l bs e :
  runR f l = (bs, Some e) -> exists a, a ∈ l /\ f a = Raise e.
Proof.
  revert bs; induction l as [|a l IH]; intros bs; simpl; [done|].
  destruct (f a) as [b|e'] eqn:Hf.
  - destruct (runR f l) as [bs' o]; simpl. intros [= <- ->].
    destruct (IH bs' eq_refl) as (a' & Ha' & He).
    exists a'. split; [by right|done].
  - intros [= <- <-]. exists a. split; [by left|done].
Qed.

Section MaskMore.
Context {R : Type} `{FloatOps R}.

Lemma zero_diagonal_idem (m : matrix R) :
  zero_diagonal (zero_diagonal m) = zero_diagonal m.
Proof.
  apply list_eq; intros i. rewrite !zero_diagonal_row.
  destruct (m !! i) as [row|]; simpl; [|done].
  by rewrite list_insert_insert_eq.
Qed.

Lemma zero_diagonal_dims01_idem (t : list (matrix R)) :
  zero_diagonal_dims01 (zero_diagonal_dims01 t) = zero_diagonal_dims01 t.
Proof.
  unfold zero_diagonal_dims01. apply list_eq; intros c.
  rewrite !list_lookup_imap.
  destruct (t !! c) as [ch|]; simpl; [|done]. f_equal.
  rewrite list_alter_alter_eq. apply list_alter_ext; [|done].
  intros row _; simpl. rewrite <- list_fmap_compose. done.
Qed.

Lemma zero_diagonal_row_lengths (m : matrix R) :
  length <$> zero_diagonal m = length <$> m.
Proof.
  apply list_eq; intros i.
  rewrite !list_lookup_fmap, zero_diagonal_row.
  destruct (m !! i) as [row|]; simpl; [|done].
  by rewrite length_insert.
Qed.

Lemma zero_diagonal_dims01_row_lengths (t : list (matrix R)) :
  (fun m : list (list R) => length <$> m) <$> zero_diagonal_dims01 t
  = (fun m : list (list R) => length <$> m) <$> t.
Proof.
  unfold zero_diagonal_dims01. apply list_eq; intros c.
  rewrite !list_lookup_fmap, list_lookup_imap.
  destruct (t !! c) as [ch|]; simpl; [|done]. f_equal.
  apply list_eq; intros i. rewrite !list_lookup_fmap.
  destruct (decide (c = i)) as [->|Hne].
  - rewrite list_lookup_alter_eq.
    destruct (ch !! i) as [row|]; simpl; [|done].
    by rewrite length_fmap.
  - by rewrite list_lookup_alter_ne.
Qed.

(** X12. The zero-diagonal step done twice is the step done once: masking
    encodings that are masked already changes nothing. *)
Theorem mask_idempotent (self : PositionEncoding (R := R)) pe pe' :
  mask self pe = Ok pe' -> mask self pe' = Ok pe'.
Proof.
  unfold mask. destruct (zero_diag self); [|done].
  destruct (edge_attr_branch self), pe as [m|t]; intros [= <-].
  - unfold zero_diagonal_dims12. rewrite <- list_fmap_compose. do 2 f_equal.
    apply list_fmap_ext. intros i m _; simpl. apply zero_diagonal_idem.
  - by rewrite zero_diagonal_idem.
  - by rewrite zero_diagonal_dims01_idem.
Qed.

(** X13. The zero-diagonal step changes neither the rank of an encoding nor any
    of its dimensions. *)
Theorem mask_keeps_shape (self : PositionEncoding (R := R)) pe pe' :
  mask self pe = Ok pe' -> same_shape pe pe'.
Proof.
  unfold mask. destruct (zero_diag self).
  - destruct (edge_attr_branch self), pe as [m|t]; intros [= <-]; simpl.
    + unfold zero_diagonal_dims12. rewrite <- list_fmap_compose.
      apply list_fmap_ext. intros i m _; simpl.
      by rewrite zero_diagonal_row_lengths.
    + by rewrite zero_diagonal_row_lengths.
    + by rewrite zero_diagonal_dims01_row_lengths.
  - intros [= <-]. by destruct pe.
Qed.

(** X14. A 3-D encoding in the hands of an encoder that masks without the
    edge-attribute branch: [pe.diagonal()] pairs the channel with the row, so
    row [c] of channel [c] is cleared, diagonal or not, and every entry
    outside those rows is left as it was, diagonal or not. *)
Theorem mask_default_diagonal_3d (self : PositionEncoding (R := R)) t :
  zero_diag self = true ->
  edge_attr_branch self = false ->
  exists t',
    mask self (T3 t) = Ok (T3 t')
    /\ (forall c j x, entry3 t' c c j = Some x -> x = f0)
    /\ (forall c i j, c <> i -> entry3 t' c i j = entry3 t c i j).
Proof.
  intros Hz Hb. unfold mask. rewrite Hz, Hb.
  exists (zero_diagonal_dims01 t). split; [done|]. split.
  - apply zero_diagonal_dims01_row.
  - intros c i j Hci. by apply zero_diagonal_dims01_other.
Qed.

(** [compute_pe] with [use_edge_attr] returns a 3-D tensor when it
    returns. *)
Lemma compute_pe_channels_rank
    (from_edge_weight :
       list (nat * nat) -> option (list R) -> nat -> result (tensor R))
    nef (g : graph) pe :
  compute_pe_channels from_edge_weight true nef g = Ok pe ->
  exists t, pe = T3 t.
Proof.
  unfold compute_pe_channels.
  destruct (edge_attr_one_hot (edge_attr g) nef) as [l|e]; simpl; [|done].
  case_decide; [done|].
  destruct (fill_channels _ _ _ _ _) as [t|e]; simpl; [|done].
  intros [= <-]. by exists t.
Qed.

(** The zero-diagonal step accepts whatever an encoder of the module has
    computed: the edge-attribute branch is taken only by the encoders whose
    [compute_pe] returns 3-D tensors. *)
Lemma mask_accepts_computed (expm : matrix R -> matrix R)
    (self : PositionEncoding) (g : graph) pe :
  module_encoder expm self ->
  compute_pe self g = Ok pe ->
  exists pe', mask self pe = Ok pe'.
Proof.
  assert (forall sp zd use_attr (cp : graph -> result (tensor R)),
            (use_attr = true -> cp g = Ok pe -> exists t, pe = T3 t) ->
            cp g = Ok pe ->
            exists pe', mask (Encoder sp zd (Some use_attr) cp) pe = Ok pe')
    as Hattr.
  { intros sp zd use_attr cp Hrank Hcp. unfold mask, edge_attr_branch; simpl.
    destruct zd; [|by eexists]. destruct use_attr.
    - destruct (Hrank eq_refl Hcp) as [t ->]. by eexists.
    - destruct pe; by eexists. }
  assert (forall sp zd (cp : graph -> result (tensor R)),
            exists pe', mask (Encoder sp zd None cp) pe = Ok pe') as Hplain.
  { intros sp zd cp. unfold mask, edge_attr_branch; simpl.
    destruct zd; [|by eexists]. destruct pe; by eexists. }
  intros [sp beta use_attr normalization zd nef
         |sp p beta use_attr normalization zd nef
         |sp normalization zd|sp zd] Hcp.
  - apply Hattr; [|exact Hcp]. intros ->. apply compute_pe_channels_rank.
  - apply Hattr; [|exact Hcp]. intros ->. apply compute_pe_channels_rank.
  - apply Hplain.
  - apply Hplain.
Qed.

End MaskMore.

Section ProtocolErrors.
Context {R : Type} `{FloatOps R} {blob : Type}.
Variable pickle_dump : list (tensor R) -> blob.
Variable pickle_load : blob -> result (option (list (tensor R))).
Variable open_wb : string -> result unit.

#[local] Abbreviation run := (apply_to pickle_dump pickle_load open_wb).

(** X8. A cache file that does not unpickle: the exception of [pickle.load]
    leaves [apply_to] before anything else is done; [pe_list] is not reset,
    nothing is computed and the file is not replaced. *)
Theorem apply_to_corrupt_cache (self : PositionEncoding) ds split w sp X e :
  savepath self = Some sp ->
  files w !! cache_path sp split = Some X ->
  pickle_load X = Raise e ->
  run self ds split w = (Raise e, w).
Proof.
  intros Hsp Hfile Hload.
  by rewrite (apply_to_hit_run _ _ _ self ds split w sp X Hsp Hfile), Hload.
Qed.

(** X9. Without a usable cache, an [apply_to] of one of the module's
    encoders that raises has its exception from [compute_pe] on one of the
    graphs, or, every graph being computed, from [open] on the cache path
    in [save]: the zero-diagonal step and the bookkeeping raise nothing. *)
Theorem apply_to_failure_origin (expm : matrix R -> matrix R)
    (self : PositionEncoding) ds split w e :
  module_encoder expm self ->
  (load pickle_load self split w).1 = Ok None ->
  (run self ds split w).1 = Raise e ->
  (exists g, g ∈ ds /\ compute_pe self g = Raise e)
  \/ (exists sp computed,
        savepath self = Some sp
        /\ files w !! cache_path sp split = None
        /\ mapR (compute_pe self) ds = Ok computed
        /\ open_wb (cache_path sp split) = Raise e).
Proof.
  intros Henc Hload Hrun.
  assert (forall ps, runR (miss_step self) ds = (ps, Some e) ->
            exists g, g ∈ ds /\ compute_pe self g = Raise e) as Hloop.
  { intros ps Hr. destruct (runR_raise _ _ _ _ Hr) as (g & Hg & Hstep).
    exists g. split; [done|].
    unfold miss_step in Hstep.
    destruct (compute_pe self g) as [pe|e'] eqn:Hpe; simpl in Hstep.
    - destruct (mask_accepts_computed expm self g pe Henc Hpe) as [pe' Hm].
      by rewrite Hm in Hstep.
    - by injection Hstep as ->. }
  unfold load in Hload.
  destruct (savepath self) as [sp|] eqn:Hsp.
  - destruct (files w !! cache_path sp split) as [X|] eqn:Hfile.
    + simpl in Hload.
      rewrite (apply_to_hit_run _ _ _ self ds split w sp X Hsp Hfile), Hload
        in Hrun.
      simpl in Hrun. left.
      destruct (runR (miss_step self) ds) as [ps [e'|]] eqn:Hr;
        simplify_eq/=. by eapply Hloop.
    + rewrite (apply_to_miss_run _ _ _ self ds split w sp Hsp Hfile) in Hrun.
      destruct (runR (miss_step self) ds) as [ps [e'|]] eqn:Hr; simpl in Hrun.
      * left. simplify_eq/=. by eapply Hloop.
      * right. apply runR_mapR in Hr.
        destruct (miss_steps_split _ _ _ Hr) as [Hc _].
        exists sp, ps.*1. split; [done|]. split; [done|]. split; [done|].
        by destruct (open_wb (cache_path sp split)) as [[]|e']; simplify_eq/=.
  - rewrite (apply_to_nocache_run _ _ _ self ds split w Hsp) in Hrun.
    left. destruct (runR (miss_step self) ds) as [ps [e'|]] eqn:Hr;
      simplify_eq/=. by eapply Hloop.
Qed.

End ProtocolErrors.

Lemma mask_idempotent_witness :
  mask full_masking (T2 [[5; 5]; [5; 5]]%Q) = Ok (T2 [[0; 5]; [5; 0]]%Q)
  /\ mask full_masking (T2 [[0; 5]; [5; 0]]%Q) = Ok (T2 [[0; 5]; [5; 0]]%Q).
Proof.
  split; [reflexivity|].
  apply (mask_idempotent full_masking (T2 [[5; 5]; [5; 5]]%Q)). reflexivity.
Defined.

Lemma mask_keeps_shape_witness :
  mask adj_masking (T3 [[[0; 1]; [1; 1]]]%Q) = Ok (T3 [[[0; 0]; [1; 1]]]%Q)
  /\ same_shape (T3 [[[0; 1]; [1; 1]]]%Q) (T3 [[[0; 0]; [1; 1]]]%Q).
Proof.
  split; [reflexivity|].
  apply (mask_keeps_shape adj_masking). reflexivity.
Defined.

Lemma mask_default_diagonal_3d_witness :
  zero_diag adj_masking = true
  /\ edge_attr_branch adj_masking = false
  /\ exists t',
      mask adj_masking (T3 [[[0; 1]; [1; 1]]]%Q) = Ok (T3 t')
      /\ (forall c j x, entry3 t' c c j = Some x -> x = f0)
      /\ (forall c i j, c <> i ->
            entry3 t' c i j = entry3 [[[0; 1]; [1; 1]]]%Q c i j).
Proof.
  split; [reflexivity|]. split; [reflexivity|].
  apply (mask_default_diagonal_3d adj_masking); reflexivity.
Defined.

(** The call on [garbage_world] stops at [pickle.load]; even [pe_list]
    keeps what an earlier call left in it. *)
Lemma apply_to_corrupt_cache_witness :
  savepath full_masking = Some "pe"
  /\ files garbage_world !! cache_path "pe" "train" = Some None
  /\ opt_load None = Raise UnpicklingError
  /\ apply_to opt_dump opt_load open_ok full_masking [isolated2] "train" garbage_world
     = (Raise UnpicklingError, garbage_world).
Proof.
  split; [reflexivity|]. split; [reflexivity|]. split; [reflexivity|].
  apply (apply_to_corrupt_cache opt_dump opt_load open_ok full_masking [isolated2]
           "train" garbage_world "pe" None UnpicklingError); reflexivity.
Defined.

(** On a disk whose cache directory does not exist the encodings are
    computed, then [save] fails in [open]. *)
Lemma apply_to_failure_origin_witness :
  module_encoder expm_order1 full_masking
  /\ (load id_load full_masking "train" empty_world).1 = Ok None
  /\ (apply_to id_dump id_load open_fails full_masking [isolated2] "train"
                empty_world).1 = Raise OSError
  /\ ((exists g, g ∈ [isolated2] /\ compute_pe full_masking g = Raise OSError)
      \/ (exists sp computed,
            savepath full_masking = Some sp
            /\ files empty_world !! cache_path sp "train" = None
            /\ mapR (compute_pe full_masking) [isolated2] = Ok computed
            /\ open_fails (cache_path sp "train") = Raise OSError)).
Proof.
  split; [apply full_encoder|]. split; [reflexivity|]. split; [reflexivity|].
  apply (apply_to_failure_origin id_dump id_load open_fails expm_order1
           full_masking [isolated2] "train" empty_world OSError);
    [apply full_encoder|reflexivity|reflexivity].
Defined.

(** The assertion of [get_laplacian] on the normalization ["max"] reaches
    the caller of [apply_to]. *)
Example apply_to_bad_normalization :
  (apply_to id_dump id_load open_ok pstep_bad_normalization [path3] "train"
            empty_world).1 = Raise AssertionError
  /\ compute_pe pstep_bad_normalization path3 = Raise AssertionError.
Proof. split; reflexivity. Qed.

(** The file written on a miss holds the all-ones encodings; the masked
    copies are in [pe_list] only. *)
Lemma apply_to_caches_unmasked_witness :
  savepath full_masking = Some "pe"
  /\ files empty_world !! cache_path "pe" "train" = None
  /\ mapR (compute_pe full_masking) [isolated2; loop2]
     = Ok [T2 [[1; 1]; [1; 1]]; T2 [[1; 1]; [1; 1]]]%Q
  /\ mapR (mask full_masking) [T2 [[1; 1]; [1; 1]]; T2 [[1; 1]; [1; 1]]]%Q
     = Ok [T2 [[0; 1]; [1; 0]]; T2 [[0; 1]; [1; 0]]]%Q
  /\ (open_ok (cache_path "pe" "train") = Ok tt ->
      apply_to id_dump id_load open_ok full_masking [isolated2; loop2] "train"
               empty_world
      = (Ok tt,
         World (<[cache_path "pe" "train" :=
                    id_dump [T2 [[1; 1]; [1; 1]]; T2 [[1; 1]; [1; 1]]]%Q]>
                  (files empty_world))
               (Some [T2 [[0; 1]; [1; 0]]; T2 [[0; 1]; [1; 0]]]%Q)
               (compute_calls empty_world + length [isolated2; loop2])))
  /\ (forall e,
        open_ok (cache_path "pe" "train") = Raise e ->
        apply_to id_dump id_load open_ok full_masking [isolated2; loop2] "train"
                 empty_world
        = (Raise e,
           World (files empty_world)
                 (Some [T2 [[0; 1]; [1; 0]]; T2 [[0; 1]; [1; 0]]]%Q)
                 (compute_calls empty_world + length [isolated2; loop2]))).
Proof.
  split; [reflexivity|]. split; [reflexivity|]. split; [reflexivity|].
  split; [reflexivity|].
  apply (apply_to_caches_unmasked id_dump id_load open_ok full_masking
           [isolated2; loop2] "train" empty_world "pe"
           [T2 [[1; 1]; [1; 1]]; T2 [[1; 1]; [1; 1]]]%Q
           [T2 [[0; 1]; [1; 0]]; T2 [[0; 1]; [1; 0]]]%Q); reflexivity.
Defined.

(** The same call on a disk without the cache directory: everything is
    computed, then [open] raises and nothing is written. *)
Example apply_to_unwritable_cache :
  apply_to id_dump id_load open_fails full_masking [isolated2; loop2] "train"
           empty_world
  = (Raise OSError,
     World (files empty_world)
           (Some [T2 [[0; 1]; [1; 0]]; T2 [[0; 1]; [1; 0]]]%Q) 2).
Proof. reflexivity. Qed.

(** ** The encoders on single graphs *)

Section EncoderFacts.
Context {R : Type} `{FloatOps R}.

(** X15. [FullEncoding] with [zero_diag]: one round of the loop of [apply_to]
    keeps the all-ones [N x N] matrix for the cache and hands on the
    [N x N] matrix with 0 on the diagonal and 1 everywhere else. *)
Theorem full_encoding_masked (sp : option string) (g : graph) :
  exists m',
    miss_step (FullEncoding.make sp true) g
    = Ok (T2 (ones (num_nodes g) (num_nodes g)), T2 m')
    /\ has_shape2 m' (num_nodes g) (num_nodes g)
    /\ forall i j, i < num_nodes g -> j < num_nodes g ->
         entry2 m' i j = Some (if decide (i = j) then f0 else f1).
Proof.
  exists (zero_diagonal (ones (num_nodes g) (num_nodes g))).
  split; [done|]. split.
  - apply zero_diagonal_shape, ones_shape.
  - intros i j Hi Hj. unfold entry2. rewrite zero_diagonal_row.
    unfold ones. rewrite lookup_replicate_2 by done. simpl.
    case_decide as Hij.
    + subst j. apply list_lookup_insert_eq. by rewrite length_replicate.
    + rewrite list_lookup_insert_ne by done. by apply lookup_replicate_2.
Qed.

(** X16. An order [p <= 1], zero and negative orders included, is the order 1:
    [range(p - 1)] is empty, no product is made and nothing is raised on
    account of [p]. *)
Theorem pstep_order_below_one (p : Z) (beta : R) (use_attr : bool)
    normalization nef sp zd (g : graph) :
  (p <= 1)%Z ->
  compute_pe (PStepRWEncoding.make sp p beta use_attr normalization zd nef) g
  = compute_pe (PStepRWEncoding.make sp 1 beta use_attr normalization zd nef) g
  /\ forall ei ew n,
       PStepRWEncoding.compute_pe_from_edge_weight_counted
         p beta normalization ei ew n
       = PStepRWEncoding.compute_pe_from_edge_weight_counted
           1 beta normalization ei ew n.
Proof.
  intros Hp.
  unfold PStepRWEncoding.make, PStepRWEncoding.compute_pe; simpl.
  unfold PStepRWEncoding.compute_pe_from_edge_weight,
    PStepRWEncoding.compute_pe_from_edge_weight_counted.
  by replace (Z.to_nat (p - 1)) with (Z.to_nat (1 - 1)) by lia.
Qed.

(** X17. Without [use_edge_attr], the diffusion and the P-step encoder return an
    [N x N] matrix on every graph whose edges join nodes of the graph, for
    every valid normalization and every order [p]. *)
Theorem compute_pe_single_channel_shape (expm : matrix R -> matrix R)
    (p : Z) (beta : R) normalization sp zd nef (g : graph) :
  (forall m k, has_shape2 m k k -> has_shape2 (expm m) k k) ->
  valid_normalization normalization ->
  edges_in_range (edge_index g) (num_nodes g) ->
  (exists m,
     compute_pe (DiffusionEncoding.make expm sp beta false normalization zd nef)
                g
     = Ok (T2 m)
     /\ has_shape2 m (num_nodes g) (num_nodes g))
  /\ (exists m,
        compute_pe (PStepRWEncoding.make sp p beta false normalization zd nef) g
        = Ok (T2 m)
        /\ has_shape2 m (num_nodes g) (num_nodes g)).
Proof.
  intros Hexpm Hnorm Hei. split.
  - by apply diffusion_from_edge_weight_shape.
  - by apply pstep_from_edge_weight_shape.
Qed.

Lemma laplacian_matrix_invalid ei (ew : option (list R)) normalization n :
  ~ valid_normalization normalization ->
  laplacian_matrix ei ew normalization n = Raise AssertionError.
Proof.
  intros Hnorm. unfold laplacian_matrix, get_laplacian.
  rewrite bool_decide_eq_false_2; [done|]. exact Hnorm.
Qed.

(** X18. A normalization other than [None], ["sym"] and ["rw"] is rejected by
    the assertion of [get_laplacian] before anything is computed: the three
    Laplacian-based encoders raise [AssertionError] on every graph. *)
Theorem compute_pe_invalid_normalization {E : Type}
    (expm : matrix R -> matrix R)
    (eig : matrix R -> list E * matrix E) (argsort : list E -> list nat)
    (real : E -> R)
    (laplacian_matrix_long :
       list (nat * nat) -> int_tensor -> option string -> nat
       -> result (matrix R))
    (p dim : Z) (beta : R) normalization sp zd nef (g : graph) :
  ~ valid_normalization normalization ->
  compute_pe (DiffusionEncoding.make expm sp beta false normalization zd nef) g
  = Raise AssertionError
  /\ compute_pe (PStepRWEncoding.make sp p beta false normalization zd nef) g
     = Raise AssertionError
  /\ LapEncoding.compute_pe eig argsort real laplacian_matrix_long dim false normalization g
     = Raise AssertionError.
Proof.
  intros Hnorm. split; [|split].
  - simpl. unfold DiffusionEncoding.compute_pe, compute_pe_channels,
      DiffusionEncoding.compute_pe_from_edge_weight.
    by rewrite laplacian_matrix_invalid.
  - simpl. unfold PStepRWEncoding.compute_pe, compute_pe_channels,
      PStepRWEncoding.compute_pe_from_edge_weight,
      PStepRWEncoding.compute_pe_from_edge_weight_counted.
    by rewrite laplacian_matrix_invalid.
  - unfold LapEncoding.compute_pe, LapEncoding.laplacian_of; simpl.
    by rewrite laplacian_matrix_invalid.
Qed.

(** X22. [LapEncoding.apply_to] neither reads nor writes a cache.  It sets
    [lap_pe_dim] to the encoder's [pos_enc_dim]; it returns exactly when
    [compute_pe] returns on every graph, [lap_pe_list] then holding the
    encodings in the order of the dataset; an exception it raises is the one
    [compute_pe] raised on a graph of the dataset. *)
Theorem lap_apply_to_outcome {E : Type}
    (eig : matrix R -> list E * matrix E) (argsort : list E -> list nat)
    (real : E -> R)
    (laplacian_matrix_long :
       list (nat * nat) -> int_tensor -> option string -> nat
       -> result (matrix R))
    (dim : Z) (use_attr : bool) normalization ds :
  let cp := LapEncoding.compute_pe eig argsort real laplacian_matrix_long dim use_attr normalization in
  let out := LapEncoding.apply_to eig argsort real laplacian_matrix_long dim use_attr normalization ds in
  LapEncoding.lap_pe_dim out.2 = dim
  /\ (forall pes, mapR cp ds = Ok pes <->
                  out = (Ok tt, LapEncoding.LapFields pes dim))
  /\ (forall e, out.1 = Raise e -> exists g, g ∈ ds /\ cp g = Raise e)
  /\ mapR cp (take (length (LapEncoding.lap_pe_list out.2)) ds)
     = Ok (LapEncoding.lap_pe_list out.2).
Proof.
  intros cp out. subst out. rewrite lap_apply_to_run. fold cp.
  destruct (runR cp ds) as [pes o] eqn:Hr; simpl.
  split; [done|]. split; [|split].
  - intros pes'. rewrite runR_mapR, Hr. split.
    + by intros [= <- ->].
    + destruct o; simpl; [done|]. by intros [= <-].
  - intros e He. destruct o as [e'|]; simpl in He; [|done].
    injection He as ->. by eapply runR_raise.
  - pose proof (runR_prefix cp ds) as [Hp _]. by rewrite Hr in Hp.
Qed.

End EncoderFacts.

Lemma pstep_order_below_one_witness :
  (0 <= 1)%Z
  /\ compute_pe (PStepRWEncoding.make (R := Q) None 0 (1 # 2) false None false
                                      (NefInt 1)) path3
     = compute_pe (PStepRWEncoding.make None 1 (1 # 2) false None false
                                        (NefInt 1)) path3
  /\ forall ei ew n,
       PStepRWEncoding.compute_pe_from_edge_weight_counted (R := Q)
         0 (1 # 2) None ei ew n
       = PStepRWEncoding.compute_pe_from_edge_weight_counted
           1 (1 # 2) None ei ew n.
Proof.
  split; [lia|].
  apply (pstep_order_below_one (R := Q) 0 (1 # 2) false None (NefInt 1) None
           false path3).
  lia.
Defined.

Lemma compute_pe_single_channel_shape_witness :
  (forall m k, has_shape2 m k k -> has_shape2 (expm_order1 m) k k)
  /\ valid_normalization (Some "sym")
  /\ edges_in_range (edge_index path3) (num_nodes path3)
  /\ (exists m,
        compute_pe (DiffusionEncoding.make expm_order1 None (1 # 2) false
                                           (Some "sym") true (NefInt 1)) path3
        = Ok (T2 m)
        /\ has_shape2 m (num_nodes path3) (num_nodes path3))
  /\ (exists m,
        compute_pe (PStepRWEncoding.make None 3 (1 # 2) false (Some "sym") true
                                         (NefInt 1)) path3
        = Ok (T2 m)
        /\ has_shape2 m (num_nodes path3) (num_nodes path3)).
Proof.
  assert (edges_in_range (edge_index path3) (num_nodes path3)) as Hrange.
  { unfold edges_in_range; simpl. repeat constructor; simpl; lia. }
  split; [exact expm_order1_shape|]. split; [right; by left|].
  split; [exact Hrange|].
  apply (compute_pe_single_channel_shape expm_order1 3 (1 # 2) (Some "sym")
           None true (NefInt 1) path3 expm_order1_shape
           (or_intror (or_introl eq_refl)) Hrange).
Defined.

Lemma compute_pe_invalid_normalization_witness :
  ~ valid_normalization (Some "max")
  /\ compute_pe (DiffusionEncoding.make expm_order1 None (1 # 2) false
                                        (Some "max") false (NefInt 1)) path3
     = Raise AssertionError
  /\ compute_pe (PStepRWEncoding.make None 2 (1 # 2) false (Some "max") false
                                      (NefInt 1)) path3
     = Raise AssertionError
  /\ LapEncoding.compute_pe diag_eig Q_argsort (fun x : Q => x) long_unused 2 false
                            (Some "max") path3
     = Raise AssertionError.
Proof.
  assert (~ valid_normalization (Some "max")) as Hbad.
  { intros [Hn | [Hn | Hn]]; discriminate Hn. }
  split; [exact Hbad|].
  apply (compute_pe_invalid_normalization expm_order1 diag_eig Q_argsort
           (fun x : Q => x) long_unused 2 2 (1 # 2) (Some "max") None false (NefInt 1)
           path3 Hbad).
Defined.

(** ** One-hot expansion, continued *)

Section OneHotMore.
Context {R : Type} `{FloatOps R}.

(** X23. Sequence mode, entry by entry: the output has one row per edge and as
    many columns as the cardinalities add up to, and the row of an edge is
    made of one block per feature, block [k] being the indicator of the
    edge's code for feature [k] among [cards[k]] classes. *)
Theorem edge_attr_one_hot_seq_blocks (ncols : nat) (rows : list (list Z)) cards :
  codes_ok (I2 ncols rows) (NefSeq cards) ->
  edge_attr_one_hot_int (Some (I2 ncols rows)) (NefSeq cards)
  = Ok (OH2 (Wide (Z.to_nat (sumZ cards)) (expand_row cards <$> rows)))
  /\ edge_attr_one_hot (R := R) (Some (I2 ncols rows)) (NefSeq cards)
     = Ok (float_tensor
             (OH2 (Wide (Z.to_nat (sumZ cards)) (expand_row cards <$> rows)))).
Proof.
  intros (Hne & Hlen & Hpos & Hrows).
  destruct (one_hot_columns_blocks ncols rows cards 0) as (blocks & Hb & Hcat);
    [done|lia|done|done|].
  assert (edge_attr_one_hot_int (Some (I2 ncols rows)) (NefSeq cards)
          = Ok (OH2 (Wide (Z.to_nat (sumZ cards)) (expand_row cards <$> rows))))
    as Hint.
  { simpl. rewrite Hb; simpl. by rewrite Hcat. }
  split; [exact Hint|]. unfold edge_attr_one_hot. by rewrite Hint.
Qed.

(** X24. Integer mode rejects a code above [num_edge_features]: the codes are
    1-based and [n] is the largest one [F.one_hot] accepts. *)
Theorem edge_attr_one_hot_code_above (ea : int_tensor) (n x : Z) :
  n <> (-1)%Z ->
  x ∈ codes ea ->
  (n < x)%Z ->
  edge_attr_one_hot (R := R) (Some ea) (NefInt n) = Raise RuntimeError.
Proof.
  intros Hn Hx Hlt. unfold edge_attr_one_hot; simpl.
  destruct ea as [v|ncols rows]; simpl in *.
  - unfold one_hot_1d.
    rewrite (one_hot_classes_above _ n (x - 1)); [done| |done|lia].
    apply list_elem_of_fmap. eauto.
  - unfold one_hot_2d.
    rewrite (one_hot_classes_above _ n (x - 1)); [done| |done|lia].
    rewrite concat_fmap_fmap. apply list_elem_of_fmap. eauto.
Qed.

(** X25. Sequence mode rejects a code that is negative or not below the
    cardinality of its column, in whichever column and row it stands. *)
Theorem edge_attr_one_hot_seq_code_outside (ncols : nat)
    (rows : list (list Z)) cards k card row x :
  int_tensor_wf (I2 ncols rows) ->
  length cards <= ncols ->
  cards !! k = Some card ->
  row ∈ rows ->
  row !! k = Some x ->
  (x < 0 \/ (card <> -1 /\ card <= x))%Z ->
  edge_attr_one_hot (R := R) (Some (I2 ncols rows)) (NefSeq cards)
  = Raise RuntimeError.
Proof.
  intros Hwf Hlen Hk Hrow Hx Hbad. unfold edge_attr_one_hot; simpl.
  by rewrite (one_hot_columns_outside ncols rows cards 0 k card row x).
Qed.

End OneHotMore.

(** The edge attributes of [triangle] under the cardinalities [[4, 6]]. *)
Lemma edge_attr_one_hot_seq_blocks_witness :
  codes_ok (I2 2 [[0; 5]; [0; 5]; [3; 0]; [3; 0]; [1; 2]; [1; 2]]%Z)
           (NefSeq [4; 6]%Z)
  /\ edge_attr_one_hot_int
       (Some (I2 2 [[0; 5]; [0; 5]; [3; 0]; [3; 0]; [1; 2]; [1; 2]]%Z))
       (NefSeq [4; 6]%Z)
     = Ok (OH2 (Wide (Z.to_nat (sumZ [4; 6]%Z))
                     (expand_row [4; 6]%Z
                        <$> [[0; 5]; [0; 5]; [3; 0]; [3; 0]; [1; 2]; [1; 2]]%Z)))
  /\ edge_attr_one_hot (R := Q)
       (Some (I2 2 [[0; 5]; [0; 5]; [3; 0]; [3; 0]; [1; 2]; [1; 2]]%Z))
       (NefSeq [4; 6]%Z)
     = Ok (float_tensor
             (OH2 (Wide (Z.to_nat (sumZ [4; 6]%Z))
                        (expand_row [4; 6]%Z
                           <$> [[0; 5]; [0; 5]; [3; 0]; [3; 0]; [1; 2];
                                [1; 2]]%Z)))).
Proof.
  assert (codes_ok (I2 2 [[0; 5]; [0; 5]; [3; 0]; [3; 0]; [1; 2]; [1; 2]]%Z)
                   (NefSeq [4; 6]%Z)) as Hcodes.
  { simpl. split; [done|]. split; [reflexivity|].
    split; repeat constructor; lia. }
  split; [exact Hcodes|].
  apply (edge_attr_one_hot_seq_blocks (R := Q) 2
           [[0; 5]; [0; 5]; [3; 0]; [3; 0]; [1; 2]; [1; 2]]%Z [4; 6]%Z Hcodes).
Defined.

(** One row of that output: the code 3 among 4 classes, then the code 0
    among 6. *)
Example expand_row_triangle :
  expand_row [4; 6]%Z [3; 0]%Z = [0; 0; 0; 1; 1; 0; 0; 0; 0; 0]%Z.
Proof. reflexivity. Qed.

Lemma edge_attr_one_hot_code_above_witness :
  3%Z <> (-1)%Z
  /\ 4%Z ∈ codes (I1 [1; 4; 2]%Z)
  /\ (3 < 4)%Z
  /\ edge_attr_one_hot (R := Q) (Some (I1 [1; 4; 2]%Z)) (NefInt 3)
     = Raise RuntimeError.
Proof.
  assert (4%Z ∈ codes (I1 [1; 4; 2]%Z)) as Hin.
  { simpl. apply elem_of_cons; right. apply elem_of_cons; by left. }
  split; [lia|]. split; [exact Hin|]. split; [lia|].
  apply (edge_attr_one_hot_code_above (R := Q) (I1 [1; 4; 2]%Z) 3 4);
    [lia|exact Hin|lia].
Defined.

Lemma edge_attr_one_hot_seq_code_outside_witness :
  int_tensor_wf (I2 2 [[0; 1]; [2; 0]]%Z)
  /\ length [2; 2]%Z <= 2
  /\ [2; 2]%Z !! 0 = Some 2%Z
  /\ [2; 0]%Z ∈ [[0; 1]; [2; 0]]%Z
  /\ [2; 0]%Z !! 0 = Some 2%Z
  /\ (2 < 0 \/ (2 <> -1 /\ 2 <= 2))%Z
  /\ edge_attr_one_hot (R := Q) (Some (I2 2 [[0; 1]; [2; 0]]%Z))
                       (NefSeq [2; 2]%Z)
     = Raise RuntimeError.
Proof.
  assert (int_tensor_wf (I2 2 [[0; 1]; [2; 0]]%Z)) as Hwf.
  { simpl. by repeat constructor. }
  assert ([2; 0]%Z ∈ [[0; 1]; [2; 0]]%Z) as Hin.
  { apply elem_of_cons; right. apply elem_of_cons; by left. }
  split; [exact Hwf|]. split; [simpl; lia|]. split; [reflexivity|].
  split; [exact Hin|]. split; [reflexivity|]. split; [right; lia|].
  apply (edge_attr_one_hot_seq_code_outside (R := Q) 2 [[0; 1]; [2; 0]]%Z
           [2; 2]%Z 0 2%Z [2; 0]%Z 2%Z);
    [exact Hwf|simpl; lia|reflexivity|exact Hin|reflexivity|right; lia].
Defined.

(** ** Multi-channel encodings in integer mode *)

Section ChannelMore.
Context {R : Type} `{FloatOps R}.

(** [compute_pe] with [use_edge_attr] on a 2-D one-hot expansion with one
    row per edge and as many columns as [num_edge_features_true]. *)
Lemma compute_pe_channels_wide
    (from_edge_weight :
       list (nat * nat) -> option (list R) -> nat -> result (tensor R))
    (g : graph) nef (t0 : wide Z) :
  (forall w, length w = length (edge_index g) ->
     exists m,
       from_edge_weight (edge_index g) (Some w) (num_nodes g) = Ok (T2 m)
       /\ has_shape2 m (num_nodes g) (num_nodes g)) ->
  edge_attr_one_hot (edge_attr g) nef = Ok (float_tensor (OH2 t0)) ->
  Z.of_nat (width t0) = num_edge_features_true nef ->
  length (wide_rows t0) = length (edge_index g) ->
  Forall (fun row => length row = width t0) (wide_rows t0) ->
  exists t,
    compute_pe_channels from_edge_weight true nef g = Ok (T3 t)
    /\ has_shape3 t (width t0) (num_nodes g) (num_nodes g)
    /\ channel_encodings from_edge_weight g nef t.
Proof.
  intros Hkernel Hoh Hw Hrows Hwide.
  assert (Z.to_nat (num_edge_features_true nef) = width t0) as HC by lia.
  unfold compute_pe_channels. rewrite Hoh. cbn [rbind].
  case_decide; [lia|]. rewrite HC.
  destruct (fill_channels_ok
              (fun w => from_edge_weight (edge_index g) (Some w) (num_nodes g))
              (float_tensor (OH2 t0)) (num_nodes g) (seq 0 (width t0))
              (replicate (width t0) (zeros (num_nodes g) (num_nodes g))))
    as (t & Ht & Htlen & Hin & _).
  { apply NoDup_seq. }
  { rewrite length_replicate. apply Forall_forall.
    intros i Hi%elem_of_seq. lia. }
  { apply Forall_forall. intros i Hi%elem_of_seq.
    destruct (weight_column_ok t0 i) as (w & Hwc & Hwl); [lia|done|].
    destruct (Hkernel w) as (m & Hm & Hshape); [congruence|].
    by exists w, m. }
  rewrite length_replicate in Htlen.
  rewrite Ht; simpl. exists t. split; [done|]. split; [split; [done|]|].
  - apply Forall_lookup. intros i m Hi.
    destruct (Hin i) as (w & m' & _ & _ & Hshape & Hm').
    { apply elem_of_seq. apply lookup_lt_Some in Hi. lia. }
    congruence.
  - exists (float_tensor (OH2 t0)). split; [done|].
    intros i Hi. destruct (Hin i) as (w & m & Hwc & Hm & _ & Hti).
    { apply elem_of_seq. lia. }
    by exists w, m.
Qed.

(** X19. Integer mode: for a well-formed graph with one code per edge, the codes
    within [[1, n]], an encoder (Diffusion or P-step) with [use_edge_attr]
    and [num_edge_features = n] returns a tensor of shape [[n, N, N]]
    whose channel [i] is the encoding built with column [i] of the one-hot
    expansion as edge weights. *)
Theorem compute_pe_channel_count_int (expm : matrix R -> matrix R)
    (p : Z) (beta : R) normalization (g : graph) (v : list Z) (n : Z) :
  (forall m k, has_shape2 m k k -> has_shape2 (expm m) k k) ->
  valid_normalization normalization ->
  edges_in_range (edge_index g) (num_nodes g) ->
  edge_attr g = Some (I1 v) ->
  length v = length (edge_index g) ->
  codes_ok (I1 v) (NefInt n) ->
  (exists t,
     compute_pe (DiffusionEncoding.make expm None beta true normalization
                                        false (NefInt n)) g
     = Ok (T3 t)
     /\ has_shape3 t (Z.to_nat n) (num_nodes g) (num_nodes g)
     /\ channel_encodings
          (DiffusionEncoding.compute_pe_from_edge_weight expm beta normalization)
          g (NefInt n) t)
  /\ (exists t,
       compute_pe (PStepRWEncoding.make None p beta true normalization
                                        false (NefInt n)) g
       = Ok (T3 t)
       /\ has_shape3 t (Z.to_nat n) (num_nodes g) (num_nodes g)
       /\ channel_encodings
            (PStepRWEncoding.compute_pe_from_edge_weight p beta normalization)
            g (NefInt n) t).
Proof.
  intros Hexpm Hnorm Hei Hea Hlen (Hn & _ & Hcodes).
  set (t0 := Wide (Z.to_nat n)
                  (one_hot_row (Z.to_nat n) <$> ((fun x => x - 1)%Z <$> v))).
  assert (edge_attr_one_hot (R := R) (edge_attr g) (NefInt n)
          = Ok (float_tensor (OH2 t0))) as Hoh.
  { rewrite Hea. unfold edge_attr_one_hot; simpl.
    rewrite one_hot_1d_ok; [done|done|].
    apply Forall_fmap. eapply Forall_impl; [exact Hcodes|]. simpl; lia. }
  assert (Forall (fun row => length row = width t0) (wide_rows t0)) as Hwide.
  { simpl. apply Forall_fmap, Forall_forall. intros x _; simpl.
    apply one_hot_row_length. }
  split.
  - apply (compute_pe_channels_wide _ g (NefInt n) t0); try done.
    + intros w Hw. by apply diffusion_from_edge_weight_shape.
    + simpl. lia.
    + simpl. by rewrite !length_fmap.
  - apply (compute_pe_channels_wide _ g (NefInt n) t0); try done.
    + intros w Hw. by apply pstep_from_edge_weight_shape.
    + simpl. lia.
    + simpl. by rewrite !length_fmap.
Qed.

End ChannelMore.

Lemma compute_pe_channel_count_int_witness :
  (forall m k, has_shape2 m k k -> has_shape2 (expm_order1 m) k k)
  /\ valid_normalization None
  /\ edges_in_range (edge_index path3_coded) (num_nodes path3_coded)
  /\ edge_attr path3_coded = Some (I1 [1; 1; 2; 2]%Z)
  /\ length [1; 1; 2; 2]%Z = length (edge_index path3_coded)
  /\ codes_ok (I1 [1; 1; 2; 2]%Z) (NefInt 2)
  /\ (exists t,
        compute_pe (DiffusionEncoding.make expm_order1 None (1 # 2) true None
                                           false (NefInt 2)) path3_coded
        = Ok (T3 t)
        /\ has_shape3 t (Z.to_nat 2)
                      (num_nodes path3_coded) (num_nodes path3_coded)
        /\ channel_encodings
             (DiffusionEncoding.compute_pe_from_edge_weight
                expm_order1 (1 # 2) None)
             path3_coded (NefInt 2) t)
  /\ (exists t,
        compute_pe (PStepRWEncoding.make None 2 (1 # 2) true None
                                         false (NefInt 2)) path3_coded
        = Ok (T3 t)
        /\ has_shape3 t (Z.to_nat 2)
                      (num_nodes path3_coded) (num_nodes path3_coded)
        /\ channel_encodings
             (PStepRWEncoding.compute_pe_from_edge_weight 2 (1 # 2) None)
             path3_coded (NefInt 2) t).
Proof.
  assert (codes_ok (I1 [1; 1; 2; 2]%Z) (NefInt 2)) as Hcodes.
  { simpl. split; [lia|]. split; [done|]. repeat constructor; lia. }
  assert (edges_in_range (edge_index path3_coded) (num_nodes path3_coded))
    as Hrange.
  { unfold edges_in_range; simpl. repeat constructor; simpl; lia. }
  split; [exact expm_order1_shape|]. split; [by left|].
  split; [exact Hrange|]. split; [reflexivity|]. split; [reflexivity|].
  split; [exact Hcodes|].
  apply (compute_pe_channel_count_int expm_order1 2 (1 # 2) None path3_coded
           [1; 1; 2; 2]%Z 2%Z
           expm_order1_shape (or_introl eq_refl) Hrange eq_refl eq_refl Hcodes).
Defined.

(** The two channels of that encoding at order 1, [beta = 1/2]: the edge
    0-1 alone, then the edge 1-2 alone. *)
Example path3_coded_channels :
  PStepRWEncoding.compute_pe (R := Q) 1 (1 # 2) true None (NefInt 2) path3_coded
  = Ok (T3 [[[1 # 2; 1 # 2; 0]; [1 # 2; 1 # 2; 0]; [0; 0; 1]];
            [[1; 0; 0]; [0; 1 # 2; 1 # 2]; [0; 1 # 2; 1 # 2]]]%Q).
Proof. reflexivity. Qed.

(** ** The experiment script *)

Lemma py_slice_take_drop {A} (a b : nat) (l : list A) :
  py_slice (Z.of_nat a) (Z.of_nat a + Z.of_nat b) l = take b (drop a l).
Proof.
  unfold py_slice, slice_bound. repeat case_decide; try lia.
  rewrite Nat2Z.id.
  replace (Z.to_nat (Z.of_nat a + Z.of_nat b)) with (a + b) by lia.
  destruct (decide (a <= length l)) as [Ha|Ha].
  - rewrite (Nat.min_l a) by done.
    destruct (decide (a + b <= length l)) as [Hb|Hb].
    + rewrite Nat.min_l by done. f_equal; lia.
    + rewrite Nat.min_r by lia.
      rewrite !take_ge; [done|rewrite length_drop; lia|rewrite length_drop; lia].
  - rewrite !drop_ge by lia. by rewrite !take_nil.
Qed.

(** X26. The three slices of [main] deal the list out without loss, overlap or
    reordering; when the list holds the encodings of the training,
    validation and test graphs in this order, every dataset gets its own. *)
Theorem split_pos_enc_values_round_trip {A} (train val test : list A) :
  split_pos_enc_values (train ++ val ++ test) (length train) (length val)
  = (train, val, test)
  /\ forall (values : list A) len_train len_val,
       let parts := split_pos_enc_values values len_train len_val in
       parts.1.1 ++ parts.1.2 ++ parts.2 = values.
Proof.
  assert (forall (values : list A) a b,
            split_pos_enc_values values a b
            = (take a values, take b (drop a values), drop (a + b) values))
    as Hsplit.
  { intros values a b. unfold split_pos_enc_values, py_slice_to, py_slice_from.
    rewrite py_slice_take_drop.
    pose proof (py_slice_take_drop 0 a values) as H0. simpl in H0.
    rewrite Z.add_0_l in H0. change (Z.of_nat 0) with 0%Z in H0.
    rewrite drop_0 in H0. rewrite H0.
    do 2 f_equal.
    unfold py_slice, slice_bound. repeat case_decide; try lia.
    rewrite Nat2Z.id, Nat.min_id.
    replace (Z.to_nat (Z.of_nat a + Z.of_nat b)) with (a + b) by lia.
    destruct (decide (a + b <= length values)) as [Hb|Hb].
    - rewrite Nat.min_l by done. apply take_ge. rewrite length_drop. lia.
    - rewrite Nat.min_r by lia. rewrite Nat.sub_diag, take_0.
      by rewrite drop_ge by lia. }
  split.
  - rewrite Hsplit. rewrite take_app_length.
    rewrite drop_app_length, take_app_length.
    rewrite app_assoc, <- length_app. by rewrite drop_app_length.
  - intros values a b parts. subst parts. rewrite Hsplit; simpl.
    rewrite <- (drop_drop values b a).
    by rewrite take_drop, take_drop.
Qed.

Section BestEpochFacts.
Context {W : Type}.

Lemma select_step_score (epoch : nat) (v : Q) (w : W) (s : selection W) :
  (best_val_score s <= best_val_score (select_step epoch v w s))%Q
  /\ (v <= best_val_score (select_step epoch v w s))%Q.
Proof.
  unfold select_step. destruct (Qlt_le_dec (best_val_score s) v); simpl.
  - split; [by apply Qlt_le_weak|apply Qle_refl].
  - split; [apply Qle_refl|done].
Qed.

Lemma select_loop_score (k : nat) (epochs : list (Q * W)) (s : selection W) :
  (best_val_score s <= best_val_score (select_loop k epochs s))%Q
  /\ forall j r, epochs !! j = Some r ->
       (r.1 <= best_val_score (select_loop k epochs s))%Q.
Proof.
  revert k s; induction epochs as [|[v w] epochs IH]; intros k s; simpl.
  - split; [apply Qle_refl|]. by intros j r ?.
  - destruct (IH (S k) (select_step k v w s)) as [Hmono Hall].
    destruct (select_step_score k v w s) as [Hs Hv].
    split; [by eapply Qle_trans|].
    intros [|j] r; simpl.
    + intros [= <-]; simpl. by eapply Qle_trans.
    + apply Hall.
Qed.

Lemma select_loop_choice (k : nat) (epochs : list (Q * W)) (s : selection W) :
  (select_loop k epochs s = s
   /\ Forall (fun r => r.1 <= best_val_score s)%Q epochs)
  \/ (exists j w,
        epochs !! j = Some (best_val_score (select_loop k epochs s), w)
        /\ best_epoch (select_loop k epochs s) = k + j
        /\ best_weights (select_loop k epochs s) = Some w
        /\ (best_val_score s < best_val_score (select_loop k epochs s))%Q
        /\ forall i r, i < j -> epochs !! i = Some r ->
             (r.1 < best_val_score (select_loop k epochs s))%Q).
Proof.
  revert k s; induction epochs as [|[v w] epochs IH]; intros k s; simpl.
  - left. by split.
  - destruct (select_step_score k v w s) as [Hs Hv].
    destruct (IH (S k) (select_step k v w s))
      as [[Heq Hall]|(j & w' & Hj & He & Hw & Hlt & Hbefore)].
    + rewrite Heq. unfold select_step in *.
      destruct (Qlt_le_dec (best_val_score s) v) as [Hgt|Hle]; simpl in *.
      * right. exists 0, w. split; [done|]. split; [lia|]. split; [done|].
        split; [done|]. intros i r Hi. lia.
      * left. split; [done|]. by constructor.
    + right. exists (S j), w'. split; [done|]. split; [lia|]. split; [done|].
      split; [by eapply Qle_lt_trans|].
      intros [|i] r Hi; simpl.
      * intros [= <-]; simpl. by eapply Qle_lt_trans.
      * apply Hbefore. lia.
Qed.

(** X27. The model selection of [main].  After the loop [best_weights] is
    unbound exactly when no epoch had a validation score above 0, in
    particular when there was no epoch, and [load_state_dict(best_weights)]
    then has nothing to load.  Otherwise the three variables describe one
    epoch, the first one whose validation score is the largest of all. *)
Theorem select_best_first_maximum (epochs : list (Q * W)) :
  let s := select_best epochs in
  (best_weights s = None <-> Forall (fun r => r.1 <= 0)%Q epochs)
  /\ forall w, best_weights s = Some w ->
       epochs !! best_epoch s = Some (best_val_score s, w)
       /\ (0 < best_val_score s)%Q
       /\ (forall j r, epochs !! j = Some r -> (r.1 <= best_val_score s)%Q)
       /\ (forall j r, j < best_epoch s -> epochs !! j = Some r ->
             (r.1 < best_val_score s)%Q).
Proof.
  intros s. subst s. unfold select_best.
  destruct (select_loop_score 0 epochs (Selection 0 0 None)) as [_ Hall].
  destruct (select_loop_choice 0 epochs (Selection 0 0 None))
    as [[Heq Hle]|(j & w' & Hj & He & Hw & Hlt & Hbefore)].
  - rewrite Heq; simpl. split; [done|]. by intros w.
  - simpl in He, Hlt. split.
    + rewrite Hw. split; [done|]. intros Hle.
      pose proof (proj1 (Forall_lookup _ _) Hle _ _ Hj) as Hbad; simpl in Hbad.
      by apply Qlt_not_le in Hlt.
    + intros w Hw'. rewrite Hw in Hw'. injection Hw' as <-.
      rewrite He. split; [done|]. split; [done|]. split; [done|].
      intros i r Hi. by apply Hbefore.
Qed.

End BestEpochFacts.

(** Five epochs whose best validation score, 7/10, is reached twice: the
    first of the two is kept; and a run whose scores never leave 0. *)
Example select_best_examples :
  select_best [(1 # 2, "e0"); (7 # 10, "e1"); (3 # 5, "e2"); (7 # 10, "e3");
               (1 # 10, "e4")]%Q
  = Selection (7 # 10) 1 (Some "e1")
  /\ select_best [(0, "e0"); (0, "e1")]%Q = Selection 0 0 None
  /\ select_best (W := string) [] = Selection 0 0 None.
Proof. repeat split; reflexivity. Qed.

(** ** The adjacency encoding, entry by entry *)

Section AdjFacts.
Context {R : Type} `{FloatOps R}.

Lemma add_at_entry (m : matrix R) r c w i j :
  entry2 (add_at m r c w) i j
  = if decide (i = r /\ j = c) then (fun x => fadd x w) <$> entry2 m i j
    else entry2 m i j.
Proof.
  unfold entry2, add_at. case_decide as Hd.
  - destruct Hd as [-> ->]. rewrite list_lookup_alter_eq.
    destruct (m !! r) as [row|]; simpl; [|done].
    by rewrite list_lookup_alter_eq.
  - destruct (decide (i = r)) as [->|Hi].
    + rewrite list_lookup_alter_eq.
      destruct (m !! r) as [row|]; simpl; [|done].
      rewrite list_lookup_alter_ne; [done|]. intros ->. by apply Hd.
    + by rewrite list_lookup_alter_ne.
Qed.

Lemma accumulate_ones_entry (ei : list (nat * nat)) (m : matrix R) i j :
  NoDup ei ->
  entry2 (accumulate m ei (replicate (length ei) f1)) i j
  = if decide ((i, j) ∈ ei) then (fun x => fadd x f1) <$> entry2 m i j
    else entry2 m i j.
Proof.
  unfold accumulate. revert m.
  induction ei as [|[r c] ei IH]; intros m Hnd;
    cbn [length replicate zip_with foldl fst snd].
  - rewrite decide_False; [done|]. by intros ?%elem_of_nil.
  - apply NoDup_cons in Hnd as [Hrc Hnd].
    rewrite (IH _ Hnd), add_at_entry.
    destruct (decide (i = r /\ j = c)) as [[-> ->]|Hne].
    + rewrite (decide_False (P := (r, c) ∈ ei)) by done.
      rewrite decide_True; [done|by left].
    + destruct (decide ((i, j) ∈ ei)) as [Hin|Hout].
      * rewrite decide_True; [done|by right].
      * rewrite decide_False; [done|].
        intros [Heq|Hin]%elem_of_cons; [|done].
        apply Hne. by injection Heq.
Qed.

(** X21. On a graph without repeated edges [AdjEncoding.compute_pe] returns the
    indicator of the edges: within the matrix, entry [(i, j)] is
    [0. + 1.] when [(i, j)] is an edge and [0.] when it is not. *)
Theorem adj_compute_pe_entries (g : graph) :
  NoDup (edge_index g) ->
  exists a,
    AdjEncoding.compute_pe (R := R) g = Ok (T3 [a])
    /\ forall i j,
         i < infer_num_nodes (edge_index g) ->
         j < infer_num_nodes (edge_index g) ->
         entry2 a i j
         = Some (if decide ((i, j) ∈ edge_index g) then fadd f0 f1 else f0).
Proof.
  intros Hnd. eexists. split; [reflexivity|].
  intros i j Hi Hj. rewrite accumulate_ones_entry by done.
  assert (entry2 (zeros (R := R) (infer_num_nodes (edge_index g))
                        (infer_num_nodes (edge_index g))) i j = Some f0)
    as ->.
  { unfold entry2, zeros. rewrite lookup_replicate_2 by done. simpl.
    by apply lookup_replicate_2. }
  by case_decide.
Qed.

End AdjFacts.

Lemma adj_compute_pe_entries_witness :
  NoDup (edge_index tail3)
  /\ exists a,
      AdjEncoding.compute_pe (R := Q) tail3 = Ok (T3 [a])
      /\ forall i j,
           i < infer_num_nodes (edge_index tail3) ->
           j < infer_num_nodes (edge_index tail3) ->
           entry2 a i j
           = Some (if decide ((i, j) ∈ edge_index tail3) then fadd f0 f1
                   else f0).
Proof.
  assert (NoDup (edge_index tail3)) as Hnd.
  { simpl. apply NoDup_cons. split.
    - intros Hin%list_elem_of_singleton. discriminate Hin.
    - apply NoDup_singleton. }
  split; [exact Hnd|].
  apply (adj_compute_pe_entries (R := Q) tail3 Hnd).
Defined.

(** ** A cache is keyed by path and split *)

Lemma mapR_take {A B} (f : A -> result B) l bs n :
  mapR f l = Ok bs -> mapR f (take n l) = Ok (take n bs).
Proof.
  revert bs n; induction l as [|a l IH]; intros bs n; simpl.
  - intros [= <-]. by destruct n.
  - destruct (f a) as [b|e] eqn:Hf; simpl; [|done].
    destruct (mapR f l) as [bs'|e]; simpl; [|done].
    intros [= <-]. destruct n as [|n]; simpl; [done|].
    by rewrite Hf, (IH bs' n eq_refl).
Qed.

Section StaleCache.
Context {R : Type} `{FloatOps R} {blob : Type}.
Variable pickle_dump : list (tensor R) -> blob.
Variable pickle_load : blob -> result (option (list (tensor R))).
Variable open_wb : string -> result unit.

#[local] Abbreviation run := (apply_to pickle_dump pickle_load open_wb).

(** X10. The cache does not know the dataset it was computed on.  After a first
    call on [ds], a call with the same savepath and split on any dataset
    [ds'] that is not longer returns normally, computes nothing and hands
    [ds'] the leading encodings of [ds]. *)
Theorem apply_to_stale_cache (self : PositionEncoding) ds ds' split w0 w1 sp l :
  (forall l, pickle_load (pickle_dump l) = Ok (Some l)) ->
  savepath self = Some sp ->
  files w0 !! cache_path sp split = None ->
  run self ds split w0 = (Ok tt, w1) ->
  pe_list w1 = Some l ->
  length ds' <= length ds ->
  run self ds' split w1
  = (Ok tt, World (files w1) (Some (take (length ds') l)) (compute_calls w1)).
Proof.
  intros Hrt Hsp Hfile Hfirst Hl Hlen.
  rewrite (apply_to_miss_run _ _ _ self ds split w0 sp Hsp Hfile) in Hfirst.
  destruct (runR (miss_step self) ds) as [ps o] eqn:Hr; simpl in Hfirst.
  destruct o as [e|]; [done|].
  destruct (open_wb (cache_path sp split)) as [[]|e]; [|done].
  injection Hfirst as <-.
  simpl in Hl. injection Hl as <-.
  apply runR_mapR in Hr. destruct (miss_steps_split _ _ _ Hr) as [Hc Hm].
  pose proof (mapR_length _ _ _ Hc) as Hcl.
  rewrite (apply_to_hit_run _ _ _ self ds' split _ sp (pickle_dump ps.*1) Hsp)
    by (simpl; apply lookup_insert_eq).
  rewrite Hrt; simpl.
  assert (runR (hit_step self ps.*1) (seq 0 (length ds'))
          = (take (length ds') ps.*2, None)) as ->.
  { apply runR_mapR. rewrite hit_steps_take by lia. by apply mapR_take. }
  done.
Qed.

End StaleCache.

(** The cache of two 2-node graphs serves a 3-node graph: [tail3] gets a
    [2 x 2] encoding. *)
Lemma apply_to_stale_cache_witness :
  (forall l, id_load (id_dump l) = Ok (Some l))
  /\ savepath full_masking = Some "pe"
  /\ files empty_world !! cache_path "pe" "train" = None
  /\ apply_to id_dump id_load open_ok full_masking [isolated2; loop2] "train"
              empty_world
     = (Ok tt, after_first_call)
  /\ pe_list after_first_call
     = Some [T2 [[0; 1]; [1; 0]]; T2 [[0; 1]; [1; 0]]]%Q
  /\ length [tail3] <= length [isolated2; loop2]
  /\ apply_to id_dump id_load open_ok full_masking [tail3] "train" after_first_call
     = (Ok tt,
        World (files after_first_call)
              (Some (take (length [tail3])
                          [T2 [[0; 1]; [1; 0]]; T2 [[0; 1]; [1; 0]]]%Q))
              (compute_calls after_first_call)).
Proof.
  split; [reflexivity|]. split; [reflexivity|]. split; [reflexivity|].
  split; [reflexivity|]. split; [reflexivity|]. split; [simpl; lia|].
  apply (apply_to_stale_cache id_dump id_load open_ok full_masking [isolated2; loop2]
           [tail3] "train" empty_world after_first_call "pe"
           [T2 [[0; 1]; [1; 0]]; T2 [[0; 1]; [1; 0]]]%Q);
    [reflexivity|reflexivity|reflexivity|reflexivity|reflexivity|simpl; lia].
Defined.
